(** * The Kafka consumption pipeline of the documentation, embedded in Rocq

    The repository documents a NestJS Kafka client.  Its pages carry the
    TypeScript of the pipeline's controllers (backpressure, adaptive
    concurrency, circuit breaker), of the consumer-side handlers (key
    grouping, sequential processing per key) and of the retry policy
    (retryDelay, shouldRetry).  Each of these is translated here function
    by function.

    JavaScript numbers are exact integers where the code counts (counters,
    attempts, delays, timestamps).  The utilisation of the backpressure
    controller, a quotient, is computed in IEEE 754 double precision
    ([SpecFloat]).  The durations of the adaptive controller, which the
    code hands to a function of its own and compares, are rationals.

    An async method runs up to its await, and other calls may run before
    it continues.  For the backpressure controller and the circuit
    breaker, whose methods write their fields after an await, a call is
    split into its part before the await and its continuation, and the
    states are those of every interleaving; calls that do not overlap are
    the special case [run] / [sendAll].

    The components whose TypeScript the pages do not show (idempotency
    filter, batch aggregator, failure router, the limiter of the
    dispatcher, the offset commit) are modelled from the specification
    and are marked as such. *)

From Stdlib Require Import ZArith QArith Lia List Bool SpecFloat.
From stdpp Require Import gmap strings list sorting.
Import ListNotations.

Local Open Scope Z_scope.
Set Warnings "-clear-no-such-hyp".

(** ** Messages *)

(** KafkaMessage, as far as the pages read it: msg.key?.toString(),
    msg.value.toString(), message.headers[...], and the partition and
    offset that tell two messages of a topic apart. *)
Record KafkaMessage : Type := Message {
  partition : Z;
  offset : Z;
  key : option string;             (* None: a message without key *)
  value : string;
  headers : gmap string string
}.

#[global] Instance KafkaMessage_eq_dec : EqDecision KafkaMessage.
Proof. solve_decision. Defined.

(** ** JavaScript numbers *)

(** A JavaScript number is an IEEE 754 binary64 value.  The products,
    quotients and comparisons of the backpressure controller are those of
    the standard, rounded to nearest, ties to even. *)
Module Number.

Definition number : Type := spec_float.

Definition prec : Z := 53.
Definition emax : Z := 1024.

(** The number an integer denotes: the integer itself up to 2^53, the
    nearest number beyond. *)
Definition ofZ (z : Z) : number := binary_normalize prec emax z 0 false.

Definition mul : number -> number -> number := SFmul prec emax.
Definition div : number -> number -> number := SFdiv prec emax.

(** x <= y, which is false when either side is NaN. *)
Definition leb : number -> number -> bool := SFleb.

(** The literal 0.6. *)
Definition c0_6 : number := S754_finite false 5404319552844595 (-53).

End Number.

(** The literal 0.6 is 6 / 10 rounded to the nearest number. *)
Lemma c0_6_nearest :
  Number.c0_6 = Number.div (Number.ofZ 6) (Number.ofZ 10).
Proof. vm_compute. reflexivity. Qed.

(** ** Backpressure controller (docs/kafka/best-practices.md, 908-937) *)

Module Backpressure.
Import Number.

(** The calls the controller makes on the Kafka consumer. *)
Inductive effect : Type :=
| Pause    (* consumer.pause([{ topic }]) *)
| Resume.  (* consumer.resume([{ topic }]) *)

(** The two entry points of the controller. *)
Inductive call : Type :=
| Before   (* beforeBatchProcessing() *)
| After.   (* afterBatchProcessing() *)

(** The mutable fields of [BackpressureController].  activeBatches only
    ever holds a whole number. *)
Record controller : Type := Controller {
  activeBatches : Z;
  isPaused : bool
}.

(** private activeBatches = 0; private isPaused = false *)
Definition init : controller :=
  {| activeBatches := 0; isPaused := false |}.

Section Config.
(** The two readonly fields; maxConcurrency is a whole number. *)
Variable maxConcurrency : Z.
Variable threshold : number.

(** (activeBatches / this.maxConcurrency) * 100 *)
Definition utilizationOf (active : Z) : number :=
  mul (div (ofZ active) (ofZ maxConcurrency)) (ofZ 100).

Definition utilizationPercent (c : controller) : number :=
  utilizationOf (activeBatches c).

(** this.threshold * 0.6 *)
Definition resumeThreshold : number := mul threshold c0_6.

(** The part of a call that runs before its await: the counter, the test
    and, when the test passes, the call on the consumer. *)
Definition enter (k : call) (c : controller) : controller * option effect :=
  match k with
  | Before =>
      let c1 := {| activeBatches := activeBatches c + 1; isPaused := isPaused c |} in
      (c1, if leb threshold (utilizationPercent c1) && negb (isPaused c1)
           then Some Pause else None)
  | After =>
      let c1 := {| activeBatches := activeBatches c - 1; isPaused := isPaused c |} in
      (c1, if leb (utilizationPercent c1) resumeThreshold && isPaused c1
           then Some Resume else None)
  end.

(** The rest of a call that called the consumer, once its await is over:
    this.isPaused = true after pause, this.isPaused = false after
    resume. *)
Definition settle (e : effect) (c : controller) : controller :=
  {| activeBatches := activeBatches c;
     isPaused := match e with Pause => true | Resume => false end |}.

(** A call that runs to its end before any other call starts. *)
Definition beforeBatchProcessing (c : controller) : controller * list effect :=
  let c1 := {| activeBatches := activeBatches c + 1; isPaused := isPaused c |} in
  if leb threshold (utilizationPercent c1) && negb (isPaused c1)
  then ({| activeBatches := activeBatches c1; isPaused := true |}, [Pause])
  else (c1, []).

Definition afterBatchProcessing (c : controller) : controller * list effect :=
  let c1 := {| activeBatches := activeBatches c - 1; isPaused := isPaused c |} in
  if leb (utilizationPercent c1) resumeThreshold && isPaused c1
  then ({| activeBatches := activeBatches c1; isPaused := false |}, [Resume])
  else (c1, []).

Definition step (k : call) (c : controller) : controller * list effect :=
  match k with
  | Before => beforeBatchProcessing c
  | After => afterBatchProcessing c
  end.

(** Calls that do not overlap, in any order, with the consumer calls
    they make, oldest first. *)
Fixpoint run (ks : list call) (c : controller) : controller * list effect :=
  match ks with
  | [] => (c, [])
  | k :: ks' =>
      let '(c1, es1) := step k c in
      let '(c2, es2) := run ks' c1 in
      (c2, es1 ++ es2)
  end.

(** The controller with the calls that are suspended at their await, each
    with the consumer call it made, and the log of the consumer calls,
    oldest first, each with the activeBatches it was made at. *)
Record system : Type := System {
  ctl : controller;
  suspended : list effect;
  log : list (effect * Z)
}.

Definition start : system :=
  {| ctl := init; suspended := []; log := [] |}.

(** A call starts and runs to its await or to its end; or a suspended
    call, the i-th, resumes and runs to its end. *)
Inductive move : Type :=
| Enter (k : call)
| Settle (i : nat).

Definition moveStep (mv : move) (s : system) : option system :=
  match mv with
  | Enter k =>
      let '(c1, issued) := enter k (ctl s) in
      Some {| ctl := c1;
              suspended := suspended s ++ option_list issued;
              log := log s ++
                     map (fun e => (e, activeBatches c1)) (option_list issued) |}
  | Settle i =>
      match suspended s !! i with
      | Some e =>
          Some {| ctl := settle e (ctl s);
                  suspended := delete i (suspended s);
                  log := log s |}
      | None => None
      end
  end.

(** The moves in the order they are made. *)
Fixpoint schedule (mvs : list move) (s : system) : option system :=
  match mvs with
  | [] => Some s
  | mv :: mvs' =>
      match moveStep mv s with
      | Some s1 => schedule mvs' s1
      | None => None
      end
  end.

(** The states of the controller under every interleaving of calls. *)
Inductive reachable : system -> Prop :=
| reachable_start : reachable start
| reachable_move mv s s' :
    reachable s -> moveStep mv s = Some s' -> reachable s'.

End Config.

(** Pause and resume calls alternate, the first one being the one the
    flag allows. *)
Fixpoint alternates (paused : bool) (es : list effect) : bool :=
  match es with
  | [] => true
  | Pause :: es' => negb paused && alternates true es'
  | Resume :: es' => paused && alternates false es'
  end.

(** The claim of the specification, read over exact ratios: with
    activeUnits batches in progress and activeUnits / capacity at or
    above the pause threshold (in percent), intake is paused. *)
Definition pausesAtRatio (capacity pauseThreshold : Z) (activeUnits : nat)
    : Prop :=
  (inject_Z pauseThreshold / 100 <=
   inject_Z (Z.of_nat activeUnits) / inject_Z capacity)%Q ->
  isPaused (fst (run capacity (ofZ pauseThreshold)
                   (repeat Before activeUnits) init)) = true.

End Backpressure.

(** ** Backpressure: proofs *)

Section BackpressureProofs.
Import Number Backpressure.
Variable maxConcurrency : Z.
Variable threshold : number.

Local Abbreviation util := (utilizationOf maxConcurrency).
Local Abbreviation stepc := (step maxConcurrency threshold).
Local Abbreviation runc := (run maxConcurrency threshold).
Local Abbreviation enterc := (enter maxConcurrency threshold).
Local Abbreviation moveStepc := (moveStep maxConcurrency threshold).
Local Abbreviation reachablec := (reachable maxConcurrency threshold).

(** A call that runs to its end is its part before the await followed at
    once by its part after it. *)
Lemma step_enter_settle (k : call) (c : controller) :
  stepc k c =
  (match snd (enterc k c) with
   | Some e => settle e (fst (enterc k c))
   | None => fst (enterc k c)
   end,
   option_list (snd (enterc k c))).
Proof.
  destruct k; cbn [step enter]; unfold beforeBatchProcessing, afterBatchProcessing;
    cbn [fst snd isPaused activeBatches];
    match goal with |- context [if ?b then _ else _] => destruct b end;
    reflexivity.
Qed.

(** What the part before the await decides. *)
Lemma enter_before (c : controller) :
  snd (enterc Before c) = Some Pause <->
  leb threshold (util (activeBatches c + 1)) = true /\ isPaused c = false.
Proof.
  cbn [enter snd]. unfold utilizationPercent; cbn [activeBatches isPaused].
  destruct (leb threshold _); destruct (isPaused c); cbn [andb negb];
    split; try discriminate; try (intros [? ?]; discriminate); auto.
Qed.

Lemma enter_after (c : controller) :
  snd (enterc After c) = Some Resume <->
  leb (util (activeBatches c - 1)) (resumeThreshold threshold) = true /\
  isPaused c = true.
Proof.
  cbn [enter snd]. unfold utilizationPercent; cbn [activeBatches isPaused].
  destruct (leb _ (resumeThreshold threshold)); destruct (isPaused c);
    cbn [andb]; split; try discriminate; try (intros [? ?]; discriminate); auto.
Qed.

Lemma enter_issues (k : call) (c : controller) (e : effect) :
  snd (enterc k c) = Some e ->
  match e with
  | Pause =>
      k = Before /\
      leb threshold (utilizationPercent maxConcurrency (fst (enterc k c))) = true
  | Resume =>
      k = After /\
      leb (utilizationPercent maxConcurrency (fst (enterc k c)))
          (resumeThreshold threshold) = true
  end.
Proof.
  destruct k; cbn [enter fst snd]; unfold utilizationPercent;
    cbn [activeBatches isPaused];
    match goal with |- context [if ?b && ?p then _ else _] =>
      destruct b eqn:Hb; destruct p; cbn [andb] end;
    intros [= <-]; auto.
Qed.

(** Under every interleaving, a pause was issued at a computed
    utilisation at or above the threshold, and a resume at a computed
    utilisation at or below the resume threshold. *)
Lemma reachable_log (s : system) :
  reachablec s ->
  forall e a, (e, a) ∈ log s ->
  match e with
  | Pause => leb threshold (util a) = true
  | Resume => leb (util a) (resumeThreshold threshold) = true
  end.
Proof.
  induction 1 as [| mv s s' Hr IH Hstep]; intros e a Hin.
  - inversion Hin.
  - destruct mv as [k | i]; cbn [moveStep] in Hstep.
    + pose proof (enter_issues k (ctl s)) as Hi.
      destruct (enterc k (ctl s)) as [c1 issued]; cbn [fst snd] in Hi.
      injection Hstep as <-. cbn [log] in Hin.
      apply elem_of_app in Hin as [Hin | Hin]; [now apply IH |].
      destruct issued as [e1 |]; cbn in Hin; [| inversion Hin].
      apply list_elem_of_singleton in Hin. injection Hin as -> ->.
      specialize (Hi e1 eq_refl). destruct e1; tauto.
    + destruct (suspended s !! i); [| discriminate].
      injection Hstep as <-. cbn [log] in Hin. now apply IH.
Qed.

Lemma schedule_reachable (mvs : list move) :
  forall s s', schedule maxConcurrency threshold mvs s = Some s' ->
  reachablec s -> reachablec s'.
Proof.
  induction mvs as [| mv mvs IH]; intros s s' Hs Hr; cbn [schedule] in Hs.
  - now injection Hs as <-.
  - destruct (moveStepc mv s) as [s1 |] eqn:Hm; [| discriminate].
    eapply IH; [exact Hs |]. eapply reachable_move; eauto.
Qed.

(** While the flag is set and the computed utilisation stays above the
    resume threshold, a call that runs to its end leaves the flag set
    and calls nothing. *)
Lemma step_stays_paused (k : call) (c : controller) :
  isPaused c = true ->
  leb (utilizationPercent maxConcurrency (fst (stepc k c)))
      (resumeThreshold threshold) = false ->
  isPaused (fst (stepc k c)) = true /\ snd (stepc k c) = [].
Proof.
  intros Hp. destruct k; cbn [step].
  - unfold beforeBatchProcessing; cbn [isPaused]; rewrite Hp.
    rewrite andb_false_r; cbn [fst snd isPaused]. now split.
  - unfold afterBatchProcessing, utilizationPercent;
      cbn [activeBatches isPaused]; rewrite Hp.
    destruct (leb (util (activeBatches c - 1)) (resumeThreshold threshold))
      eqn:Hle; cbn [andb fst snd isPaused activeBatches].
    + intros H. rewrite Hle in H. discriminate.
    + now split.
Qed.

Lemma resume_default : resumeThreshold (ofZ 80) = ofZ 48.
Proof. vm_compute. reflexivity. Qed.

Lemma step_alternates (k : call) (c : controller) (es : list effect) :
  alternates (isPaused (fst (stepc k c))) es = true ->
  alternates (isPaused c) (snd (stepc k c) ++ es) = true.
Proof.
  destruct k; cbn [step].
  - unfold beforeBatchProcessing; cbn [isPaused].
    destruct (leb _ _); destruct (isPaused c) eqn:Hp;
      cbn [andb negb fst snd isPaused app alternates]; rewrite ?Hp; auto.
  - unfold afterBatchProcessing; cbn [isPaused].
    destruct (leb _ _); destruct (isPaused c) eqn:Hp;
      cbn [andb negb fst snd isPaused app alternates]; rewrite ?Hp; auto.
Qed.

Lemma run_alternates (ks : list call) (c : controller) :
  alternates (isPaused c) (snd (runc ks c)) = true.
Proof.
  revert c; induction ks as [| k ks IH]; intros c; cbn [run]; [reflexivity |].
  specialize (IH (fst (stepc k c))).
  pose proof (step_alternates k c _ IH) as H.
  destruct (stepc k c) as [c1 es1]; cbn [fst snd] in *.
  destruct (runc ks c1) as [c2 es2]; cbn [fst snd] in *. exact H.
Qed.

(** A log that alternates never holds the same call twice in a row. *)
Lemma alternates_adjacent (es : list effect) :
  forall paused, alternates paused es = true ->
  forall l1 e1 e2 l2, es = l1 ++ e1 :: e2 :: l2 -> e1 <> e2.
Proof.
  induction es as [| e es IH]; intros paused Halt l1 e1 e2 l2 Heq.
  - now destruct l1.
  - destruct l1 as [| x l1]; cbn [app] in Heq; injection Heq as -> ->.
    + destruct e1, e2; cbn [alternates] in Halt;
        destruct paused; cbn [andb negb] in Halt; congruence.
    + destruct x; cbn [alternates] in Halt;
        apply andb_true_iff in Halt as [_ Halt]; eapply IH; eauto.
Qed.

(** Calls that do not overlap are among the interleavings: a run of such
    calls leads from a state with no call suspended to one with no call
    suspended, whose log has grown by the consumer calls of the run. *)
Lemma run_among_interleavings (ks : list call) :
  forall s : system,
  reachablec s -> suspended s = [] ->
  exists s',
    reachablec s' /\ suspended s' = [] /\
    ctl s' = fst (runc ks (ctl s)) /\
    map fst (log s') = map fst (log s) ++ snd (runc ks (ctl s)).
Proof.
  induction ks as [| k ks IH]; intros s Hr Hs; cbn [run].
  - exists s. cbn [fst snd]. rewrite app_nil_r. auto.
  - pose proof (step_enter_settle k (ctl s)) as Hk.
    destruct (enterc k (ctl s)) as [c1 issued] eqn:He; cbn [fst snd] in Hk.
    assert (Hm1 : moveStepc (Enter k) s =
              Some {| ctl := c1; suspended := option_list issued;
                      log := log s ++ map (fun e => (e, activeBatches c1))
                                          (option_list issued) |}).
    { cbn [moveStep]. rewrite He, Hs. reflexivity. }
    pose proof (reachable_move _ _ _ _ _ Hr Hm1) as Hr1.
    destruct issued as [e |]; cbn [option_list] in *.
    + set (s1 := {| ctl := c1; suspended := [e];
                    log := log s ++ map (fun e => (e, activeBatches c1)) [e] |}) in *.
      assert (Hm2 : moveStepc (Settle 0) s1 =
                Some {| ctl := settle e c1; suspended := [];
                        log := log s1 |}) by reflexivity.
      pose proof (reachable_move _ _ _ _ _ Hr1 Hm2) as Hr2.
      destruct (IH _ Hr2 eq_refl) as (s' & H1 & H2 & H3 & H4).
      exists s'. cbn [ctl log] in H3, H4. rewrite Hk.
      destruct (runc ks (settle e c1)) as [c2 es2]; cbn [fst snd] in *.
      split; [exact H1 |]. split; [exact H2 |]. split; [exact H3 |].
      rewrite H4. subst s1; cbn [log]. rewrite map_app. cbn [map fst].
      now rewrite <- app_assoc.
    + destruct (IH _ Hr1 eq_refl) as (s' & H1 & H2 & H3 & H4).
      exists s'. cbn [ctl log] in H3, H4. rewrite Hk.
      destruct (runc ks c1) as [c2 es2]; cbn [fst snd] in *.
      split; [exact H1 |]. split; [exact H2 |]. split; [exact H3 |].
      rewrite H4. cbn [map]. now rewrite !app_nil_r.
Qed.

(** X4. The controller calls consumer.pause() from beforeBatchProcessing
    exactly when the utilisation it computes, (activeBatches /
    maxConcurrency) * 100 in double precision, is at or above the
    threshold and the flag is clear, and consumer.resume() from
    afterBatchProcessing exactly when the computed utilisation is at or
    below threshold * 0.6 and the flag is set.  In every state the
    controller reaches, under every interleaving of its calls, every
    pause in the log was issued at a computed utilisation at or above
    the threshold and every resume at one at or below the resume
    threshold: no resume occurs above it.  A call that runs to its end
    on a paused controller whose computed utilisation stays above the
    resume threshold leaves it paused and calls nothing.  At the
    threshold of 80 the resume threshold is 48. *)
Theorem backpressure_hysteresis (s : system) :
  reachablec s ->
  (snd (enterc Before (ctl s)) = Some Pause <->
   leb threshold (util (activeBatches (ctl s) + 1)) = true /\
   isPaused (ctl s) = false) /\
  (snd (enterc After (ctl s)) = Some Resume <->
   leb (util (activeBatches (ctl s) - 1)) (resumeThreshold threshold) = true /\
   isPaused (ctl s) = true) /\
  (forall e a, (e, a) ∈ log s ->
     match e with
     | Pause => leb threshold (util a) = true
     | Resume => leb (util a) (resumeThreshold threshold) = true
     end) /\
  (forall k,
     isPaused (ctl s) = true ->
     leb (utilizationPercent maxConcurrency (fst (stepc k (ctl s))))
         (resumeThreshold threshold) = false ->
     isPaused (fst (stepc k (ctl s))) = true /\ snd (stepc k (ctl s)) = []) /\
  resumeThreshold (ofZ 80) = ofZ 48.
Proof.
  intros Hr.
  split; [apply enter_before |].
  split; [apply enter_after |].
  split; [now apply reachable_log |].
  split; [intros k; apply step_stays_paused | apply resume_default].
Qed.

(** C10. With capacity 5 and threshold 80, five calls of
    beforeBatchProcessing that start before any of them has come back
    from its await: the fourth and the fifth both find the utilisation
    at or above 80 and the flag clear, so consumer.pause() is called
    twice with no resume in between, and two calls are left to set the
    flag.  When no two calls overlap, in contrast, the log of pause and
    resume alternates from every state, and so never holds the same
    call twice in a row. *)
Theorem pause_resume_alternate :
  (exists s,
     schedule 5 (ofZ 80)
       [Enter Before; Enter Before; Enter Before; Enter Before; Enter Before]
       start = Some s /\
     isPaused (ctl s) = false /\
     suspended s = [Pause; Pause] /\
     log s = [(Pause, 4); (Pause, 5)]) /\
  (forall ks c,
     alternates (isPaused c) (snd (runc ks c)) = true /\
     (forall l1 e1 e2 l2, snd (runc ks c) = l1 ++ e1 :: e2 :: l2 -> e1 <> e2)).
Proof.
  split.
  - eexists. split; [vm_compute; reflexivity |]. cbn. auto.
  - intros ks c. split; [apply run_alternates |].
    eapply alternates_adjacent, run_alternates.
Qed.

End BackpressureProofs.

(** Capacity 5, threshold 80: the fourth batch brings the computed
    utilisation to 80 and the consumer is paused, at four batches. *)
Lemma backpressure_hysteresis_witness :
  Number.leb (Number.ofZ 80) (Backpressure.utilizationOf 5 4) = true.
Proof.
  destruct (backpressure_hysteresis 5 (Number.ofZ 80)
              {| Backpressure.ctl := Backpressure.Controller 4 true;
                 Backpressure.suspended := [];
                 Backpressure.log := [(Backpressure.Pause, 4)] |})
    as (_ & _ & H & _).
  - apply (schedule_reachable 5 (Number.ofZ 80)
             [Backpressure.Enter Backpressure.Before;
              Backpressure.Enter Backpressure.Before;
              Backpressure.Enter Backpressure.Before;
              Backpressure.Enter Backpressure.Before;
              Backpressure.Settle 0] (Backpressure.start));
      [vm_compute; reflexivity | constructor].
  - apply (H Backpressure.Pause 4). constructor.
Defined.

(** C3, at the input where the controller departs from it.  Capacity
    100, threshold 57: with 57 batches in progress the ratio is 57 %, at
    the threshold, but the controller computes (57 / 100) * 100 in double
    precision as 56.99999999999999, below it.  None of the 57 calls of
    beforeBatchProcessing pauses the consumer, and the flag stays
    clear. *)
Theorem pause_missed_at_threshold :
  let r := Backpressure.run 100 (Number.ofZ 57)
             (repeat Backpressure.Before 57) Backpressure.init in
  Backpressure.activeBatches (fst r) = 57 /\
  Backpressure.isPaused (fst r) = false /\
  snd r = [] /\
  Backpressure.utilizationOf 100 57 =
    S754_finite false 8022036836253695 (-47) /\
  Number.leb (Number.ofZ 57) (Backpressure.utilizationOf 100 57) = false /\
  ~ Backpressure.pausesAtRatio 100 57 57.
Proof.
  cbv zeta.
  split; [vm_compute; reflexivity |].
  split; [vm_compute; reflexivity |].
  split; [vm_compute; reflexivity |].
  split; [vm_compute; reflexivity |].
  split; [vm_compute; reflexivity |].
  unfold Backpressure.pausesAtRatio. intros H.
  assert (Hq : (inject_Z 57 / 100 <= inject_Z (Z.of_nat 57) / inject_Z 100)%Q)
    by (vm_compute; discriminate).
  specialize (H Hq). vm_compute in H. discriminate.
Qed.
(** ** Adaptive concurrency (docs/kafka/best-practices.md, 946-986) *)

Module Adaptive.

(** direction: 'increase' | 'decrease' *)
Inductive direction : Type :=
| Increase
| Decrease.

(** The fields [adjustConcurrency] writes, over integers. *)
Record tuning : Type := Tuning {
  currentConcurrency : Z;
  threshold : Z
}.

Section Config.
Variable maxConcurrency : Z.

Definition adjustConcurrency (d : direction) (t : tuning) : tuning :=
  match d with
  | Decrease =>
      {| currentConcurrency := Z.max 1 (currentConcurrency t - 1);
         threshold := Z.max 50 (threshold t - 10) |}
  | Increase =>
      {| currentConcurrency := Z.min maxConcurrency (currentConcurrency t + 1);
         threshold := Z.min 90 (threshold t + 5) |}
  end.

(** A sequence of adjustments, oldest first. *)
Definition adjustAll (ds : list direction) (t : tuning) : tuning :=
  fold_left (fun acc d => adjustConcurrency d acc) ds t.

End Config.

End Adaptive.

Section AdaptiveProofs.
Import Adaptive.
Variable maxConcurrency : Z.

Lemma adjust_in_range (d : direction) (t : tuning) :
  1 <= maxConcurrency ->
  1 <= currentConcurrency t <= maxConcurrency ->
  1 <= currentConcurrency (adjustConcurrency maxConcurrency d t) <= maxConcurrency.
Proof. destruct d; cbn [adjustConcurrency currentConcurrency]; lia. Qed.

Lemma adjustAll_in_range (ds : list direction) :
  1 <= maxConcurrency ->
  forall t, 1 <= currentConcurrency t <= maxConcurrency ->
  1 <= currentConcurrency (adjustAll maxConcurrency ds t) <= maxConcurrency.
Proof.
  intros Hm. unfold adjustAll.
  induction ds as [| d ds IH]; intros t Ht; cbn [fold_left]; [exact Ht |].
  apply IH. now apply adjust_in_range.
Qed.

(** C9. With a configured maximum of at least 1 and a limit that starts
    within [1, maxConcurrency], the limit stays there under every sequence
    of adjustments: 'decrease' sets it to max(1, current - 1), 'increase'
    to min(maxConcurrency, current + 1).  The threshold moves by unequal
    steps: 'decrease' takes 10 points off (not below 50), 'increase' adds 5
    (not above 90). *)
Theorem adaptive_limit_bounded (ds : list direction) (t : tuning) :
  1 <= maxConcurrency ->
  1 <= currentConcurrency t <= maxConcurrency ->
  1 <= currentConcurrency (adjustAll maxConcurrency ds t) <= maxConcurrency /\
  (forall u,
     currentConcurrency (adjustConcurrency maxConcurrency Decrease u) =
       Z.max 1 (currentConcurrency u - 1) /\
     currentConcurrency (adjustConcurrency maxConcurrency Increase u) =
       Z.min maxConcurrency (currentConcurrency u + 1) /\
     threshold (adjustConcurrency maxConcurrency Decrease u) =
       Z.max 50 (threshold u - 10) /\
     threshold (adjustConcurrency maxConcurrency Increase u) =
       Z.min 90 (threshold u + 5) /\
     (60 <= threshold u ->
      threshold (adjustConcurrency maxConcurrency Decrease u) = threshold u - 10) /\
     (threshold u <= 85 ->
      threshold (adjustConcurrency maxConcurrency Increase u) = threshold u + 5)).
Proof.
  intros Hm Ht. split; [now apply adjustAll_in_range |].
  intros u; cbn [adjustConcurrency currentConcurrency threshold].
  repeat split; lia.
Qed.

End AdaptiveProofs.

Lemma adaptive_limit_bounded_witness :
  1 <= Adaptive.currentConcurrency
         (Adaptive.adjustAll 5
            [Adaptive.Decrease; Adaptive.Decrease; Adaptive.Decrease; Adaptive.Increase]
            (Adaptive.Tuning 2 80)) <= 5.
Proof.
  apply (adaptive_limit_bounded 5
           [Adaptive.Decrease; Adaptive.Decrease; Adaptive.Decrease; Adaptive.Increase]
           (Adaptive.Tuning 2 80));
    cbn [Adaptive.currentConcurrency]; lia.
Defined.

(** ** Producer-side circuit breaker (docs/kafka/best-practices.md, 1105-1148) *)

Module CircuitBreaker.

(** circuitState: 'CLOSED' | 'OPEN' | 'HALF_OPEN' *)
Inductive circuit : Type :=
| CLOSED
| OPEN
| HALF_OPEN.

(** The mutable fields of [CircuitBreakerProducer]. *)
Record breaker : Type := Breaker {
  failureCount : Z;
  circuitState : circuit;
  lastFailureTime : Z
}.

(** failureCount = 0; circuitState = 'CLOSED'; lastFailureTime = 0 *)
Definition init : breaker :=
  {| failureCount := 0; circuitState := CLOSED; lastFailureTime := 0 |}.

(** What becomes of the try block, should it be entered: the awaited
    producer.send resolves, or the block throws, because producer.send
    rejects or because JSON.stringify throws before producer.send is
    called. *)
Inductive fate : Type :=
| Resolves
| Throws (at_time : Z).  (* the Date.now() the catch block reads *)

(** How one call of [send] ends. *)
Inductive result : Type :=
| Rejected     (* the 'Circuit breaker OPEN' error, thrown by the check,
                  before the try block: producer.send is not called *)
| Sent         (* producer.send was called and resolved *)
| SendFailed.  (* the try block threw; the error is rethrown *)

Definition circuit_eqb (a b : circuit) : bool :=
  match a, b with
  | CLOSED, CLOSED | OPEN, OPEN | HALF_OPEN, HALF_OPEN => true
  | _, _ => false
  end.

Section Config.
(** The two readonly fields; the page sets them to 5 and 60000. *)
Variable failureThreshold : Z.
Variable resetTimeout : Z.

(** The check at the head of [send]; [now] is the Date.now() it reads.
    [None] is the thrown 'Circuit breaker OPEN' error. *)
Definition checkCircuit (now : Z) (b : breaker) : option breaker :=
  match circuitState b with
  | OPEN =>
      if now - lastFailureTime b <? resetTimeout then None
      else Some {| failureCount := failureCount b;
                   circuitState := HALF_OPEN;
                   lastFailureTime := lastFailureTime b |}
  | _ => Some b
  end.

(** The rest of the try block, once producer.send has resolved. *)
Definition onSuccess (b : breaker) : breaker :=
  {| failureCount := 0;
     circuitState := if circuit_eqb (circuitState b) HALF_OPEN then CLOSED
                     else circuitState b;
     lastFailureTime := lastFailureTime b |}.

(** The catch block; [now] is the Date.now() it reads. *)
Definition onFailure (now : Z) (b : breaker) : breaker :=
  let count := failureCount b + 1 in
  {| failureCount := count;
     circuitState := if failureThreshold <=? count then OPEN else circuitState b;
     lastFailureTime := now |}.

(** A call of [send] that runs to its end before any other call
    starts. *)
Definition send (now : Z) (f : fate) (b : breaker) : breaker * result :=
  match checkCircuit now b with
  | None => (b, Rejected)
  | Some b1 =>
      match f with
      | Resolves => (onSuccess b1, Sent)
      | Throws at_time => (onFailure at_time b1, SendFailed)
      end
  end.

(** A sequence of calls that do not overlap, each with the time of its
    check and the fate of its try block. *)
Fixpoint sendAll (calls : list (Z * fate)) (b : breaker) : breaker * list result :=
  match calls with
  | [] => (b, [])
  | (now, f) :: rest =>
      let '(b1, r) := send now f b in
      let '(b2, rs) := sendAll rest b1 in
      (b2, r :: rs)
  end.

(** The states between calls, when no two calls overlap. *)
Inductive reachable : breaker -> Prop :=
| reachable_init : reachable init
| reachable_send now f b : reachable b -> reachable (fst (send now f b)).

(** What the log keeps of a call of [send]: the check refused it; or
    JSON.stringify threw; or producer.send was called, with the circuit
    state the check left. *)
Inductive entry : Type :=
| Refused
| NotSerialized
| Called (state : circuit).

(** The breaker with the number of calls suspended at await
    producer.send, and the log of the calls started, oldest first. *)
Record system : Type := System {
  ctl : breaker;
  awaiting : nat;
  log : list entry
}.

Definition start : system :=
  {| ctl := init; awaiting := 0; log := [] |}.

(** A call starts and runs to its await or to its end: [now] is the
    Date.now() of its check and [stringify] tells whether
    JSON.stringify throws, and then the Date.now() the catch block
    reads.  Or a suspended call resumes with the fate of its
    producer.send and runs to its end. *)
Inductive move : Type :=
| Start (now : Z) (stringify : option Z)
| Finish (f : fate).

Definition moveStep (mv : move) (s : system) : option system :=
  match mv with
  | Start now stringify =>
      match checkCircuit now (ctl s) with
      | None =>
          Some {| ctl := ctl s; awaiting := awaiting s;
                  log := log s ++ [Refused] |}
      | Some b1 =>
          match stringify with
          | Some at_time =>
              Some {| ctl := onFailure at_time b1; awaiting := awaiting s;
                      log := log s ++ [NotSerialized] |}
          | None =>
              Some {| ctl := b1; awaiting := S (awaiting s);
                      log := log s ++ [Called (circuitState b1)] |}
          end
      end
  | Finish f =>
      match awaiting s with
      | O => None
      | S n =>
          Some {| ctl := match f with
                         | Resolves => onSuccess (ctl s)
                         | Throws at_time => onFailure at_time (ctl s)
                         end;
                  awaiting := n; log := log s |}
      end
  end.

(** The moves in the order they are made. *)
Fixpoint schedule (mvs : list move) (s : system) : option system :=
  match mvs with
  | [] => Some s
  | mv :: mvs' =>
      match moveStep mv s with
      | Some s1 => schedule mvs' s1
      | None => None
      end
  end.

(** The states of the breaker under every interleaving of calls. *)
Inductive interleaved : system -> Prop :=
| interleaved_start : interleaved start
| interleaved_move mv s s' :
    interleaved s -> moveStep mv s = Some s' -> interleaved s'.

End Config.

(** Calls whose producer.send throws, each with the time of its check and
    the time its catch block reads. *)
Definition failures (ts : list (Z * Z)) : list (Z * fate) :=
  map (fun t => (fst t, Throws (snd t))) ts.



End CircuitBreaker.

Section CircuitBreakerProofs.
Import CircuitBreaker.
Variable failureThreshold : Z.
Variable resetTimeout : Z.

Local Abbreviation sendc := (send failureThreshold resetTimeout).
Local Abbreviation sendAllc := (sendAll failureThreshold resetTimeout).
Local Abbreviation reachablec := (reachable failureThreshold resetTimeout).

(** Between calls the circuit is never half open, and an open circuit has
    counted at least failureThreshold failures. *)
Lemma reachable_inv (b : breaker) :
  reachablec b ->
  circuitState b <> HALF_OPEN /\
  (circuitState b = OPEN -> failureThreshold <= failureCount b).
Proof.
  induction 1 as [| now f b Hr [Hh Ho]].
  - cbn; split; [discriminate | discriminate].
  - unfold send, checkCircuit.
    destruct (circuitState b) eqn:Hs; try congruence.
    + destruct f as [| t]; cbn [fst onSuccess onFailure circuitState failureCount];
        rewrite ?Hs; cbn [circuit_eqb].
      * split; discriminate.
      * destruct (failureThreshold <=? failureCount b + 1) eqn:Hc.
        -- split; [discriminate | intros _; lia].
        -- split; discriminate.
    + specialize (Ho eq_refl).
      destruct (now - lastFailureTime b <? resetTimeout); cbn [fst].
      * rewrite Hs. split; [discriminate | auto].
      * destruct f as [| t];
          cbn [fst onSuccess onFailure circuitState failureCount circuit_eqb].
        -- split; discriminate.
        -- destruct (failureThreshold <=? failureCount b + 1) eqn:Hc; [| lia].
           split; [discriminate | intros _; lia].
Qed.






(** A call that runs to its end before any other starts is its start
    followed at once by the outcome of its producer.send; a call whose
    JSON.stringify throws leaves the breaker as a call whose
    producer.send throws does. *)
Lemma send_start_finish (now : Z) (f : fate) (s : system) :
  awaiting s = 0%nat ->
  match moveStep failureThreshold resetTimeout (Start now None) s with
  | Some s1 =>
      match snd (sendc now f (ctl s)) with
      | Rejected => s1 = {| ctl := ctl s; awaiting := 0; log := log s ++ [Refused] |}
      | _ =>
          option_map ctl (moveStep failureThreshold resetTimeout (Finish f) s1) =
            Some (fst (sendc now f (ctl s))) /\
          option_map awaiting (moveStep failureThreshold resetTimeout (Finish f) s1) =
            Some 0%nat
      end
  | None => False
  end.
Proof.
  intros Ha. cbn [moveStep]. unfold send.
  destruct (checkCircuit resetTimeout now (ctl s)) as [b1 |]; cbn [snd].
  - cbn [moveStep awaiting ctl]. destruct f; cbn [snd fst option_map]; auto.
  - now rewrite Ha.
Qed.

Lemma start_unserializable (now t : Z) (s : system) :
  option_map ctl
    (moveStep failureThreshold resetTimeout (Start now (Some t)) s) =
  Some (fst (sendc now (Throws t) (ctl s))).
Proof.
  cbn [moveStep]. unfold send.
  destruct (checkCircuit resetTimeout now (ctl s)); reflexivity.
Qed.


End CircuitBreakerProofs.



(** ** Retry policy and failure router

    [retryDelay] and the two [shouldRetry] predicates are those of
    docs/kafka/best-practices.md (108-124) and
    docs/kafka/advanced-features.md (143-160). *)

Module Retry.

(** What the predicates read of a thrown error. *)
Record error : Type := Error {
  name : string;   (* error.name *)
  code : string    (* error.code *)
}.

(** retryDelay: (attempt) => Math.min(1000 * Math.pow(2, attempt), 30000) *)
Definition retryDelay (attempt : nat) : Z :=
  Z.min (1000 * 2 ^ Z.of_nat attempt) 30000.

(** shouldRetry: (error, message, attempt) => ... of best-practices.md. *)
Definition shouldRetryByName (e : error) (m : KafkaMessage) (attempt : nat)
    : bool :=
  if String.eqb (name e) "ValidationError" then false
  else if String.eqb (name e) "BusinessLogicError" && (3 <=? attempt)%nat then false
  else String.eqb (name e) "TransientError".

(** shouldRetry: (error, message, attempt) => ... of advanced-features.md. *)
Definition shouldRetryByCode (e : error) (m : KafkaMessage) (attempt : nat)
    : bool :=
  if String.eqb (code e) "TEMPORARY_ERROR" then true
  else if String.eqb (code e) "VALIDATION_ERROR" then false
  else (attempt <? 3)%nat.

(** The dlq option of the Consumer decorator, as far as the router reads it. *)
Record dlqConfig : Type := DlqConfig {
  maxRetries : nat;
  delayOf : nat -> Z;                (* retryDelay, when it is a function *)
  shouldRetry : error -> KafkaMessage -> nat -> bool
}.

(** Modelled from the spec: the exponential backoff of section 4.5,
    base × 2^attempt capped at maxBackoff. *)
Definition backoff (base maxBackoff : Z) (attempt : nat) : Z :=
  Z.min (base * 2 ^ Z.of_nat attempt) maxBackoff.

(** What a dead-lettered message carries (spec, section 4.5). *)
Record deadLetter : Type := DeadLetter {
  originalMessage : KafkaMessage;
  failureReason : error;
  retryCount : nat;     (* retries made before giving up *)
  attemptCount : nat    (* handler invocations, the first one included *)
}.

(** The terminal outcome of one message. *)
Inductive outcome : Type :=
| Succeeded (attempts : nat)
| DeadLettered (d : deadLetter).

(** What the router did for one message: its outcome and the retries it
    scheduled, each with the attempt that failed and the delay. *)
Record routed : Type := Routed {
  result : outcome;
  scheduled : list (nat * Z)
}.

Section Router.
Variable cfg : dlqConfig.
Variable msg : KafkaMessage.
(** The user handler on [msg]: what its n-th invocation (from 0) does,
    [None] for a normal return and [Some e] for a thrown error. *)
Variable handler : nat -> option error.

(** The message leaves for the dead-letter topic after [attempt] retries. *)
Definition giveUp (e : error) (attempt : nat) : routed :=
  {| result := DeadLettered
       {| originalMessage := msg; failureReason := e;
          retryCount := attempt; attemptCount := S attempt |};
     scheduled := [] |}.

(** Modelled from the spec: the failure router of section 4.5, of which the
    pages show the configuration only.  [attempt] counts the retries made
    so far and [remaining] is maxRetries - attempt, so that
    attempt < maxRetries reads remaining = S _.  On a failure that
    shouldRetry accepts with attempt < maxRetries the retry is scheduled
    after delayOf attempt and the handler runs again; any other failure
    sends the message to the dead-letter topic. *)
Fixpoint routeFrom (remaining attempt : nat) : routed :=
  match handler attempt with
  | None => {| result := Succeeded (S attempt); scheduled := [] |}
  | Some e =>
      match remaining with
      | S remaining' =>
          if shouldRetry cfg e msg attempt then
            let r := routeFrom remaining' (S attempt) in
            {| result := result r;
               scheduled := (attempt, delayOf cfg attempt) :: scheduled r |}
          else giveUp e attempt
      | O => giveUp e attempt
      end
  end.

Definition route : routed := routeFrom (maxRetries cfg) 0.

End Router.

(** Modelled from the spec: a dead-lettered message counts as handled,
    as a processed one does (section 4.5). *)
Definition handled (o : outcome) : bool :=
  match o with
  | Succeeded _ => true
  | DeadLettered _ => true
  end.

(** Handler invocations a message took to reach its outcome. *)
Definition attemptsOf (o : outcome) : nat :=
  match o with
  | Succeeded n => n
  | DeadLettered d => attemptCount d
  end.

(** The configuration of best-practices.md: maxRetries 3. *)
Definition ordersDlq : dlqConfig :=
  {| maxRetries := 3; delayOf := retryDelay; shouldRetry := shouldRetryByName |}.

(** The configuration of advanced-features.md: maxRetries 5. *)
Definition paymentsDlq : dlqConfig :=
  {| maxRetries := 5; delayOf := retryDelay; shouldRetry := shouldRetryByCode |}.

End Retry.

Section RetryProofs.
Import Retry.

Lemma retryDelay_is_backoff (attempt : nat) :
  retryDelay attempt = backoff 1000 30000 attempt.
Proof. reflexivity. Qed.

Section Router.
Variable cfg : dlqConfig.
Variable msg : KafkaMessage.
Variable handler : nat -> option error.

Local Abbreviation routeFromc := (routeFrom cfg msg handler).

(** A failure the policy rejects: no retry from there. *)
Lemma routeFrom_never_retry (e : error) (remaining attempt : nat) :
  handler attempt = Some e ->
  shouldRetry cfg e msg attempt = false ->
  routeFromc remaining attempt = giveUp msg e attempt.
Proof.
  intros Hh Hs. destruct remaining; cbn [routeFrom]; rewrite Hh, ?Hs; reflexivity.
Qed.

(** A handler that never returns under a policy that always accepts its
    error: every remaining retry is used, then the message is
    dead-lettered. *)
Lemma routeFrom_always_retry (e : error) (remaining : nat) :
  (forall n, handler n = Some e) ->
  (forall n, shouldRetry cfg e msg n = true) ->
  forall attempt,
  routeFromc remaining attempt =
  {| result := result (giveUp msg e (attempt + remaining));
     scheduled := map (fun a => (a, delayOf cfg a)) (seq attempt remaining) |}.
Proof.
  intros Hh Hs. induction remaining as [| r IH]; intros attempt;
    cbn [routeFrom]; rewrite Hh.
  - rewrite Nat.add_0_r. reflexivity.
  - rewrite Hs, IH. cbn [result scheduled seq map giveUp].
    replace (S attempt + r)%nat with (attempt + S r)%nat by lia. reflexivity.
Qed.

(** Every scheduled retry belongs to a failed attempt below the bound that
    the policy accepted, and carries the configured delay of that attempt. *)
Lemma scheduled_sound (remaining : nat) :
  forall attempt a d,
  In (a, d) (scheduled (routeFromc remaining attempt)) ->
  (attempt <= a < attempt + remaining)%nat /\
  d = delayOf cfg a /\
  exists e, handler a = Some e /\ shouldRetry cfg e msg a = true.
Proof.
  induction remaining as [| r IH]; intros attempt a d; cbn [routeFrom].
  - destruct (handler attempt); cbn [scheduled giveUp In]; tauto.
  - destruct (handler attempt) as [e |] eqn:Hh; cbn [scheduled In]; [| tauto].
    destruct (shouldRetry cfg e msg attempt) eqn:Hs;
      cbn [scheduled giveUp In]; [| tauto].
    intros [Heq | Hin].
    + injection Heq as <- <-. repeat split; try lia. eauto.
    + destruct (IH _ _ _ Hin) as (? & ? & ?). repeat split; try lia; assumption.
Qed.

(** Every attempt below the bound that fails with an accepted error, all
    attempts before it having done the same, has its retry scheduled. *)
Lemma scheduled_complete (remaining : nat) :
  forall attempt a,
  (attempt <= a < attempt + remaining)%nat ->
  (forall i, (attempt <= i <= a)%nat ->
     exists e, handler i = Some e /\ shouldRetry cfg e msg i = true) ->
  In (a, delayOf cfg a) (scheduled (routeFromc remaining attempt)).
Proof.
  induction remaining as [| r IH]; intros attempt a Hr Hall; [lia |].
  cbn [routeFrom].
  destruct (Hall attempt ltac:(lia)) as (e & Hh & Hs). rewrite Hh, Hs.
  cbn [scheduled In].
  destruct (Nat.eq_dec attempt a) as [-> | Hne]; [now left | right].
  apply IH; [lia |]. intros i Hi. apply Hall. lia.
Qed.

(** Whatever the handler does, the router reaches an outcome within
    maxRetries + 1 invocations. *)
Lemma routeFrom_bounded (remaining : nat) :
  forall attempt,
  (attemptsOf (result (routeFromc remaining attempt))
   <= S (attempt + remaining))%nat.
Proof.
  induction remaining as [| r IH]; intros attempt; cbn [routeFrom].
  - destruct (handler attempt); cbn; lia.
  - destruct (handler attempt) as [e |]; [| cbn; lia].
    destruct (shouldRetry cfg e msg attempt); [| cbn; lia].
    cbn [result]. specialize (IH (S attempt)). lia.
Qed.

End Router.

(** C5. For a handler that raises the same error e at every invocation on
    a message: if the policy never retries e (as both policies of the
    pages do for validation errors) the message is dead-lettered after
    exactly one invocation and no retry; if the policy always retries e
    (as they do for transient errors) the message is retried maxRetries
    times and then dead-lettered, with the message, e as the failure
    reason and a retry count of maxRetries.  A dead-lettered message
    counts as handled, and whatever the handler does the router is done
    within maxRetries + 1 invocations. *)
Theorem dlq_termination (cfg : dlqConfig) (msg : KafkaMessage)
    (handler : nat -> option error) (e : error) :
  (forall n, handler n = Some e) ->
  ((forall n, shouldRetry cfg e msg n = false) ->
   route cfg msg handler =
   {| result := DeadLettered {| originalMessage := msg; failureReason := e;
                                retryCount := 0; attemptCount := 1 |};
      scheduled := [] |}) /\
  ((forall n, shouldRetry cfg e msg n = true) ->
   result (route cfg msg handler) =
     DeadLettered {| originalMessage := msg; failureReason := e;
                     retryCount := maxRetries cfg;
                     attemptCount := S (maxRetries cfg) |} /\
   length (scheduled (route cfg msg handler)) = maxRetries cfg) /\
  (name e = "ValidationError" ->
   result (route ordersDlq msg handler) =
     DeadLettered {| originalMessage := msg; failureReason := e;
                     retryCount := 0; attemptCount := 1 |}) /\
  (name e = "TransientError" ->
   result (route ordersDlq msg handler) =
     DeadLettered {| originalMessage := msg; failureReason := e;
                     retryCount := 3; attemptCount := 4 |}) /\
  (code e = "VALIDATION_ERROR" ->
   result (route paymentsDlq msg handler) =
     DeadLettered {| originalMessage := msg; failureReason := e;
                     retryCount := 0; attemptCount := 1 |}) /\
  (code e = "TEMPORARY_ERROR" ->
   result (route paymentsDlq msg handler) =
     DeadLettered {| originalMessage := msg; failureReason := e;
                     retryCount := 5; attemptCount := 6 |}) /\
  handled (result (route cfg msg handler)) = true /\
  (forall h, (attemptsOf (result (route cfg msg h)) <= S (maxRetries cfg))%nat).
Proof.
  intros Hh.
  assert (Hnever : forall c, (forall n, shouldRetry c e msg n = false) ->
            route c msg handler = giveUp msg e 0).
  { intros c Hs. unfold route. now apply routeFrom_never_retry. }
  assert (Halways : forall c, (forall n, shouldRetry c e msg n = true) ->
            route c msg handler =
            {| result := result (giveUp msg e (maxRetries c));
               scheduled := map (fun a => (a, delayOf c a))
                                (seq 0 (maxRetries c)) |}).
  { intros c Hs. unfold route.
    now rewrite (routeFrom_always_retry c msg handler e (maxRetries c) Hh Hs 0). }
  split; [apply Hnever |].
  split.
  { intros Hs. rewrite (Halways cfg Hs). cbn [result scheduled giveUp].
    split; [reflexivity | now rewrite length_map, length_seq]. }
  split.
  { intros Hn. rewrite (Hnever ordersDlq); [reflexivity |].
    intros n. cbn [ordersDlq shouldRetry]. unfold shouldRetryByName.
    now rewrite Hn. }
  split.
  { intros Hn. rewrite (Halways ordersDlq); [reflexivity |].
    intros n. cbn [ordersDlq shouldRetry]. unfold shouldRetryByName.
    now rewrite Hn. }
  split.
  { intros Hc. rewrite (Hnever paymentsDlq); [reflexivity |].
    intros n. cbn [paymentsDlq shouldRetry]. unfold shouldRetryByCode.
    now rewrite Hc. }
  split.
  { intros Hc. rewrite (Halways paymentsDlq); [reflexivity |].
    intros n. cbn [paymentsDlq shouldRetry]. unfold shouldRetryByCode.
    now rewrite Hc. }
  split.
  { now destruct (result (route cfg msg handler)). }
  intros h. unfold route.
  apply (routeFrom_bounded cfg msg h (maxRetries cfg) 0).
Qed.

(** C7. When the configured delay is the exponential backoff
    min(base × 2^attempt, maxBackoff), every retry the router schedules is
    for an attempt below maxRetries that failed with an error the policy
    accepts, and its delay is min(base × 2^attempt, maxBackoff); and every
    such attempt (the earlier ones having failed the same way) has its
    retry scheduled with that delay.  The retryDelay of the pages is this
    backoff with base 1000 and cap 30000. *)
Theorem retry_delay_backoff (cfg : dlqConfig) (msg : KafkaMessage)
    (handler : nat -> option error) (base maxBackoff : Z) :
  (forall a, delayOf cfg a = backoff base maxBackoff a) ->
  (forall a d, In (a, d) (scheduled (route cfg msg handler)) ->
     (a < maxRetries cfg)%nat /\
     d = Z.min (base * 2 ^ Z.of_nat a) maxBackoff /\
     exists e, handler a = Some e /\ shouldRetry cfg e msg a = true) /\
  (forall a, (a < maxRetries cfg)%nat ->
     (forall i, (i <= a)%nat ->
        exists e, handler i = Some e /\ shouldRetry cfg e msg i = true) ->
     In (a, Z.min (base * 2 ^ Z.of_nat a) maxBackoff)
        (scheduled (route cfg msg handler))) /\
  (forall a, retryDelay a = Z.min (1000 * 2 ^ Z.of_nat a) 30000) /\
  (forall a, retryDelay a = backoff 1000 30000 a).
Proof.
  intros Hd. split; [| split; [| split]].
  - intros a d Hin. unfold route in Hin.
    destruct (scheduled_sound cfg msg handler _ _ _ _ Hin) as (Hr & -> & He).
    rewrite Hd. repeat split; [lia | exact He].
  - intros a Ha Hall. unfold route.
    change (Z.min (base * 2 ^ Z.of_nat a) maxBackoff)
      with (backoff base maxBackoff a).
    rewrite <- Hd. apply scheduled_complete; [lia |].
    intros i Hi. apply Hall. lia.
  - reflexivity.
  - apply retryDelay_is_backoff.
Qed.

End RetryProofs.

(** An order whose handler times out at every invocation. *)
Definition poisonOrder : KafkaMessage :=
  Message 0 42 (Some "customer-A") "order" ∅.

Definition timeoutError : Retry.error := Retry.Error "TransientError" "ETIMEDOUT".

Lemma dlq_termination_witness :
  Retry.result
    (Retry.route Retry.ordersDlq poisonOrder (fun _ => Some timeoutError)) =
  Retry.DeadLettered (Retry.DeadLetter poisonOrder timeoutError 3 4).
Proof.
  destruct (dlq_termination Retry.ordersDlq poisonOrder
              (fun _ => Some timeoutError) timeoutError
              (fun _ => eq_refl)) as (_ & _ & _ & H & _).
  apply H. reflexivity.
Defined.

Lemma retry_delay_backoff_witness :
  In (2%nat, 4000)
     (Retry.scheduled
        (Retry.route Retry.ordersDlq poisonOrder (fun _ => Some timeoutError))).
Proof.
  destruct (retry_delay_backoff Retry.ordersDlq poisonOrder
              (fun _ => Some timeoutError)
              1000 30000 (fun _ => eq_refl)) as (_ & H & _).
  apply (H 2%nat).
  - cbn. lia.
  - intros i _. eexists. split; reflexivity.
Defined.

(** ** Idempotency filter *)

Module Idempotency.

(** idempotencyKey: (message) => message.headers['transaction-id']
    (docs/kafka/consumer.md, 195); [None] is JavaScript's undefined, the
    value of a header that is not there. *)
Definition idempotencyKey (m : KafkaMessage) : option string :=
  headers m !! "transaction-id".

(** What reaches the filter. *)
Inductive event : Type :=
| Offer (now : Z) (m : KafkaMessage)   (* a message, delivered at [now] *)
| Sweep (now : Z).                     (* the background sweep, run at [now] *)

Definition timeOf (ev : event) : Z :=
  match ev with
  | Offer now _ => now
  | Sweep now => now
  end.

Section Filter.
Variable ttl : Z.                                  (* idempotencyTtl *)
Variable extract : KafkaMessage -> option string.  (* idempotencyKey *)

(** Modelled from the spec: the filter of section 4.1, which the pages
    configure but do not show.  The map holds expiresAt per key; an entry
    is unexpired while now < expiresAt.  A present, unexpired key gives
    false; otherwise {key, now + ttl} is inserted and the answer is
    true. *)
Definition shouldProcess (now : Z) (m : KafkaMessage)
    (store : gmap (option string) Z) : bool * gmap (option string) Z :=
  match store !! extract m with
  | Some expiresAt =>
      if now <? expiresAt then (false, store)
      else (true, <[extract m := now + ttl]> store)
  | None => (true, <[extract m := now + ttl]> store)
  end.

(** Modelled from the spec: the periodic sweep of section 4.1 removes the
    entries past their expiry. *)
Definition sweep (now : Z) (store : gmap (option string) Z)
    : gmap (option string) Z :=
  filter (fun kv => now < kv.2) store.

(** Modelled from the spec: the consumer hands a message to the user
    handler when the filter answers true and skips it otherwise.  The
    result holds the messages the handler was invoked on, oldest first. *)
Fixpoint consume (evs : list event) (store : gmap (option string) Z)
    : gmap (option string) Z * list KafkaMessage :=
  match evs with
  | [] => (store, [])
  | Offer now m :: evs' =>
      let '(go, store1) := shouldProcess now m store in
      let '(store2, invoked) := consume evs' store1 in
      (store2, if go then m :: invoked else invoked)
  | Sweep now :: evs' => consume evs' (sweep now store)
  end.

(** The handler invocations on messages of one key. *)
Definition invocationsOf (k : option string) (invoked : list KafkaMessage)
    : list KafkaMessage :=
  filter (fun m => extract m = k) invoked.

End Filter.

End Idempotency.

Section IdempotencyProofs.
Import Idempotency.
Variable ttl : Z.
Variable extract : KafkaMessage -> option string.

Local Abbreviation shouldProcessc := (shouldProcess ttl extract).
Local Abbreviation consumec := (consume ttl extract).

(** While the entry of a key is unexpired, no message of that key reaches
    the handler and the entry stays as it is. *)
Lemma consume_within_window (k : option string) (expiresAt : Z)
    (evs : list event) :
  forall store : gmap (option string) Z,
  store !! k = Some expiresAt ->
  Forall (fun ev => timeOf ev < expiresAt) evs ->
  invocationsOf extract k (snd (consumec evs store)) = [] /\
  fst (consumec evs store) !! k = Some expiresAt.
Proof.
  induction evs as [| ev evs IH]; intros store Hk Hall.
  - cbn. split; [reflexivity | exact Hk].
  - apply Forall_cons in Hall as [Ht Hall].
    destruct ev as [now m | now]; cbn [consume timeOf] in *.
    + unfold shouldProcess.
      destruct (decide (extract m = k)) as [-> | Hne].
      * rewrite Hk. destruct (now <? expiresAt) eqn:Hlt; [| lia].
        specialize (IH store Hk Hall).
        destruct (consumec evs store) as [s2 inv]; cbn [fst snd] in *. exact IH.
      * assert (Hk1 : forall v, (<[extract m := v]> store) !! k = Some expiresAt)
          by (intros v; now rewrite lookup_insert_ne).
        assert (Hskip : forall inv, invocationsOf extract k (m :: inv)
                                    = invocationsOf extract k inv).
        { intros inv. unfold invocationsOf. now rewrite filter_cons_False. }
        destruct (store !! extract m) as [e |]; [destruct (now <? e) |].
        -- specialize (IH store Hk Hall).
           destruct (consumec evs store) as [s2 inv]; cbn [fst snd] in *. exact IH.
        -- specialize (IH _ (Hk1 (now + ttl)) Hall).
           destruct (consumec evs _) as [s2 inv]; cbn [fst snd] in *.
           now rewrite Hskip.
        -- specialize (IH _ (Hk1 (now + ttl)) Hall).
           destruct (consumec evs _) as [s2 inv]; cbn [fst snd] in *.
           now rewrite Hskip.
    + apply IH; [| exact Hall].
      unfold sweep. apply map_lookup_filter_Some. split; [exact Hk | exact Ht].
Qed.

(** C2. A message whose key is absent from the map, or present and
    expired, is offered at time t1: shouldProcess answers true and inserts
    {key, t1 + ttl}.  However many messages follow before t1 + ttl, of
    this key or of others, with sweeps in between, shouldProcess answers
    false on each one of this key, and the handler is invoked on exactly
    one message of the key: the first. *)
Theorem idempotent_within_ttl (store : gmap (option string) Z) (t1 : Z)
    (m : KafkaMessage) (evs : list event) :
  (store !! extract m = None \/
   exists expiresAt, store !! extract m = Some expiresAt /\ expiresAt <= t1) ->
  Forall (fun ev => timeOf ev < t1 + ttl) evs ->
  shouldProcessc t1 m store = (true, <[extract m := t1 + ttl]> store) /\
  (forall now m' evs1 evs2,
     evs = evs1 ++ Offer now m' :: evs2 -> extract m' = extract m ->
     fst (shouldProcessc now m'
            (fst (consumec (Offer t1 m :: evs1) store))) = false) /\
  invocationsOf extract (extract m)
    (snd (consumec (Offer t1 m :: evs) store)) = [m].
Proof.
  intros Hfresh Hall.
  assert (Hfirst : shouldProcessc t1 m store
                   = (true, <[extract m := t1 + ttl]> store)).
  { unfold shouldProcess. destruct Hfresh as [-> | (e & -> & He)]; [reflexivity |].
    destruct (t1 <? e) eqn:Hlt; [lia | reflexivity]. }
  split; [exact Hfirst | split].
  - intros now m' evs1 evs2 -> Hkey.
    apply Forall_app in Hall as [Hall1 Hall2].
    apply Forall_cons in Hall2 as [Hnow _]. cbn [timeOf] in Hnow.
    cbn [consume]. rewrite Hfirst.
    destruct (consume_within_window (extract m) (t1 + ttl) evs1
                (<[extract m := t1 + ttl]> store)) as [_ Hk];
      [apply lookup_insert_eq | exact Hall1 |].
    destruct (consumec evs1 _) as [s2 inv]; cbn [fst snd] in *.
    unfold shouldProcess. rewrite Hkey, Hk.
    destruct (now <? t1 + ttl) eqn:Hlt; [reflexivity | lia].
  - cbn [consume]. rewrite Hfirst.
    destruct (consume_within_window (extract m) (t1 + ttl) evs
                (<[extract m := t1 + ttl]> store)) as [Hinv _];
      [apply lookup_insert_eq | exact Hall |].
    destruct (consumec evs _) as [s2 inv]; cbn [fst snd] in *.
    unfold invocationsOf in *. rewrite filter_cons_True by reflexivity.
    now rewrite Hinv.
Qed.

End IdempotencyProofs.

(** A payment delivered three times within the hour. *)
Definition paymentMessage : KafkaMessage :=
  Message 0 7 (Some "customer-A") "payment" {["transaction-id" := "tx-1"]}.

Lemma idempotent_within_ttl_witness :
  Idempotency.invocationsOf Idempotency.idempotencyKey
    (Idempotency.idempotencyKey paymentMessage)
    (snd (Idempotency.consume 3600000 Idempotency.idempotencyKey
            [Idempotency.Offer 0 paymentMessage;
             Idempotency.Offer 10 paymentMessage;
             Idempotency.Sweep 20;
             Idempotency.Offer 30 paymentMessage]
            ∅)) =
  [paymentMessage].
Proof.
  destruct (idempotent_within_ttl 3600000 Idempotency.idempotencyKey ∅ 0
              paymentMessage
              [Idempotency.Offer 10 paymentMessage;
               Idempotency.Sweep 20;
               Idempotency.Offer 30 paymentMessage]) as (_ & _ & H).
  - left. reflexivity.
  - repeat constructor; cbn; lia.
  - exact H.
Defined.

(** ** The JSON texts of the scenarios *)

Module Json.

Definition digitOf (c : Ascii.ascii) : option N :=
  let n := Ascii.N_of_ascii c in
  if (48 <=? n)%N && (n <=? 57)%N then Some (n - 48)%N else None.

Fixpoint digitsFrom (acc : N) (s : string) : option N :=
  match s with
  | EmptyString => Some acc
  | String c rest =>
      match digitOf c with
      | Some d => digitsFrom (10 * acc + d)%N rest
      | None => None
      end
  end.

(** The number a decimal numeral denotes: the text 0, or digits that do
    not start with 0.  Any other text is no such numeral. *)
Definition naturalOf (s : string) : option N :=
  match s with
  | EmptyString => None
  | String c rest =>
      if (Ascii.N_of_ascii c =? 48)%N
      then match rest with EmptyString => Some 0%N | String _ _ => None end
      else digitsFrom 0 s
  end.

(** JSON.parse on the values of the scenario messages, which are
    numerals of this kind (JSON.parse returns the number) and the texts
    of the pages' example, such as order-1 (JSON.parse throws
    SyntaxError, [None] here).  It stands for JSON.parse on texts of
    these two kinds only. *)
Definition parseNumeral (s : string) : option Z :=
  option_map Z.of_N (naturalOf s).

End Json.

(** ** Key grouping (docs/kafka/consumer.md, 118-125) *)

Module Grouping.

(** msg.key?.toString(), used as a property name: a message without key
    lands under the name "undefined". *)
Definition keyOf (m : KafkaMessage) : string :=
  match key m with
  | Some k => k
  | None => "undefined"
  end.

Section GroupBy.
Context {A : Type}.
(** What is pushed for a message: the order that JSON.parse returns for
    its value in groupByCustomer, the message itself where messages are
    grouped. *)
Variable item : KafkaMessage -> A.

(** The body of the reducer, for a message whose value parses and whose
    key is no name that the record inherits from Object.prototype
    ([Parsing] below has the other messages):
      if (!acc[customerId]) acc[customerId] = [];
      acc[customerId].push(item); return acc; *)
Definition pushByKey (acc : gmap string (list A)) (m : KafkaMessage)
    : gmap string (list A) :=
  <[keyOf m := default [] (acc !! keyOf m) ++ [item m]]> acc.

(** messages.reduce(..., {}), when no message makes the reducer throw. *)
Definition groupBy (messages : list KafkaMessage) : gmap string (list A) :=
  fold_left pushByKey messages ∅.

End GroupBy.

(** The grouping of the messages themselves. *)
Definition groupByKey (messages : list KafkaMessage)
    : gmap string (list KafkaMessage) :=
  groupBy (fun m => m) messages.

(** The messages of one key, in arrival order. *)
Definition ofKey (k : string) (messages : list KafkaMessage)
    : list KafkaMessage :=
  filter (fun m => keyOf m = k) messages.

End Grouping.

Section GroupingProofs.
Import Grouping.
Context {A : Type}.
Variable item : KafkaMessage -> A.

Lemma fold_pushByKey_lookup (messages : list KafkaMessage) :
  forall (acc : gmap string (list A)) (k : string),
  default [] (fold_left (pushByKey item) messages acc !! k) =
  default [] (acc !! k) ++ map item (ofKey k messages).
Proof.
  induction messages as [| m ms IH]; intros acc k; cbn [fold_left].
  - unfold ofKey. cbn. now rewrite app_nil_r.
  - rewrite IH. unfold pushByKey, ofKey.
    destruct (decide (keyOf m = k)) as [<- | Hne].
    + rewrite lookup_insert_eq, filter_cons_True by reflexivity.
      simpl. now rewrite <- app_assoc.
    + rewrite lookup_insert_ne, filter_cons_False by assumption. reflexivity.
Qed.

Lemma fold_pushByKey_None (messages : list KafkaMessage) :
  forall (acc : gmap string (list A)) (k : string),
  fold_left (pushByKey item) messages acc !! k = None <->
  acc !! k = None /\ ofKey k messages = [].
Proof.
  induction messages as [| m ms IH]; intros acc k; cbn [fold_left].
  - unfold ofKey. cbn. tauto.
  - rewrite IH. unfold pushByKey, ofKey.
    destruct (decide (keyOf m = k)) as [<- | Hne].
    + rewrite lookup_insert_eq, filter_cons_True by reflexivity.
      split; intros [? ?]; discriminate.
    + rewrite lookup_insert_ne, filter_cons_False by assumption. reflexivity.
Qed.

(** Each property of the grouped record holds the items of the messages
    of that key, in arrival order; keys without message have no
    property. *)
Lemma groupBy_lookup (messages : list KafkaMessage) (k : string) :
  groupBy item messages !! k =
  match ofKey k messages with
  | [] => None
  | _ :: _ => Some (map item (ofKey k messages))
  end.
Proof.
  unfold groupBy.
  pose proof (fold_pushByKey_lookup messages ∅ k) as Hd.
  pose proof (fold_pushByKey_None messages ∅ k) as Hn.
  rewrite lookup_empty in Hd, Hn. simpl in Hd.
  destruct (ofKey k messages) as [| x l] eqn:Hf.
  - apply Hn. now split.
  - destruct (fold_left (pushByKey item) messages ∅ !! k) as [v |] eqn:Hl.
    + simpl in Hd. now rewrite Hd.
    + destruct (proj1 Hn eq_refl) as [_ Habs]. discriminate.
Qed.

End GroupingProofs.

(** ** groupByCustomer with what it throws
       (docs/kafka/consumer.md, 118-125) *)

Module Parsing.
Import Grouping.

(** The property names that every object inherits from
    Object.prototype.  Under such a name acc[customerId] is a function,
    or Object.prototype itself for __proto__: it is truthy, so no array
    is stored, and it has no push. *)
Definition inheritedNames : list string :=
  ["constructor"; "__defineGetter__"; "__defineSetter__"; "hasOwnProperty";
   "__lookupGetter__"; "__lookupSetter__"; "isPrototypeOf";
   "propertyIsEnumerable"; "toString"; "valueOf"; "__proto__";
   "toLocaleString"].

(** What the reducer throws. *)
Inductive thrown : Type :=
| SyntaxError   (* JSON.parse, on a value that is no JSON text *)
| TypeError.    (* acc[customerId].push is not a function *)

Section GroupByCustomer.
Context {A : Type}.
(** JSON.parse(msg.value.toString()): [None] when it throws. *)
Variable parse : string -> option A.

(** The body of the reducer, the accumulator being [inl] once an
    exception has left the reduce.  The argument of push is evaluated
    before push is called: a value that does not parse throws
    SyntaxError whatever the key. *)
Definition pushParsed (acc : thrown + gmap string (list A)) (m : KafkaMessage)
    : thrown + gmap string (list A) :=
  match acc with
  | inl e => inl e
  | inr acc =>
      match parse (value m) with
      | None => inl SyntaxError
      | Some v =>
          if bool_decide (keyOf m ∈ inheritedNames) then inl TypeError
          else inr (<[keyOf m := default [] (acc !! keyOf m) ++ [v]]> acc)
      end
  end.

Definition groupByCustomer (messages : list KafkaMessage)
    : thrown + gmap string (list A) :=
  fold_left pushParsed messages (inr ∅).

(** A message the reducer takes without throwing. *)
Definition accepted (m : KafkaMessage) : Prop :=
  is_Some (parse (value m)) /\ keyOf m ∉ inheritedNames.

End GroupByCustomer.

End Parsing.

Section ParsingProofs.
Import Grouping Parsing.
Context {A : Type}.
Variable parse : string -> option A.

Lemma fold_pushParsed_inl (messages : list KafkaMessage) (e : thrown) :
  fold_left (pushParsed parse) messages (inl e) = inl e.
Proof. induction messages as [| m ms IH]; cbn; auto. Qed.

Lemma pushParsed_inr (acc : gmap string (list A)) (m : KafkaMessage) :
  (forall rec, pushParsed parse (inr acc) m = inr rec ->
     accepted parse m /\
     exists v, parse (value m) = Some v /\
       rec = <[keyOf m := default [] (acc !! keyOf m) ++ [v]]> acc) /\
  (forall e, pushParsed parse (inr acc) m = inl e ->
     match e with
     | SyntaxError => parse (value m) = None
     | TypeError => is_Some (parse (value m)) /\ keyOf m ∈ inheritedNames
     end) /\
  (accepted parse m -> exists rec, pushParsed parse (inr acc) m = inr rec).
Proof.
  unfold accepted. cbn [pushParsed].
  destruct (parse (value m)) as [v |] eqn:Hp.
  - case_bool_decide as Hk.
    + split; [intros rec; discriminate |].
      split; [intros e [= <-]; eauto | intros [_ ?]; contradiction].
    + split; [intros rec [= <-]; eauto 10 |].
      split; [intros e; discriminate | eauto].
  - split; [intros rec; discriminate |].
    split; [intros e [= <-]; reflexivity |].
    intros [[? ?] _]; discriminate.
Qed.

(** The reduce returns exactly when the reducer takes every message. *)
Lemma fold_pushParsed_returns (messages : list KafkaMessage) :
  forall acc,
  (exists rec, fold_left (pushParsed parse) messages (inr acc) = inr rec) <->
  (forall m, m ∈ messages -> accepted parse m).
Proof.
  induction messages as [| m ms IH]; intros acc; cbn [fold_left].
  - split; [intros _ m Hm; inversion Hm | eauto].
  - destruct (pushParsed_inr acc m) as (H1 & H2 & H3).
    destruct (pushParsed parse (inr acc) m) as [e | rec] eqn:Hpush.
    + rewrite fold_pushParsed_inl. split; [intros [? ?]; discriminate |].
      intros Hall. destruct (H3 (Hall m ltac:(constructor))); discriminate.
    + rewrite IH. destruct (H1 rec eq_refl) as [Hacc _]. split.
      * intros Hall x Hx. apply elem_of_cons in Hx as [-> | Hx]; auto.
      * intros Hall x Hx. apply Hall. now constructor.
Qed.

(** What it throws is what the first message it does not take makes the
    reducer throw. *)
Lemma fold_pushParsed_throws (messages : list KafkaMessage) :
  forall acc e,
  fold_left (pushParsed parse) messages (inr acc) = inl e ->
  exists l1 m l2,
    messages = l1 ++ m :: l2 /\
    (forall x, x ∈ l1 -> accepted parse x) /\
    match e with
    | SyntaxError => parse (value m) = None
    | TypeError => is_Some (parse (value m)) /\ keyOf m ∈ inheritedNames
    end.
Proof.
  induction messages as [| m ms IH]; intros acc e; cbn [fold_left];
    [discriminate |].
  destruct (pushParsed_inr acc m) as (H1 & H2 & _).
  destruct (pushParsed parse (inr acc) m) as [e1 | rec] eqn:Hpush.
  - rewrite fold_pushParsed_inl. intros [= <-].
    exists [], m, ms. split; [reflexivity |].
    split; [intros x Hx; inversion Hx | now apply H2].
  - intros Hf. destruct (IH rec e Hf) as (l1 & x & l2 & -> & Hl1 & He).
    exists (m :: l1), x, l2. split; [reflexivity |]. split; [| exact He].
    intros y Hy. apply elem_of_cons in Hy as [-> | Hy]; [| auto].
    now destruct (H1 rec eq_refl).
Qed.

Lemma fold_pushParsed_item (item : KafkaMessage -> A)
    (messages : list KafkaMessage) :
  (forall m, m ∈ messages ->
     parse (value m) = Some (item m) /\ keyOf m ∉ inheritedNames) ->
  forall acc,
  fold_left (pushParsed parse) messages (inr acc) =
  inr (fold_left (pushByKey item) messages acc).
Proof.
  induction messages as [| m ms IH]; intros Hall acc; cbn [fold_left pushParsed].
  - reflexivity.
  - destruct (Hall m ltac:(constructor)) as [Hp Hk]. rewrite Hp.
    rewrite bool_decide_eq_false_2 by exact Hk.
    apply IH. intros x Hx. apply Hall. now constructor.
Qed.

(** When the reduce returns on a batch that is not empty, what it
    returns is the grouping of the parsed values. *)
Lemma groupByCustomer_groupBy (m0 : KafkaMessage) (ms : list KafkaMessage)
    (rec : gmap string (list A)) :
  groupByCustomer parse (m0 :: ms) = inr rec ->
  exists item : KafkaMessage -> A,
    (forall m, m ∈ m0 :: ms -> parse (value m) = Some (item m)) /\
    rec = groupBy item (m0 :: ms).
Proof.
  intros Hrec.
  assert (Hall : forall m, m ∈ m0 :: ms -> accepted parse m).
  { apply (fold_pushParsed_returns (m0 :: ms) ∅). eauto. }
  destruct (Hall m0 ltac:(constructor)) as [[d Hd] _].
  set (item := fun m => default d (parse (value m))).
  assert (Hitem : forall m, m ∈ m0 :: ms ->
            parse (value m) = Some (item m) /\ keyOf m ∉ inheritedNames).
  { intros m Hm. destruct (Hall m Hm) as [[v Hv] Hk].
    split; [| exact Hk]. subst item; cbn beta. now rewrite Hv. }
  exists item. split; [intros m Hm; now apply Hitem |].
  unfold groupByCustomer in Hrec.
  rewrite (fold_pushParsed_item item _ Hitem) in Hrec.
  now injection Hrec as <-.
Qed.

(** Each property of the record that groupByCustomer returns holds the
    parsed values of the messages of that key, in arrival order; keys
    without message have no property. *)
Lemma groupByCustomer_lookup (messages : list KafkaMessage)
    (rec : gmap string (list A)) (k : string) :
  groupByCustomer parse messages = inr rec ->
  match rec !! k with
  | Some l =>
      l <> [] /\
      map Some l = map (fun m => parse (value m)) (ofKey k messages)
  | None => ofKey k messages = []
  end.
Proof.
  intros Hrec. destruct messages as [| m0 ms].
  - cbn in Hrec. injection Hrec as <-. now rewrite lookup_empty.
  - destruct (groupByCustomer_groupBy m0 ms rec Hrec) as (item & Hitem & ->).
    rewrite groupBy_lookup.
    destruct (ofKey k (m0 :: ms)) as [| x xs] eqn:Hf; [reflexivity |].
    split; [discriminate |].
    rewrite map_map. apply map_ext_in. intros m Hm.
    symmetry. apply Hitem.
    assert (Hin : m ∈ ofKey k (m0 :: ms))
      by (rewrite Hf; now apply list_elem_of_In).
    unfold ofKey in Hin. rewrite list_elem_of_filter in Hin. tauto.
Qed.

End ParsingProofs.
(** ** Key-grouped batch aggregator *)

Module Aggregator.

(** A batch: its messages in arrival order and the time it opened.  The
    KeyGroups and the message count of the data model are read off the
    messages. *)
Record Batch : Type := MkBatch {
  arrivals : list KafkaMessage;
  openedAt : Z
}.

Definition messageCount (b : Batch) : nat := length (arrivals b).

Definition groups (b : Batch) : gmap string (list KafkaMessage) :=
  Grouping.groupByKey (arrivals b).

(** The aggregator: the one open batch and the closed batches it has
    pushed downstream, oldest first. *)
Record aggregator : Type := MkAggregator {
  openBatch : Batch;
  downstream : list Batch
}.

(** What reaches the aggregator, with the time it does: a message, or
    nothing but the passing of time. *)
Inductive event : Type :=
| Offer (now : Z) (m : KafkaMessage)   (* offer(msg), called at [now] *)
| Tick (now : Z).                      (* the clock reaches [now] *)

Definition timeOf (ev : event) : Z :=
  match ev with
  | Offer now _ => now
  | Tick now => now
  end.


Definition init (now : Z) : aggregator :=
  {| openBatch := {| arrivals := []; openedAt := now |}; downstream := [] |}.

Section Config.
Variable batchSize : nat.
Variable batchTimeout : Z.

(** Modelled from the spec: closing pushes the open batch downstream and
    opens a new empty batch at once (section 4.2). *)
Definition close (now : Z) (a : aggregator) : aggregator :=
  {| openBatch := {| arrivals := []; openedAt := now |};
     downstream := downstream a ++ [openBatch a] |}.

(** Modelled from the spec: the timer of the open batch, which fires
    batchTimeout after the batch opened (section 4.2, trigger b), has
    fired by [now] on a batch that holds a message (section 8 has the
    count > 0). *)
Definition due (now : Z) (a : aggregator) : bool :=
  (0 <? messageCount (openBatch a))%nat
  && (openedAt (openBatch a) + batchTimeout <=? now).

(** Modelled from the spec: when its timer fires on a batch that holds a
    message the batch closes, at the time the timer fires, openedAt +
    batchTimeout (section 4.2, trigger b).  An empty batch stays open. *)
Definition expire (now : Z) (a : aggregator) : aggregator :=
  if due now a then close (openedAt (openBatch a) + batchTimeout) a else a.

(** Modelled from the spec: offer appends the message to the open batch,
    which closes when the count equals batchSize (section 4.2, trigger
    a) or when now - openedAt >= batchTimeout (section 3), which a
    message that arrives in an empty batch opened batchTimeout or more
    ago meets at once.  The timer is served first: a batch that was due
    before the message arrived has closed without it. *)
Definition offer (now : Z) (m : KafkaMessage) (a : aggregator) : aggregator :=
  let a0 := expire now a in
  let a1 := {| openBatch := {| arrivals := arrivals (openBatch a0) ++ [m];
                               openedAt := openedAt (openBatch a0) |};
               downstream := downstream a0 |} in
  if (messageCount (openBatch a1) =? batchSize)%nat
     || (batchTimeout <=? now - openedAt (openBatch a1))
  then close now a1 else a1.

Definition step (ev : event) (a : aggregator) : aggregator :=
  match ev with
  | Offer now m => offer now m a
  | Tick now => expire now a
  end.

(** The events in the order they happen. *)
Definition run (evs : list event) (a : aggregator) : aggregator :=
  fold_left (fun acc ev => step ev acc) evs a.



End Config.


End Aggregator.

Section AggregatorProofs.
Import Aggregator.
Variable batchSize : nat.
Variable batchTimeout : Z.

Local Abbreviation stepc := (step batchSize batchTimeout).
Local Abbreviation runc := (run batchSize batchTimeout).
Local Abbreviation expirec := (expire batchTimeout).
Local Abbreviation duec := (due batchTimeout).









End AggregatorProofs.

(** The scenario of the specification: batchSize 3, batchTimeout 1000, two
    messages of key A and one of key B within 50 ms.  Their values are
    JSON texts, the numerals 101, 102 and 103. *)
Definition orderA1 : KafkaMessage := Message 0 100 (Some "A") "101" ∅.
Definition orderA2 : KafkaMessage := Message 0 101 (Some "A") "102" ∅.
Definition orderB1 : KafkaMessage := Message 0 102 (Some "B") "103" ∅.


(** The same batch size and timeout, with the second message 5 seconds
    after the first: the first has left at 1000, alone. *)
Lemma batch_closes_at_timeout :
  Aggregator.downstream
    (Aggregator.run 3 1000 [Aggregator.Offer 0 orderA1; Aggregator.Tick 5000]
       (Aggregator.init 0)) = [Aggregator.MkBatch [orderA1] 0] /\
  Aggregator.openBatch
    (Aggregator.run 3 1000 [Aggregator.Offer 0 orderA1; Aggregator.Tick 5000]
       (Aggregator.init 0)) = Aggregator.MkBatch [] 1000.
Proof. split; reflexivity. Qed.

(** ** Concurrency limiter and dispatcher *)

Module Dispatcher.

(** How a KeyGroup ends. *)
Inductive groupOutcome : Type :=
| GroupSucceeded                          (* every message succeeded *)
| GroupHandedOff (failed : KafkaMessage). (* routed to the failure router at [failed] *)

(** A KeyGroup under dispatch: the messages done, the one the handler is
    running on, those still to come, and the outcome once there is one. *)
Record KeyGroup : Type := MkGroup {
  completed : list KafkaMessage;
  inflight : option KafkaMessage;
  pending : list KafkaMessage;
  outcome : option groupOutcome
}.

(** What an observer sees of the dispatch of one batch. *)
Inductive event : Type :=
| Begin (m : KafkaMessage)       (* the handler starts on m *)
| Done (m : KafkaMessage)        (* the handler returned: m succeeded *)
| HandedOff (m : KafkaMessage)   (* the handler threw: m goes to the failure router *)
| Succeeded (k : string)         (* the KeyGroup of k is complete *)
| Commit.                        (* offset commit for the span of the batch *)

(** The moves of the dispatcher and of the handlers it runs. *)
Inductive action : Type :=
| Spawn (k : string)     (* a worker takes the KeyGroup of k *)
| Start (k : string)     (* its next message is handed to the handler *)
| Return (k : string)    (* the handler returns *)
| Throw (k : string)     (* the handler throws *)
| Finish (k : string)    (* the worker is done with the KeyGroup *)
| CommitOffsets.

(** The dispatcher on one closed batch; the trace has the newest event
    first. *)
Record dispatcher : Type := MkDispatcher {
  groups : gmap string KeyGroup;
  running : gset string;
  committed : bool;
  trace : list event
}.

Definition fresh (l : list KafkaMessage) : KeyGroup :=
  {| completed := []; inflight := None; pending := l; outcome := None |}.

(** The KeyGroups of a batch are those of the grouping of the pages. *)
Definition init (batch : list KafkaMessage) : dispatcher :=
  {| groups := fresh <$> Grouping.groupByKey batch;
     running := ∅; committed := false; trace := [] |}.

Definition allTerminal (d : dispatcher) : Prop :=
  map_Forall (fun _ g => is_Some (outcome g)) (groups d).

(** Modelled from the spec: the limiter of section 4.4 lets a worker take
    one more KeyGroup only while fewer than maxConcurrency are being
    processed ([Some maxConcurrency]); [None] is a dispatch without
    limiter, [n] the number of KeyGroups being processed. *)
Definition underLimit (limit : option nat) (n : nat) : bool :=
  match limit with
  | Some c => (n <? c)%nat
  | None => true
  end.

Section Config.
Variable limit : option nat.

(** Promise.all(Object.entries(grouped).map(([key, msgs]) =>
      this.processCustomerOrders(key, msgs)))
    (docs/kafka/consumer.md, 111-115): a KeyGroup that has not been taken
    and has no outcome is taken, when the limiter, if there is one,
    allows. *)
Definition takeGroup (k : string) (d : dispatcher) : option dispatcher :=
  match groups d !! k with
  | Some g =>
      if bool_decide ((k ∉ running d) /\ (outcome g = None))
         && underLimit limit (size (running d))
      then Some {| groups := groups d; running := {[k]} ∪ running d;
                   committed := committed d; trace := trace d |}
      else None
  | None => None
  end.

(** for (const order of orders) { await this.processOrder(order); }
    (docs/kafka/consumer.md, 127-132): the loop hands the next message to
    the handler when none is in flight. *)
Definition startNext (k : string) (d : dispatcher) : option dispatcher :=
  match groups d !! k with
  | Some {| completed := done; inflight := None;
            pending := m :: rest; outcome := None |} =>
      if bool_decide (k ∈ running d)
      then Some {| groups := <[k := {| completed := done; inflight := Some m;
                                       pending := rest; outcome := None |}]>
                               (groups d);
                   running := running d; committed := committed d;
                   trace := Begin m :: trace d |}
      else None
  | _ => None
  end.

(** The awaited processOrder resolves: the message is done. *)
Definition handlerReturns (k : string) (d : dispatcher) : option dispatcher :=
  match groups d !! k with
  | Some {| completed := done; inflight := Some m;
            pending := rest; outcome := None |} =>
      if bool_decide (k ∈ running d)
      then Some {| groups := <[k := {| completed := done ++ [m]; inflight := None;
                                       pending := rest; outcome := None |}]>
                               (groups d);
                   running := running d; committed := committed d;
                   trace := Done m :: trace d |}
      else None
  | _ => None
  end.

(** The awaited processOrder rejects: the loop of processCustomerOrders
    ends there, the messages that remain are not processed.  The failed
    message is what the failure router receives (spec, section 4.4). *)
Definition handlerThrows (k : string) (d : dispatcher) : option dispatcher :=
  match groups d !! k with
  | Some {| completed := done; inflight := Some m;
            pending := rest; outcome := None |} =>
      if bool_decide (k ∈ running d)
      then Some {| groups := <[k := {| completed := done; inflight := None;
                                       pending := rest;
                                       outcome := Some (GroupHandedOff m) |}]>
                               (groups d);
                   running := running d ∖ {[k]}; committed := committed d;
                   trace := HandedOff m :: trace d |}
      else None
  | _ => None
  end.

(** The loop of processCustomerOrders has run out of messages. *)
Definition finishGroup (k : string) (d : dispatcher) : option dispatcher :=
  match groups d !! k with
  | Some {| completed := done; inflight := None;
            pending := []; outcome := None |} =>
      if bool_decide (k ∈ running d)
      then Some {| groups := <[k := {| completed := done; inflight := None;
                                       pending := [];
                                       outcome := Some GroupSucceeded |}]>
                               (groups d);
                   running := running d ∖ {[k]}; committed := committed d;
                   trace := Succeeded k :: trace d |}
      else None
  | _ => None
  end.

(** Modelled from the spec: the dispatcher's part of the offset commit
    for the span of the batch, which the pages mention ("automatic commit
    after successful processing") without showing it.  Section 4.4 has
    the commit triggered once, when every KeyGroup has an outcome, success
    or hand-off to the failure router; what section 5 asks of the
    KeyGroups handed off, that the failure router has resolved their
    messages, is the condition the pipeline below adds to this one. *)
Definition commitOffsets (d : dispatcher) : option dispatcher :=
  if negb (committed d) && bool_decide (allTerminal d)
  then Some {| groups := groups d; running := running d;
               committed := true; trace := Commit :: trace d |}
  else None.

(** One move of the dispatch of a batch.  The moves are finer than the
    steps of the JavaScript runtime, whose executions are among the
    schedules they allow. *)
Definition step (a : action) (d : dispatcher) : option dispatcher :=
  match a with
  | Spawn k => takeGroup k d
  | Start k => startNext k d
  | Return k => handlerReturns k d
  | Throw k => handlerThrows k d
  | Finish k => finishGroup k d
  | CommitOffsets => commitOffsets d
  end.

(** A schedule: the moves in the order they are made. *)
Fixpoint run (acts : list action) (d : dispatcher) : option dispatcher :=
  match acts with
  | [] => Some d
  | a :: acts' =>
      match step a d with
      | Some d1 => run acts' d1
      | None => None
      end
  end.

(** The states of the dispatch of a batch. *)
Inductive reachable (batch : list KafkaMessage) : dispatcher -> Prop :=
| reachable_init : reachable batch (init batch)
| reachable_step a d d' :
    reachable batch d -> step a d = Some d' -> reachable batch d'.

End Config.

(** The property names of the grouped record in the order the reducer
    creates them: the keys of the batch, in the order of their first
    message. *)
Definition creationOrder (messages : list KafkaMessage) : list string :=
  fold_left (fun acc m =>
               if bool_decide (Grouping.keyOf m ∈ acc) then acc
               else acc ++ [Grouping.keyOf m])
            messages [].

(** A property name that is an array index: the canonical numeral of an
    integer below 2^32 - 1. *)
Definition arrayIndex (k : string) : option N :=
  match Json.naturalOf k with
  | Some n => if (n <? 4294967295)%N then Some n else None
  | None => None
  end.

Definition indexLe (k1 k2 : string) : Prop :=
  (default 0 (arrayIndex k1) <= default 0 (arrayIndex k2))%N.

#[global] Instance indexLe_dec (k1 k2 : string) : Decision (indexLe k1 k2).
Proof. unfold indexLe. apply _. Defined.

(** Object.entries(ordersByCustomer): the names that are array indices
    first, in ascending numeric order, then the other names in the order
    of their creation. *)
Definition entriesOrder (messages : list KafkaMessage) : list string :=
  let names := creationOrder messages in
  merge_sort indexLe (filter (fun k => is_Some (arrayIndex k)) names) ++
  filter (fun k => ~ is_Some (arrayIndex k)) names.

(** handleBatch (docs/kafka/consumer.md, 105-116), up to its await.
    groupByCustomer runs first, and what it throws leaves handleBatch
    before any order is processed ([inl]).  When it returns,
    Object.entries(ordersByCustomer).map(...) calls processCustomerOrders
    on every entry, in the order of the entries, and each call runs to
    its first await, that is, hands the first message of its KeyGroup to
    the handler.  No option of the consumer is read.  A KeyGroup holds
    the messages whose parsed values the entry holds.
    OrderConsumer.handleBatch (docs/kafka/best-practices.md, 1220-1241)
    is the same method over this.groupByKey, which the pages do not
    show. *)
Definition handleBatch {A : Type} (parse : string -> option A)
    (messages : list KafkaMessage) : Parsing.thrown + dispatcher :=
  match Parsing.groupByCustomer parse messages with
  | inl e => inl e
  | inr _ =>
      inr (default (init messages)
             (run None
                (flat_map (fun k => [Spawn k; Start k]) (entriesOrder messages))
                (init messages)))
  end.

(** m1 arrives before m2. *)
Definition precedes (m1 m2 : KafkaMessage) (l : list KafkaMessage) : Prop :=
  exists l1 l2 l3, l = l1 ++ m1 :: l2 ++ m2 :: l3.

(** The messages of a KeyGroup, in the order the dispatcher takes them. *)
Definition failedOf (g : KeyGroup) : list KafkaMessage :=
  match outcome g with
  | Some (GroupHandedOff m) => [m]
  | _ => []
  end.

Definition messagesOf (g : KeyGroup) : list KafkaMessage :=
  completed g ++ option_list (inflight g) ++ failedOf g ++ pending g.

End Dispatcher.

Section DispatcherProofs.
Import Dispatcher.
Variable limit : option nat.

Local Abbreviation stepc := (step limit).
Local Abbreviation reachablec := (reachable limit).

(** What a move that is taken has found and done. *)
Lemma step_inv (a : action) (d d' : dispatcher) :
  stepc a d = Some d' ->
  match a with
  | Spawn k =>
      exists g, groups d !! k = Some g /\ (k ∉ running d) /\ outcome g = None /\
        underLimit limit (size (running d)) = true /\
        d' = {| groups := groups d; running := {[k]} ∪ running d;
                committed := committed d; trace := trace d |}
  | Start k =>
      exists done m rest,
        groups d !! k = Some (MkGroup done None (m :: rest) None) /\
        k ∈ running d /\
        d' = {| groups := <[k := MkGroup done (Some m) rest None]> (groups d);
                running := running d; committed := committed d;
                trace := Begin m :: trace d |}
  | Return k =>
      exists done m rest,
        groups d !! k = Some (MkGroup done (Some m) rest None) /\
        k ∈ running d /\
        d' = {| groups := <[k := MkGroup (done ++ [m]) None rest None]> (groups d);
                running := running d; committed := committed d;
                trace := Done m :: trace d |}
  | Throw k =>
      exists done m rest,
        groups d !! k = Some (MkGroup done (Some m) rest None) /\
        k ∈ running d /\
        d' = {| groups := <[k := MkGroup done None rest (Some (GroupHandedOff m))]>
                            (groups d);
                running := running d ∖ {[k]}; committed := committed d;
                trace := HandedOff m :: trace d |}
  | Finish k =>
      exists done,
        groups d !! k = Some (MkGroup done None [] None) /\
        k ∈ running d /\
        d' = {| groups := <[k := MkGroup done None [] (Some GroupSucceeded)]>
                            (groups d);
                running := running d ∖ {[k]}; committed := committed d;
                trace := Succeeded k :: trace d |}
  | CommitOffsets =>
      committed d = false /\ allTerminal d /\
      d' = {| groups := groups d; running := running d;
              committed := true; trace := Commit :: trace d |}
  end.
Proof.
  destruct a as [k | k | k | k | k |]; cbn [step];
    unfold takeGroup, startNext, handlerReturns, handlerThrows, finishGroup,
      commitOffsets; intros H.
  - destruct (groups d !! k) as [g |]; [| discriminate].
    case_bool_decide as Hc; [| discriminate]. cbn [andb] in H.
    destruct (underLimit limit (size (running d))) eqn:Hu; [| discriminate].
    injection H as <-. destruct Hc as (? & ?). eauto 10.
  - destruct (groups d !! k) as [[done [m |] [| m' rest] [o |]] |];
      try discriminate.
    case_bool_decide; [| discriminate]. injection H as <-. eauto 10.
  - destruct (groups d !! k) as [[done [m |] rest [o |]] |];
      try discriminate.
    case_bool_decide; [| discriminate]. injection H as <-. eauto 10.
  - destruct (groups d !! k) as [[done [m |] rest [o |]] |];
      try discriminate.
    case_bool_decide; [| discriminate]. injection H as <-. eauto 10.
  - destruct (groups d !! k) as [[done [m |] [| m' rest] [o |]] |];
      try discriminate.
    case_bool_decide; [| discriminate]. injection H as <-. eauto 10.
  - destruct (committed d); cbn [negb andb] in H; [discriminate |].
    case_bool_decide; [| discriminate]. injection H as <-. auto.
Qed.

(** What holds of every KeyGroup during the dispatch of [batch]: its
    messages are those of its key in arrival order; a message in flight
    means a worker has the group; a group a worker has is not over; the
    messages done have their Done event; an outcome has its event. *)
Definition groupOk (batch : list KafkaMessage) (d : dispatcher)
    (k : string) (g : KeyGroup) : Prop :=
  messagesOf g = Grouping.ofKey k batch /\
  (is_Some (inflight g) -> k ∈ running d) /\
  (k ∈ running d -> outcome g = None) /\
  (forall m, m ∈ completed g -> Done m ∈ trace d) /\
  match outcome g with
  | Some GroupSucceeded =>
      Succeeded k ∈ trace d /\ inflight g = None /\ pending g = []
  | Some (GroupHandedOff m) => HandedOff m ∈ trace d /\ inflight g = None
  | None => True
  end.

(** A move on another KeyGroup leaves the facts of this one in place. *)
Lemma groupOk_frame (batch : list KafkaMessage) (d d' : dispatcher)
    (k : string) (g : KeyGroup) :
  groupOk batch d k g ->
  (k ∈ running d' <-> k ∈ running d) ->
  (forall e, e ∈ trace d -> e ∈ trace d') ->
  groupOk batch d' k g.
Proof.
  intros (H1 & H2 & H3 & H4 & H5) Hr Ht.
  repeat split; try tauto.
  - intros m Hm. auto.
  - destruct (outcome g) as [[| m] |]; [| | exact I].
    + destruct H5 as (? & ? & ?). auto.
    + destruct H5 as (? & ?). auto.
Qed.

Lemma init_lookup (batch : list KafkaMessage) (k : string) (g : KeyGroup) :
  groups (init batch) !! k = Some g ->
  g = fresh (Grouping.ofKey k batch) /\ Grouping.ofKey k batch <> [].
Proof.
  unfold init; cbn [groups]. rewrite lookup_fmap.
  unfold Grouping.groupByKey. rewrite groupBy_lookup.
  destruct (Grouping.ofKey k batch) as [| x l]; cbn; [discriminate |].
  intros [= <-]. now rewrite map_id.
Qed.

Lemma reachable_groups (batch : list KafkaMessage) (d : dispatcher) :
  reachablec batch d ->
  forall k g, groups d !! k = Some g -> groupOk batch d k g.
Proof.
  induction 1 as [| a d d' Hr IH Hstep]; intros k0 g0 Hl.
  - apply init_lookup in Hl as [-> _].
    unfold groupOk, messagesOf, failedOf, fresh; cbn.
    repeat split; try set_solver.
  - apply step_inv in Hstep.
    destruct a as [k | k | k | k | k |];
      [ destruct Hstep as (g & Hg & Hnr & Ho & Hsz & ->)
      | destruct Hstep as (done & m & rest & Hg & Hrun & ->)
      | destruct Hstep as (done & m & rest & Hg & Hrun & ->)
      | destruct Hstep as (done & m & rest & Hg & Hrun & ->)
      | destruct Hstep as (done & Hg & Hrun & ->)
      | destruct Hstep as (Hc & Hall & ->) ];
      cbn [groups] in Hl.
    1: { destruct (IH _ _ Hl) as (H1 & H2 & H3 & H4 & H5).
         unfold groupOk; cbn [running trace].
         repeat split; auto; [set_solver |].
         intros Hin. destruct (decide (k0 = k)) as [-> | Hne]; [congruence |].
         apply H3. set_solver. }
    5: { eapply groupOk_frame; [apply (IH _ _ Hl) | reflexivity |].
         cbn [trace]. intros e He. now right. }
    all: destruct (decide (k = k0)) as [<- | Hne];
      [ rewrite lookup_insert_eq in Hl; injection Hl as <-;
        destruct (IH _ _ Hg) as (H1 & H2 & H3 & H4 & H5);
        unfold groupOk, messagesOf, failedOf in *; cbn in *;
        repeat split;
        try solve [ auto | intros [? ?]; discriminate
                  | rewrite <- ?app_assoc; auto | set_solver ]
      | rewrite lookup_insert_ne in Hl by assumption;
        eapply groupOk_frame;
        [ apply (IH _ _ Hl) | cbn [running]; set_solver
        | cbn [trace]; intros e He; now right ] ].
Qed.

(** The KeyGroups of the batch stay the same throughout. *)
Lemma reachable_dom (batch : list KafkaMessage) (d : dispatcher) :
  reachablec batch d ->
  forall k, is_Some (groups d !! k) <-> Grouping.ofKey k batch <> [].
Proof.
  induction 1 as [| a d d' Hr IH Hstep]; intros k0.
  - unfold init; cbn [groups]. rewrite lookup_fmap.
    unfold Grouping.groupByKey. rewrite groupBy_lookup.
    destruct (Grouping.ofKey k0 batch); cbn; split; try congruence.
    + intros [? ?]; discriminate.
    + intros _. eauto.
  - rewrite <- IH. apply step_inv in Hstep.
    destruct a as [k | k | k | k | k |];
      [ destruct Hstep as (g & Hg & Hnr & Ho & Hsz & ->)
      | destruct Hstep as (done & m & rest & Hg & Hrun & ->)
      | destruct Hstep as (done & m & rest & Hg & Hrun & ->)
      | destruct Hstep as (done & m & rest & Hg & Hrun & ->)
      | destruct Hstep as (done & Hg & Hrun & ->)
      | destruct Hstep as (Hc & Hall & ->) ];
      cbn [groups]; try reflexivity.
    all: rewrite lookup_insert_is_Some;
      split; [intros [<- | [_ ?]]; eauto | intros ?; destruct (decide (k = k0)); auto].
Qed.

(** Under a limiter, at most as many KeyGroups as it allows are being
    processed. *)
Lemma reachable_bounded (batch : list KafkaMessage) (d : dispatcher) (c : nat) :
  limit = Some c ->
  reachablec batch d -> (size (running d) <= c)%nat.
Proof.
  intros Hlim. induction 1 as [| a d d' Hr IH Hstep].
  - cbn. rewrite size_empty. lia.
  - apply step_inv in Hstep.
    destruct a as [k | k | k | k | k |];
      [ destruct Hstep as (g & Hg & Hnr & Ho & Hsz & ->)
      | destruct Hstep as (done & m & rest & Hg & Hrun & ->)
      | destruct Hstep as (done & m & rest & Hg & Hrun & ->)
      | destruct Hstep as (done & m & rest & Hg & Hrun & ->)
      | destruct Hstep as (done & Hg & Hrun & ->)
      | destruct Hstep as (Hc & Hall & ->) ];
      cbn [running]; try exact IH.
    + rewrite size_union by set_solver. rewrite size_singleton.
      rewrite Hlim in Hsz. cbn [underLimit] in Hsz.
      apply Nat.ltb_lt in Hsz. lia.
    + etransitivity; [apply subseteq_size | exact IH]. set_solver.
    + etransitivity; [apply subseteq_size | exact IH]. set_solver.
Qed.

(** In a list without repetition, what precedes an element is what stands
    before its one occurrence. *)
Lemma precedes_prefix (l : list KafkaMessage) (done rest : list KafkaMessage)
    (m1 m : KafkaMessage) :
  NoDup l -> l = done ++ m :: rest -> precedes m1 m l -> m1 ∈ done.
Proof.
  intros Hnd -> (l1 & l2 & l3 & Heq).
  change (l1 ++ m1 :: l2 ++ m :: l3) with (l1 ++ (m1 :: l2) ++ m :: l3) in Heq.
  rewrite app_assoc in Heq.
  assert (Hlen : done = l1 ++ m1 :: l2).
  { revert Hnd Heq. generalize (l1 ++ m1 :: l2) as pre. clear.
    induction done as [| x done IH]; intros [| y pre] Hnd Heq; cbn [app] in *.
    - reflexivity.
    - injection Heq as <- ->. apply NoDup_cons in Hnd as [Hx _]. set_solver.
    - injection Heq as -> <-. apply NoDup_cons in Hnd as [Hx _]. set_solver.
    - injection Heq as <- Heq. apply NoDup_cons in Hnd as [_ Hnd].
      f_equal. now apply IH. }
  subst done. set_solver.
Qed.

Lemma ofKey_NoDup (batch : list KafkaMessage) (k : string) :
  NoDup batch -> NoDup (Grouping.ofKey k batch).
Proof. intros H. unfold Grouping.ofKey. now apply NoDup_filter. Qed.

Lemma ofKey_elem (batch : list KafkaMessage) (k : string) (m : KafkaMessage) :
  m ∈ Grouping.ofKey k batch <-> Grouping.keyOf m = k /\ m ∈ batch.
Proof. unfold Grouping.ofKey. now rewrite list_elem_of_filter. Qed.

(** Two messages of one key keep their order in the KeyGroup. *)
Lemma precedes_ofKey (batch : list KafkaMessage) (m1 m2 : KafkaMessage) :
  precedes m1 m2 batch ->
  Grouping.keyOf m1 = Grouping.keyOf m2 ->
  precedes m1 m2 (Grouping.ofKey (Grouping.keyOf m2) batch).
Proof.
  intros (l1 & l2 & l3 & ->) Hk. unfold Grouping.ofKey.
  exists (filter (fun m => Grouping.keyOf m = Grouping.keyOf m2) l1),
         (filter (fun m => Grouping.keyOf m = Grouping.keyOf m2) l2),
         (filter (fun m => Grouping.keyOf m = Grouping.keyOf m2) l3).
  rewrite filter_app, filter_cons_True by assumption.
  rewrite filter_app, filter_cons_True by reflexivity. reflexivity.
Qed.

(** When the handler starts on a message, every earlier message of the
    KeyGroup has its Done event. *)
Lemma reachable_order (batch : list KafkaMessage) (d : dispatcher) :
  NoDup batch ->
  reachablec batch d ->
  forall post pre m2, trace d = post ++ Begin m2 :: pre ->
  forall m1, precedes m1 m2 (Grouping.ofKey (Grouping.keyOf m2) batch) ->
  Done m1 ∈ pre.
Proof.
  intros Hnd. induction 1 as [| a d d' Hr IH Hstep]; intros post pre m2 Ht m1 Hp.
  - cbn in Ht. now destruct post.
  - pose proof (reachable_groups batch d Hr) as Hok.
    apply step_inv in Hstep.
    destruct a as [k | k | k | k | k |];
      [ destruct Hstep as (g & Hg & Hnr & Ho & Hsz & ->)
      | destruct Hstep as (done & m & rest & Hg & Hrun & ->)
      | destruct Hstep as (done & m & rest & Hg & Hrun & ->)
      | destruct Hstep as (done & m & rest & Hg & Hrun & ->)
      | destruct Hstep as (done & Hg & Hrun & ->)
      | destruct Hstep as (Hc & Hall & ->) ];
      cbn [trace] in Ht;
      try (destruct post as [| e post]; cbn [app] in Ht;
           [discriminate | injection Ht as _ Ht; eapply IH; eauto]).
    + eapply IH; eauto.
    + destruct post as [| e post]; cbn [app] in Ht;
        [| injection Ht as _ Ht; eapply IH; eauto].
      injection Ht as <- <-.
      destruct (Hok _ _ Hg) as (H1 & _ & _ & H4 & _).
      unfold messagesOf, failedOf in H1; cbn in H1.
      assert (Hk : Grouping.keyOf m = k).
      { apply (ofKey_elem batch k m). rewrite <- H1. set_solver. }
      rewrite Hk in Hp. apply H4; cbn [completed].
      eapply precedes_prefix; [apply (ofKey_NoDup batch k Hnd) | | exact Hp].
      symmetry. exact H1.
Qed.

Lemma group_member_key (batch : list KafkaMessage) (d : dispatcher)
    (k : string) (g : KeyGroup) (x : KafkaMessage) :
  reachablec batch d -> groups d !! k = Some g -> x ∈ messagesOf g ->
  Grouping.keyOf x = k.
Proof.
  intros Hr Hg Hx. destruct (reachable_groups batch d Hr _ _ Hg) as (H1 & _).
  rewrite H1 in Hx. now apply ofKey_elem in Hx.
Qed.

(** Where a started message is within its KeyGroup. *)
Definition begunIn (m : KafkaMessage) (g : KeyGroup) : Prop :=
  m ∈ completed g \/ inflight g = Some m \/ outcome g = Some (GroupHandedOff m).

(** A move of a KeyGroup that is not over keeps the started and
    handed-off messages of every KeyGroup where they are. *)
Lemma events_update (gs : gmap string KeyGroup) (k : string)
    (gold gnew : KeyGroup) :
  gs !! k = Some gold ->
  outcome gold = None ->
  (forall m, begunIn m gold -> begunIn m gnew) ->
  (forall m, (exists g, gs !! Grouping.keyOf m = Some g /\ begunIn m g) ->
     exists g, <[k := gnew]> gs !! Grouping.keyOf m = Some g /\ begunIn m g) /\
  (forall m, (exists g, gs !! Grouping.keyOf m = Some g /\
                        outcome g = Some (GroupHandedOff m)) ->
     exists g, <[k := gnew]> gs !! Grouping.keyOf m = Some g /\
               outcome g = Some (GroupHandedOff m)).
Proof.
  intros Hg Ho Hb. split; intros m (g & Hl & Hm);
    destruct (decide (k = Grouping.keyOf m)) as [Heq | Hne];
    try rewrite <- Heq in *.
  - rewrite lookup_insert_eq. rewrite Hg in Hl; injection Hl as <-. eauto.
  - rewrite lookup_insert_ne by assumption. eauto.
  - rewrite Hg in Hl; injection Hl as <-. congruence.
  - rewrite lookup_insert_ne by assumption. eauto.
Qed.

(** Where the events of the trace have left their messages: a message the
    handler started on is done, in flight, or the one its KeyGroup was
    handed off at; a handed-off message is the one recorded in the outcome
    of its KeyGroup. *)
Lemma reachable_events (batch : list KafkaMessage) (d : dispatcher) :
  reachablec batch d ->
  (forall m, Begin m ∈ trace d ->
     exists g, groups d !! Grouping.keyOf m = Some g /\ begunIn m g) /\
  (forall m, HandedOff m ∈ trace d ->
     exists g, groups d !! Grouping.keyOf m = Some g /\
       outcome g = Some (GroupHandedOff m)).
Proof.
  induction 1 as [| a d d' Hr [IHb IHh] Hstep].
  - cbn. split; intros m Hm; set_solver.
  - pose proof (fun k g x => group_member_key batch d k g x Hr) as Hkey.
    apply step_inv in Hstep.
    destruct a as [k | k | k | k | k |];
      [ destruct Hstep as (g & Hg & Hnr & Ho & Hsz & ->)
      | destruct Hstep as (done & m & rest & Hg & Hrun & ->)
      | destruct Hstep as (done & m & rest & Hg & Hrun & ->)
      | destruct Hstep as (done & m & rest & Hg & Hrun & ->)
      | destruct Hstep as (done & Hg & Hrun & ->)
      | destruct Hstep as (Hc & Hall & ->) ];
      cbn [trace groups].
    + split; assumption.
    + destruct (events_update (groups d) k _
                  (MkGroup done (Some m) rest None) Hg eq_refl) as [Ub Uh].
      { unfold begunIn; cbn. intros x [? | [? | ?]]; auto; discriminate. }
      assert (Hk : Grouping.keyOf m = k).
      { apply (Hkey _ _ _ Hg). unfold messagesOf, failedOf; cbn. set_solver. }
      split; intros m' Hm'; apply elem_of_cons in Hm' as [Heq | Hm']; auto;
        try discriminate.
      injection Heq as ->. rewrite Hk, lookup_insert_eq.
      eexists; split; [reflexivity |]. unfold begunIn; cbn. auto.
    + destruct (events_update (groups d) k _
                  (MkGroup (done ++ [m]) None rest None) Hg eq_refl) as [Ub Uh].
      { unfold begunIn; cbn. intros x [? | [[= ->] | ?]]; try discriminate;
          left; set_solver. }
      split; intros m' Hm'; apply elem_of_cons in Hm' as [Heq | Hm']; auto;
        discriminate.
    + destruct (events_update (groups d) k _
                  (MkGroup done None rest (Some (GroupHandedOff m))) Hg eq_refl)
        as [Ub Uh].
      { unfold begunIn; cbn. intros x [? | [[= ->] | ?]]; try discriminate; auto. }
      assert (Hk : Grouping.keyOf m = k).
      { apply (Hkey _ _ _ Hg). unfold messagesOf, failedOf; cbn. set_solver. }
      split; intros m' Hm'; apply elem_of_cons in Hm' as [Heq | Hm']; auto;
        try discriminate.
      injection Heq as ->. rewrite Hk, lookup_insert_eq.
      eexists; split; reflexivity.
    + destruct (events_update (groups d) k _
                  (MkGroup done None [] (Some GroupSucceeded)) Hg eq_refl)
        as [Ub Uh].
      { unfold begunIn; cbn. intros x [? | [? | ?]]; auto; discriminate. }
      split; intros m' Hm'; apply elem_of_cons in Hm' as [Heq | Hm']; auto;
        discriminate.
    + split; intros m' Hm'; apply elem_of_cons in Hm' as [Heq | Hm']; auto;
        discriminate.
Qed.

(** After a hand-off the later messages of the KeyGroup are never
    started. *)
Lemma handed_off_halts (batch : list KafkaMessage) (d : dispatcher)
    (m1 m2 : KafkaMessage) :
  NoDup batch ->
  reachablec batch d ->
  precedes m1 m2 (Grouping.ofKey (Grouping.keyOf m2) batch) ->
  HandedOff m1 ∈ trace d -> Begin m2 ∈ trace d -> False.
Proof.
  intros Hnd Hr Hp Hh Hb.
  pose proof (ofKey_NoDup batch (Grouping.keyOf m2) Hnd) as Hnd2.
  assert (Hk : Grouping.keyOf m1 = Grouping.keyOf m2).
  { destruct Hp as (l1 & l2 & l3 & Heq).
    apply (ofKey_elem batch (Grouping.keyOf m2) m1). rewrite Heq. set_solver. }
  destruct (reachable_events batch d Hr) as [Eb Eh].
  destruct (Eh _ Hh) as (g & Hg & Ho). rewrite Hk in Hg.
  destruct (Eb _ Hb) as (g' & Hg' & Hcase). rewrite Hg in Hg'; injection Hg' as <-.
  destruct (reachable_groups batch d Hr _ _ Hg) as (H1 & _ & _ & _ & H5).
  rewrite Ho in H5. destruct H5 as [_ Hin].
  unfold messagesOf, failedOf in H1. rewrite Ho, Hin in H1. cbn in H1.
  destruct Hcase as [Hc | [Hc | Hc]]; [| congruence |].
  - apply list_elem_of_split in Hc as (c1 & c2 & Hc).
    rewrite Hc, <- app_assoc in H1. cbn [app] in H1.
    pose proof (precedes_prefix _ c1 _ m1 m2 Hnd2 (eq_sym H1) Hp) as Hm1.
    rewrite <- H1 in Hnd2. apply NoDup_app in Hnd2 as (_ & Hdis & _).
    apply (Hdis m1 Hm1). set_solver.
  - rewrite Ho in Hc. injection Hc as ->.
    destruct Hp as (l1 & l2 & l3 & Heq). rewrite Heq in Hnd2.
    apply NoDup_app in Hnd2 as (_ & _ & Hnd2).
    apply NoDup_cons in Hnd2 as [Hx _]. set_solver.
Qed.

Lemma run_reachable (batch : list KafkaMessage) (acts : list action) :
  forall d d0, reachablec batch d -> reachablec batch d0 ->
  reachablec batch (default d0 (run limit acts d)).
Proof.
  induction acts as [| a acts IH]; intros d d0 Hd Hd0; cbn [run].
  - exact Hd.
  - destruct (stepc a d) as [d1 |] eqn:Hs; [| exact Hd0].
    apply IH; [| exact Hd0]. eapply reachable_step; [exact Hd | exact Hs].
Qed.

(** The order within a key, the halt after a hand-off, and what can move,
    in every state of the dispatch, with or without limiter. *)
Lemma dispatch_order (batch : list KafkaMessage) (d : dispatcher) :
  NoDup batch ->
  reachablec batch d ->
  (forall m1 m2,
     precedes m1 m2 batch -> Grouping.keyOf m1 = Grouping.keyOf m2 ->
     (forall post pre, trace d = post ++ Begin m2 :: pre -> Done m1 ∈ pre) /\
     (HandedOff m1 ∈ trace d -> Begin m2 ∉ trace d)) /\
  (forall k g, groups d !! k = Some g -> is_Some (inflight g) -> k ∈ running d) /\
  (forall k g, groups d !! k = Some g -> k ∉ running d -> outcome g = None ->
     underLimit limit (size (running d)) = true -> is_Some (stepc (Spawn k) d)) /\
  (forall k g, groups d !! k = Some g -> k ∈ running d -> inflight g = None ->
     pending g <> [] -> is_Some (stepc (Start k) d)).
Proof.
  intros Hnd Hr. pose proof (reachable_groups batch d Hr) as Hok.
  split; [| split; [| split]].
  - intros m1 m2 Hp Hk. pose proof (precedes_ofKey batch m1 m2 Hp Hk) as Hp'.
    split.
    + intros post pre Ht. eapply reachable_order; eauto.
    + intros Hh Hb. eapply handed_off_halts; eauto.
  - intros k g Hg. now destruct (Hok _ _ Hg) as (_ & ? & _).
  - intros k g Hg Hnr Ho Hsz. cbn [step]. unfold takeGroup. rewrite Hg, Hsz.
    rewrite bool_decide_eq_true_2 by auto. cbn [andb]. eauto.
  - intros k g Hg Hrun Hi Hpe. cbn [step]. unfold startNext. rewrite Hg.
    destruct (Hok _ _ Hg) as (_ & _ & Ho & _). specialize (Ho Hrun).
    destruct g as [done i [| m rest] o]; cbn in *; [congruence |]. subst i o.
    rewrite bool_decide_eq_true_2 by auto. eauto.
Qed.

End DispatcherProofs.

Section HandleBatchProofs.
Import Dispatcher.

Context {A : Type}.
Variable parse : string -> option A.

(** The names of the grouped record are the keys of the batch, once
    each. *)
Lemma creationOrder_spec (messages : list KafkaMessage) :
  NoDup (creationOrder messages) /\
  forall k, k ∈ creationOrder messages <-> Grouping.ofKey k messages <> [].
Proof.
  unfold creationOrder.
  assert (H : forall acc : list string, NoDup acc ->
            NoDup (fold_left (fun acc m =>
                      if bool_decide (Grouping.keyOf m ∈ acc) then acc
                      else acc ++ [Grouping.keyOf m]) messages acc) /\
            forall k, k ∈ fold_left (fun acc m =>
                      if bool_decide (Grouping.keyOf m ∈ acc) then acc
                      else acc ++ [Grouping.keyOf m]) messages acc
                      <-> k ∈ acc \/ Grouping.ofKey k messages <> []).
  { induction messages as [| m ms IH]; intros acc Hacc; cbn [fold_left].
    - split; [exact Hacc |]. intros k. unfold Grouping.ofKey. cbn. tauto.
    - assert (Hof : forall k, Grouping.ofKey k (m :: ms) <> [] <->
                      Grouping.keyOf m = k \/ Grouping.ofKey k ms <> []).
      { intros k. unfold Grouping.ofKey.
        destruct (decide (Grouping.keyOf m = k)) as [Heq | Hne].
        - rewrite filter_cons_True by assumption. split; [auto | discriminate].
        - rewrite filter_cons_False by assumption. tauto. }
      case_bool_decide as Hin.
      + destruct (IH acc Hacc) as [Hnd Hiff]. split; [exact Hnd |].
        intros k. rewrite Hiff, Hof. split; [tauto |].
        intros [? | [<- | ?]]; auto.
      + destruct (IH (acc ++ [Grouping.keyOf m])) as [Hnd Hiff].
        { apply NoDup_app. repeat split; [exact Hacc | set_solver |].
          apply NoDup_singleton. }
        split; [exact Hnd |].
        intros k. rewrite Hiff, Hof. set_solver. }
  destruct (H [] (NoDup_nil_2)) as [Hnd Hiff]. split; [exact Hnd |].
  intros k. rewrite Hiff. set_solver.
Qed.

(** Object.entries lists each of them once. *)
Lemma entriesOrder_Permutation (messages : list KafkaMessage) :
  entriesOrder messages ≡ₚ creationOrder messages.
Proof.
  unfold entriesOrder. cbv zeta. rewrite merge_sort_Permutation.
  apply filter_app_complement.
Qed.

Lemma entriesOrder_spec (messages : list KafkaMessage) :
  NoDup (entriesOrder messages) /\
  forall k, k ∈ entriesOrder messages <-> Grouping.ofKey k messages <> [].
Proof.
  destruct (creationOrder_spec messages) as [Hnd Hiff].
  split.
  - now rewrite entriesOrder_Permutation.
  - intros k. now rewrite entriesOrder_Permutation.
Qed.

(** Taking and starting fresh KeyGroups one after the other, without
    limit, succeeds, leaves each with its first message in flight, and
    leaves the other KeyGroups as they were. *)
Lemma start_all (ks : list string) :
  forall d : dispatcher,
  NoDup ks ->
  (forall k, k ∈ ks ->
     (k ∉ running d) /\
     exists m rest, groups d !! k = Some (fresh (m :: rest))) ->
  exists d',
    run None (flat_map (fun k => [Spawn k; Start k]) ks) d = Some d' /\
    (forall k, k ∈ ks ->
       k ∈ running d' /\
       exists m rest, groups d !! k = Some (fresh (m :: rest)) /\
         groups d' !! k = Some (MkGroup [] (Some m) rest None)) /\
    (forall k, k ∈ running d -> k ∈ running d') /\
    (forall k, k ∉ ks -> groups d' !! k = groups d !! k).
Proof.
  induction ks as [| k ks IH]; intros d Hnd Hall.
  - exists d. cbn. split; [reflexivity | split; [set_solver | auto]].
  - apply NoDup_cons in Hnd as [Hk Hnd].
    destruct (Hall k) as (Hnr & m & rest & Hg); [set_solver |].
    cbn [flat_map app run step]. unfold takeGroup, startNext.
    rewrite Hg. cbn [fresh outcome underLimit].
    rewrite bool_decide_eq_true_2 by auto. cbn [andb groups running].
    rewrite Hg. cbn [fresh].
    rewrite bool_decide_eq_true_2 by set_solver.
    set (d2 := {| groups := <[k := MkGroup [] (Some m) rest None]> (groups d);
                  running := {[k]} ∪ running d;
                  committed := committed d;
                  trace := Begin m :: trace d |}).
    destruct (IH d2 Hnd) as (d' & Hrun & Hks & Hmono & Hframe).
    { intros k' Hk'. assert (k <> k') by (intros ->; contradiction).
      destruct (Hall k') as (Hnr' & m' & rest' & Hg'); [set_solver |].
      subst d2; cbn [running groups]. split; [set_solver |].
      exists m', rest'. now rewrite lookup_insert_ne. }
    exists d'. split; [exact Hrun | split; [| split]].
    + intros k' Hk'. apply elem_of_cons in Hk' as [-> | Hk'].
      * split; [apply Hmono; subst d2; cbn; set_solver |].
        exists m, rest. split; [exact Hg |].
        rewrite (Hframe k Hk). subst d2; cbn [groups]. apply lookup_insert_eq.
      * assert (k <> k') by (intros ->; contradiction).
        destruct (Hks k' Hk') as (? & m' & rest' & Hg' & ?).
        split; [assumption |]. exists m', rest'.
        subst d2; cbn [groups] in Hg'. rewrite lookup_insert_ne in Hg' by assumption.
        auto.
    + intros k' Hk'. apply Hmono. subst d2; cbn; set_solver.
    + intros k' Hk'. rewrite Hframe by set_solver.
      subst d2; cbn [groups]. apply lookup_insert_ne. set_solver.
Qed.

(** The dispatch that handleBatch starts when the grouping returns. *)
Lemma handleBatch_inr (batch : list KafkaMessage) (d0 : dispatcher) :
  handleBatch parse batch = inr d0 ->
  d0 = default (init batch)
         (run None
            (flat_map (fun k => [Spawn k; Start k]) (entriesOrder batch))
            (init batch)).
Proof.
  unfold handleBatch.
  destruct (Parsing.groupByCustomer parse batch); [discriminate |].
  now intros [= <-].
Qed.

(** handleBatch leaves every KeyGroup of the batch with its first message
    in flight. *)
Lemma handleBatch_starts_all (batch : list KafkaMessage) (d0 : dispatcher)
    (k : string) :
  handleBatch parse batch = inr d0 ->
  Grouping.ofKey k batch <> [] ->
  k ∈ running d0 /\
  exists m rest, Grouping.ofKey k batch = m :: rest /\
    groups d0 !! k = Some (MkGroup [] (Some m) rest None).
Proof.
  intros Hd0 Hne. apply handleBatch_inr in Hd0. subst d0.
  destruct (entriesOrder_spec batch) as [Hnd Hiff].
  assert (Hfresh : forall k', k' ∈ entriesOrder batch ->
            (k' ∉ running (init batch)) /\
            exists m rest, groups (init batch) !! k' = Some (fresh (m :: rest))).
  { intros k' Hk'. apply Hiff in Hk'. split; [cbn; set_solver |].
    unfold init; cbn [groups]. rewrite lookup_fmap.
    unfold Grouping.groupByKey. rewrite groupBy_lookup.
    destruct (Grouping.ofKey k' batch) as [| m rest]; [congruence |].
    exists m, rest. cbn. now rewrite map_id. }
  destruct (start_all (entriesOrder batch) (init batch) Hnd Hfresh)
    as (d' & Hrun & Hks & _).
  rewrite Hrun. cbn [default from_option id].
  destruct (Hks k) as (Hin & m & rest & Hg & Hg'); [now apply Hiff |].
  split; [exact Hin |]. exists m, rest. split; [| exact Hg'].
  apply init_lookup in Hg as [Hg _]. unfold fresh in Hg. now injection Hg.
Qed.

(** handleBatch throws what groupByCustomer throws, and starts the
    dispatch exactly when the reducer takes every message. *)
Lemma handleBatch_returns (batch : list KafkaMessage) :
  (forall e, handleBatch parse batch = inl e <->
             Parsing.groupByCustomer parse batch = inl e) /\
  ((exists d0, handleBatch parse batch = inr d0) <->
   forall m, m ∈ batch -> Parsing.accepted parse m).
Proof.
  split.
  - intros e. unfold handleBatch.
    destruct (Parsing.groupByCustomer parse batch) as [e' | rec].
    + split; intros [= <-]; reflexivity.
    + split; discriminate.
  - rewrite <- (fold_pushParsed_returns parse batch ∅).
    unfold handleBatch, Parsing.groupByCustomer.
    destruct (fold_left (Parsing.pushParsed parse) batch (inr ∅)) as [e | rec].
    + split; intros [? ?]; discriminate.
    + split; eauto.
Qed.

(** C1, as the pages have it.  In every state of the dispatch of a batch of
    pairwise distinct messages started by handleBatch:
    - for two messages m1, m2 of one key with m1 first in arrival order,
      whenever the handler starts on m2 the outcome of m1 is already in
      the trace, and it is its success; once the handler has thrown on
      m1, m2 is never started;
    - a message in flight belongs to a KeyGroup being processed; a
      KeyGroup that waits can be taken whatever the number of KeyGroups
      being processed, and one being processed with no message in flight
      can start its next message whatever the other KeyGroups do;
    - handleBatch throws what groupByCustomer throws, and returns a
      dispatch exactly when the reducer takes every message; the dispatch
      it returns is such a state, in which every KeyGroup of the batch is
      being processed with its first message in flight. *)
Theorem per_key_order (batch : list KafkaMessage) (d : dispatcher) :
  NoDup batch ->
  reachable None batch d ->
  (forall m1 m2,
     precedes m1 m2 batch -> Grouping.keyOf m1 = Grouping.keyOf m2 ->
     (forall post pre, trace d = post ++ Begin m2 :: pre ->
        (Done m1 ∈ pre \/ HandedOff m1 ∈ pre) /\ Done m1 ∈ pre) /\
     (HandedOff m1 ∈ trace d -> Begin m2 ∉ trace d)) /\
  (forall k g, groups d !! k = Some g -> is_Some (inflight g) -> k ∈ running d) /\
  (forall k g, groups d !! k = Some g -> k ∉ running d -> outcome g = None ->
     is_Some (step None (Spawn k) d)) /\
  (forall k g, groups d !! k = Some g -> k ∈ running d -> inflight g = None ->
     pending g <> [] -> is_Some (step None (Start k) d)) /\
  (forall e, handleBatch parse batch = inl e <->
             Parsing.groupByCustomer parse batch = inl e) /\
  ((exists d0, handleBatch parse batch = inr d0) <->
   forall m, m ∈ batch -> Parsing.accepted parse m) /\
  (forall d0, handleBatch parse batch = inr d0 ->
     reachable None batch d0 /\
     forall k, Grouping.ofKey k batch <> [] ->
       k ∈ running d0 /\
       exists m rest, Grouping.ofKey k batch = m :: rest /\
         groups d0 !! k = Some (MkGroup [] (Some m) rest None)).
Proof.
  intros Hnd Hr.
  destruct (dispatch_order None batch d Hnd Hr) as (Ho & Hi & Hs & Hst).
  destruct (handleBatch_returns batch) as [Hthrow Hret].
  split; [| split; [exact Hi | split; [| split; [exact Hst | split;
    [exact Hthrow | split; [exact Hret |]]]]]].
  - intros m1 m2 Hp Hk. destruct (Ho m1 m2 Hp Hk) as [H1 H2].
    split; [| exact H2]. intros post pre Ht. specialize (H1 post pre Ht). auto.
  - intros k g Hg Hnr Hout. eapply Hs; eauto.
  - intros d0 Hd0. split.
    + rewrite (handleBatch_inr batch d0 Hd0). apply run_reachable; constructor.
    + intros k. now apply handleBatch_starts_all.
Qed.

End HandleBatchProofs.

(** The batch of the scenario, dispatched with two workers. *)
Definition scenarioBatch : list KafkaMessage := [orderA1; orderA2; orderB1].

(** Both KeyGroups are taken; A and B run side by side; the second message
    of A starts after the first is done. *)
Definition scenarioParallel : Dispatcher.dispatcher :=
  default (Dispatcher.init scenarioBatch)
    (Dispatcher.run None
       [Dispatcher.Spawn "A"; Dispatcher.Spawn "B"; Dispatcher.Start "A";
        Dispatcher.Start "B"; Dispatcher.Return "B"; Dispatcher.Return "A";
        Dispatcher.Start "A"]
       (Dispatcher.init scenarioBatch)).

(** The handler throws on the message of B; A completes; the commit
    follows. *)
Definition scenarioCommitted : Dispatcher.dispatcher :=
  default (Dispatcher.init scenarioBatch)
    (Dispatcher.run (Some 2%nat)
       [Dispatcher.Spawn "A"; Dispatcher.Spawn "B"; Dispatcher.Start "A";
        Dispatcher.Start "B"; Dispatcher.Throw "B"; Dispatcher.Return "A";
        Dispatcher.Start "A"; Dispatcher.Return "A"; Dispatcher.Finish "A";
        Dispatcher.CommitOffsets]
       (Dispatcher.init scenarioBatch)).

Lemma scenarioBatch_NoDup : NoDup scenarioBatch.
Proof. apply (bool_decide_unpack (NoDup scenarioBatch)). vm_compute. exact I. Qed.

Lemma per_key_order_witness :
  Dispatcher.Done orderA1 ∈
    [Dispatcher.Done orderA1; Dispatcher.Done orderB1;
     Dispatcher.Begin orderB1; Dispatcher.Begin orderA1] \/
  Dispatcher.HandedOff orderA1 ∈
    [Dispatcher.Done orderA1; Dispatcher.Done orderB1;
     Dispatcher.Begin orderB1; Dispatcher.Begin orderA1].
Proof.
  destruct (per_key_order Json.parseNumeral scenarioBatch scenarioParallel
              scenarioBatch_NoDup) as [H _].
  - apply run_reachable; constructor.
  - destruct (H orderA1 orderA2) as [H1 _].
    + exists [], [], [orderB1]. reflexivity.
    + reflexivity.
    + apply (H1 []). vm_compute. reflexivity.
Defined.

(** Three customers in one batch, for a consumer configured with
    maxConcurrency 2.  The values are JSON texts: groupByCustomer
    returns. *)
Definition orderC1 : KafkaMessage := Message 0 103 (Some "C") "104" ∅.

(** What the bound of the specification asks of handleBatch: it has no
    more than maxConcurrency KeyGroups being processed at once. *)
Definition withinMaxConcurrency (maxConcurrency : nat)
    (started : Parsing.thrown + Dispatcher.dispatcher) : Prop :=
  match started with
  | inr d => (size (Dispatcher.running d) <= maxConcurrency)%nat
  | inl _ => True
  end.

(** handleBatch has the three KeyGroups in flight at once: the bound of 2
    does not hold. *)
Lemma handleBatch_exceeds_maxConcurrency :
  ~ withinMaxConcurrency 2
      (Dispatcher.handleBatch Json.parseNumeral [orderA1; orderB1; orderC1]).
Proof.
  assert (H : exists d,
            Dispatcher.handleBatch Json.parseNumeral [orderA1; orderB1; orderC1]
            = inr d /\ size (Dispatcher.running d) = 3%nat).
  { eexists. split; vm_compute; reflexivity. }
  destruct H as (d & -> & Hsz). unfold withinMaxConcurrency. rewrite Hsz. lia.
Qed.

(** ** From the dispatch of a batch to its offset commit *)

Module Pipeline.
Import Dispatcher.

(** Modelled from the spec: a closed batch between the dispatcher, the
    failure router and the offset commit (sections 4.4, 4.5 and 5), none
    of which the pages show put together.  Beside the dispatch it holds,
    for each KeyGroup handed to the failure router, the messages the
    router has resolved so far, oldest first, each with its terminal
    outcome. *)
Record pipeline : Type := MkPipeline {
  dispatch : dispatcher;
  resolved : gmap string (list (KafkaMessage * Retry.outcome))
}.

Definition init (batch : list KafkaMessage) : pipeline :=
  {| dispatch := Dispatcher.init batch; resolved := ∅ |}.

Inductive move : Type :=
| Dispatch (a : action)   (* a move of the dispatcher or of a handler *)
| Resolve (k : string)    (* the router resolves the next halted message of k *)
| CommitBatch.            (* offset commit for the span of the batch *)

(** The messages that the first failure of a KeyGroup halted: the failed
    one and those behind it, in arrival order. *)
Definition halted (g : KeyGroup) : list KafkaMessage :=
  failedOf g ++ pending g.

Definition resolvedOf (p : pipeline) (k : string)
    : list (KafkaMessage * Retry.outcome) :=
  default [] (resolved p !! k).

(** A KeyGroup handed to the failure router is resolved when the router
    has resolved each of its halted messages. *)
Definition groupResolved (p : pipeline) (k : string) (g : KeyGroup) : bool :=
  match outcome g with
  | Some (GroupHandedOff _) => bool_decide (map fst (resolvedOf p k) = halted g)
  | _ => true
  end.

Definition allResolved (p : pipeline) : Prop :=
  map_Forall (fun k g => groupResolved p k g = true) (groups (dispatch p)).

Section Config.
Variable limit : option nat.
Variable cfg : Retry.dlqConfig.
(** The user handler: what its n-th invocation (from 0) on a message
    does, [None] for a normal return and [Some e] for a thrown error. *)
Variable handler : KafkaMessage -> nat -> option Retry.error.

Definition inflightOf (k : string) (d : dispatcher) : option KafkaMessage :=
  match groups d !! k with
  | Some g => inflight g
  | None => None
  end.

(** The dispatcher's moves within the pipeline: the handler returns or
    throws as its first invocation on the message in flight does, and the
    commit is not the dispatcher's to issue. *)
Definition allowed (a : action) (d : dispatcher) : bool :=
  match a with
  | Return k =>
      match inflightOf k d with
      | Some m => match handler m 0 with None => true | Some _ => false end
      | None => false
      end
  | Throw k =>
      match inflightOf k d with
      | Some m => match handler m 0 with None => false | Some _ => true end
      | None => false
      end
  | CommitOffsets => false
  | _ => true
  end.

Definition dispatchMove (a : action) (p : pipeline) : option pipeline :=
  if allowed a (dispatch p)
  then option_map (fun d => {| dispatch := d; resolved := resolved p |})
         (Dispatcher.step limit a (dispatch p))
  else None.

(** Modelled from the spec: the failure router on a KeyGroup handed to it
    (section 4.5).  It takes the halted messages one at a time in arrival
    order, the failed one first, and brings each to its terminal outcome,
    success or dead letter, by [Retry.route]: a later message of the key
    is taken only when the earlier ones are resolved. *)
Definition resolveNext (k : string) (p : pipeline) : option pipeline :=
  match groups (dispatch p) !! k with
  | Some g =>
      match outcome g with
      | Some (GroupHandedOff _) =>
          match halted g !! length (resolvedOf p k) with
          | Some m =>
              Some {| dispatch := dispatch p;
                      resolved :=
                        <[k := resolvedOf p k ++
                               [(m, Retry.result (Retry.route cfg m (handler m)))]]>
                          (resolved p) |}
          | None => None
          end
      | _ => None
      end
  | None => None
  end.

(** Modelled from the spec: the offset commit of the batch (section 5).
    It is issued once, when every KeyGroup has its outcome and the
    failure router has resolved those handed to it. *)
Definition commitBatch (p : pipeline) : option pipeline :=
  if bool_decide (allResolved p)
  then option_map (fun d => {| dispatch := d; resolved := resolved p |})
         (Dispatcher.step limit CommitOffsets (dispatch p))
  else None.

Definition advance (mv : move) (p : pipeline) : option pipeline :=
  match mv with
  | Dispatch a => dispatchMove a p
  | Resolve k => resolveNext k p
  | CommitBatch => commitBatch p
  end.

Fixpoint runMoves (mvs : list move) (p : pipeline) : option pipeline :=
  match mvs with
  | [] => Some p
  | mv :: mvs' =>
      match advance mv p with
      | Some p1 => runMoves mvs' p1
      | None => None
      end
  end.

(** The states of a batch on its way to the commit. *)
Inductive reachable (batch : list KafkaMessage) : pipeline -> Prop :=
| reachable_init : reachable batch (init batch)
| reachable_advance mv p p' :
    reachable batch p -> advance mv p = Some p' -> reachable batch p'.

(** Every message of the batch has its terminal outcome: the handler
    returned on it in the dispatch, or the failure router resolved it, to
    a success on retry or to a dead letter. *)
Definition resolvedBatch (batch : list KafkaMessage) (p : pipeline) : Prop :=
  (forall k g, groups (dispatch p) !! k = Some g ->
     inflight g = None /\ (k ∉ running (dispatch p)) /\
     (outcome g = Some GroupSucceeded /\ pending g = [] \/
      exists m, outcome g = Some (GroupHandedOff m) /\
        map fst (resolvedOf p k) = m :: pending g)) /\
  (forall m, m ∈ batch ->
     Done m ∈ trace (dispatch p) \/
     exists o, (m, o) ∈ resolvedOf p (Grouping.keyOf m) /\
       o = Retry.result (Retry.route cfg m (handler m)) /\
       match o with
       | Retry.Succeeded _ => True
       | Retry.DeadLettered dl => Retry.originalMessage dl = m
       end).

End Config.

End Pipeline.

Section PipelineProofs.
Import Dispatcher Pipeline.
Variable limit : option nat.
Variable cfg : Retry.dlqConfig.
Variable handler : KafkaMessage -> nat -> option Retry.error.

Local Abbreviation advancec := (advance limit cfg handler).
Local Abbreviation reachablep := (Pipeline.reachable limit cfg handler).

(** A KeyGroup that has its outcome does not change any more. *)
Lemma step_frozen (a : action) (d d' : dispatcher) (k : string) (g : KeyGroup) :
  Dispatcher.step limit a d = Some d' ->
  groups d !! k = Some g -> is_Some (outcome g) ->
  groups d' !! k = Some g.
Proof.
  intros Hstep Hg [o Ho]. apply step_inv in Hstep.
  destruct a as [k' | k' | k' | k' | k' |];
    [ destruct Hstep as (g' & Hg' & _ & _ & _ & ->)
    | destruct Hstep as (done & m & rest & Hg' & _ & ->)
    | destruct Hstep as (done & m & rest & Hg' & _ & ->)
    | destruct Hstep as (done & m & rest & Hg' & _ & ->)
    | destruct Hstep as (done & Hg' & _ & ->)
    | destruct Hstep as (_ & _ & ->) ];
    cbn [groups]; try exact Hg.
  all: destruct (decide (k' = k)) as [-> | Hne];
    [ rewrite Hg in Hg'; injection Hg' as ->; cbn in Ho; discriminate
    | now rewrite lookup_insert_ne ].
Qed.

(** Once every KeyGroup has its outcome the dispatcher has no move left
    but the commit. *)
Lemma step_terminal (a : action) (d d' : dispatcher) :
  Dispatcher.step limit a d = Some d' -> allTerminal d -> a = CommitOffsets.
Proof.
  intros Hstep Hall. apply step_inv in Hstep.
  destruct a as [k' | k' | k' | k' | k' |];
    [ destruct Hstep as (g' & Hg' & _ & Ho & _)
    | destruct Hstep as (done & m & rest & Hg' & _)
    | destruct Hstep as (done & m & rest & Hg' & _)
    | destruct Hstep as (done & m & rest & Hg' & _)
    | destruct Hstep as (done & Hg' & _)
    | reflexivity ];
    destruct (Hall _ _ Hg') as [o Ho']; cbn in *; congruence.
Qed.

(** The moves other than the commit leave the commit flag alone and add
    no commit to the trace. *)
Lemma step_not_commit (a : action) (d d' : dispatcher) :
  Dispatcher.step limit a d = Some d' -> a <> CommitOffsets ->
  committed d' = committed d /\
  (Commit ∈ trace d' -> Commit ∈ trace d).
Proof.
  intros Hstep Hne. apply step_inv in Hstep.
  destruct a as [k' | k' | k' | k' | k' |];
    [ destruct Hstep as (g' & _ & _ & _ & _ & ->)
    | destruct Hstep as (done & m & rest & _ & _ & ->)
    | destruct Hstep as (done & m & rest & _ & _ & ->)
    | destruct Hstep as (done & m & rest & _ & _ & ->)
    | destruct Hstep as (done & _ & _ & ->)
    | congruence ];
    cbn [committed trace]; split; auto;
    intros Hin; apply elem_of_cons in Hin as [Heq | Hin]; auto; discriminate.
Qed.

Lemma dispatchMove_inv (a : action) (p p' : pipeline) :
  dispatchMove limit handler a p = Some p' ->
  a <> CommitOffsets /\
  resolved p' = resolved p /\
  Dispatcher.step limit a (dispatch p) = Some (dispatch p').
Proof.
  unfold dispatchMove. destruct (allowed handler a (dispatch p)) eqn:Ha;
    [| discriminate].
  destruct (Dispatcher.step limit a (dispatch p)) as [d' |]; [| discriminate].
  cbn. intros [= <-]. cbn. split; [| auto].
  intros ->. discriminate.
Qed.

Lemma resolveNext_inv (k : string) (p p' : pipeline) :
  resolveNext cfg handler k p = Some p' ->
  exists g m0 m,
    groups (dispatch p) !! k = Some g /\
    outcome g = Some (GroupHandedOff m0) /\
    halted g !! length (resolvedOf p k) = Some m /\
    p' = {| dispatch := dispatch p;
            resolved :=
              <[k := resolvedOf p k ++
                     [(m, Retry.result (Retry.route cfg m (handler m)))]]>
                (resolved p) |}.
Proof.
  unfold resolveNext.
  destruct (groups (dispatch p) !! k) as [g |]; [| discriminate].
  destruct (outcome g) as [[| m0] |] eqn:Ho; try discriminate.
  destruct (halted g !! length (resolvedOf p k)) as [m |] eqn:Hm;
    [| discriminate].
  intros [= <-]. eauto 10.
Qed.

Lemma commitBatch_inv (p p' : pipeline) :
  commitBatch limit p = Some p' ->
  allResolved p /\ committed (dispatch p) = false /\ allTerminal (dispatch p) /\
  p' = {| dispatch := {| groups := groups (dispatch p);
                         running := running (dispatch p);
                         committed := true;
                         trace := Commit :: trace (dispatch p) |};
          resolved := resolved p |}.
Proof.
  unfold commitBatch. case_bool_decide as Hres; [| discriminate].
  destruct (Dispatcher.step limit CommitOffsets (dispatch p)) as [d' |] eqn:Hs;
    [| discriminate].
  cbn. intros [= <-]. apply step_inv in Hs as (Hc & Hall & ->). auto.
Qed.

(** The dispatch within the pipeline is a dispatch of the batch. *)
Lemma reachable_dispatch (batch : list KafkaMessage) (p : pipeline) :
  reachablep batch p -> Dispatcher.reachable limit batch (dispatch p).
Proof.
  induction 1 as [| mv p p' Hr IH Hadv].
  - constructor.
  - destruct mv as [a | k |]; cbn [advance] in Hadv.
    + apply dispatchMove_inv in Hadv as (_ & _ & Hs).
      eapply Dispatcher.reachable_step; eauto.
    + apply resolveNext_inv in Hadv as (g & m0 & m & _ & _ & _ & ->). exact IH.
    + unfold commitBatch in Hadv. case_bool_decide; [| discriminate].
      destruct (Dispatcher.step limit CommitOffsets (dispatch p)) as [d' |] eqn:Hs;
        [| discriminate].
      cbn in Hadv. injection Hadv as <-. cbn.
      eapply Dispatcher.reachable_step; eauto.
Qed.

(** What the router leaves as dead letter is the message it was given. *)
Lemma routeFrom_original (m : KafkaMessage) (h : nat -> option Retry.error)
    (remaining : nat) :
  forall attempt,
  match Retry.result (Retry.routeFrom cfg m h remaining attempt) with
  | Retry.Succeeded _ => True
  | Retry.DeadLettered dl => Retry.originalMessage dl = m
  end.
Proof.
  induction remaining as [| r IH]; intros attempt; cbn [Retry.routeFrom].
  - destruct (h attempt); cbn; auto.
  - destruct (h attempt) as [e |]; cbn; [| auto].
    destruct (Retry.shouldRetry cfg e m attempt); cbn; [apply IH | reflexivity].
Qed.

(** What the router has resolved of a KeyGroup: the first of its halted
    messages, in their order, each with the outcome of its routing. *)
Definition routerOk (p : pipeline) : Prop :=
  forall k r, resolved p !! k = Some r ->
    exists g m0,
      groups (dispatch p) !! k = Some g /\
      outcome g = Some (GroupHandedOff m0) /\
      map fst r = take (length r) (halted g) /\
      (length r <= length (halted g))%nat /\
      forall m o, (m, o) ∈ r ->
        o = Retry.result (Retry.route cfg m (handler m)).

Lemma reachable_routerOk (batch : list KafkaMessage) (p : pipeline) :
  reachablep batch p -> routerOk p.
Proof.
  induction 1 as [| mv p p' Hr IH Hadv].
  - intros k r Hk. cbn in Hk. now rewrite lookup_empty in Hk.
  - destruct mv as [a | k |]; cbn [advance] in Hadv.
    + apply dispatchMove_inv in Hadv as (_ & Hres & Hs).
      intros k r Hk. rewrite Hres in Hk.
      destruct (IH k r Hk) as (g & m0 & Hg & Ho & Hrest).
      exists g, m0. split; [| auto].
      eapply step_frozen; eauto.
    + apply resolveNext_inv in Hadv as (g & m0 & m & Hg & Ho & Hm & ->).
      intros k' r Hk'. cbn [resolved dispatch] in *.
      destruct (decide (k = k')) as [<- | Hne].
      * rewrite lookup_insert_eq in Hk'. injection Hk' as <-.
        exists g, m0. split; [exact Hg |]. split; [exact Ho |].
        assert (Hpre : map fst (resolvedOf p k)
                       = take (length (resolvedOf p k)) (halted g) /\
                       forall m o, (m, o) ∈ resolvedOf p k ->
                         o = Retry.result (Retry.route cfg m (handler m))).
        { unfold resolvedOf. destruct (resolved p !! k) as [r |] eqn:Hr0; cbn.
          - destruct (IH k r Hr0) as (g' & m0' & Hg' & _ & Ht & _ & Hall).
            rewrite Hg in Hg'. injection Hg' as <-. auto.
          - split; [reflexivity |]. intros ? ? Hin. inversion Hin. }
        destruct Hpre as [Ht Hall].
        rewrite length_app, map_app. cbn [length map fst].
        rewrite Nat.add_1_r. split; [| split].
        -- rewrite (take_S_r _ _ _ Hm). now rewrite <- Ht.
        -- apply lookup_lt_Some in Hm. lia.
        -- intros x o Hin. apply elem_of_app in Hin as [Hin | Hin]; [auto |].
           apply list_elem_of_singleton in Hin. now injection Hin as -> ->.
      * rewrite lookup_insert_ne in Hk' by assumption. exact (IH k' r Hk').
    + apply commitBatch_inv in Hadv as (_ & _ & _ & ->).
      intros k r Hk. exact (IH k r Hk).
Qed.

(** A commit in the trace means the flag is set, and the flag is set only
    with every KeyGroup at its outcome and resolved. *)
Lemma reachable_committed (batch : list KafkaMessage) (p : pipeline) :
  reachablep batch p ->
  (Commit ∈ trace (dispatch p) -> committed (dispatch p) = true) /\
  (committed (dispatch p) = true -> allTerminal (dispatch p) /\ allResolved p).
Proof.
  induction 1 as [| mv p p' Hr [IH1 IH2] Hadv].
  - cbn. split; [intros Hin; inversion Hin | discriminate].
  - destruct mv as [a | k |]; cbn [advance] in Hadv.
    + apply dispatchMove_inv in Hadv as (Hne & Hres & Hs).
      destruct (step_not_commit a _ _ Hs Hne) as [Hc Ht].
      assert (Hfalse : committed (dispatch p) = false).
      { destruct (committed (dispatch p)) eqn:Hcp; [| reflexivity].
        destruct (IH2 eq_refl) as [Hall _].
        now pose proof (step_terminal a _ _ Hs Hall). }
      rewrite Hc, Hfalse. split; [| discriminate].
      intros Hin. apply Ht, IH1 in Hin. congruence.
    + apply resolveNext_inv in Hadv as (g & m0 & m & Hg & Ho & Hm & ->).
      cbn [dispatch].
      assert (Hfalse : committed (dispatch p) = false).
      { destruct (committed (dispatch p)) eqn:Hcp; [| reflexivity].
        destruct (IH2 eq_refl) as [_ Hres]. specialize (Hres _ _ Hg).
        cbn beta in Hres. unfold groupResolved in Hres. rewrite Ho in Hres.
        apply bool_decide_eq_true_1 in Hres.
        apply lookup_lt_Some in Hm.
        rewrite <- Hres, length_map in Hm. lia. }
      rewrite Hfalse. split; [| discriminate].
      intros Hin. apply IH1 in Hin. congruence.
    + apply commitBatch_inv in Hadv as (Hres & _ & Hall & ->).
      cbn [dispatch committed]. split; [reflexivity |]. intros _.
      split; [exact Hall | exact Hres].
Qed.

(** With every KeyGroup at its outcome and resolved, every message of the
    batch has its terminal outcome. *)
Lemma terminal_resolved (batch : list KafkaMessage) (p : pipeline) :
  reachablep batch p -> allTerminal (dispatch p) -> allResolved p ->
  resolvedBatch cfg handler batch p.
Proof.
  intros Hr Hall Hres.
  pose proof (reachable_dispatch batch p Hr) as Hd.
  pose proof (reachable_groups limit batch _ Hd) as Hok.
  pose proof (reachable_routerOk batch p Hr) as Hrt.
  assert (Hgrp : forall k g, groups (dispatch p) !! k = Some g ->
            inflight g = None /\ (k ∉ running (dispatch p)) /\
            (outcome g = Some GroupSucceeded /\ pending g = [] \/
             exists m, outcome g = Some (GroupHandedOff m) /\
               map fst (resolvedOf p k) = m :: pending g)).
  { intros k g Hg. destruct (Hok _ _ Hg) as (_ & _ & H3 & _ & H5).
    destruct (Hall _ _ Hg) as [o Ho]. rewrite Ho in H5.
    assert (Hnr : k ∉ running (dispatch p))
      by (intros Hin; specialize (H3 Hin); congruence).
    destruct o as [| m].
    - destruct H5 as (_ & Hi & Hp). auto.
    - destruct H5 as (_ & Hi). split; [exact Hi |]. split; [exact Hnr |].
      right. exists m. split; [exact Ho |].
      specialize (Hres _ _ Hg). cbn beta in Hres.
      unfold groupResolved in Hres. rewrite Ho in Hres.
      apply bool_decide_eq_true_1 in Hres. rewrite Hres.
      unfold halted, failedOf. now rewrite Ho. }
  split; [exact Hgrp |].
  intros m Hm.
  assert (Hin : m ∈ Grouping.ofKey (Grouping.keyOf m) batch)
    by (now apply ofKey_elem).
  assert (Hne : Grouping.ofKey (Grouping.keyOf m) batch <> [])
    by (intros Heq; rewrite Heq in Hin; inversion Hin).
  apply (reachable_dom limit batch _ Hd) in Hne as [g Hg].
  destruct (Hok _ _ Hg) as (H1 & _ & _ & H4 & _).
  destruct (Hgrp _ _ Hg) as (Hi & _ & Hcase).
  rewrite <- H1 in Hin. unfold messagesOf in Hin. rewrite Hi in Hin.
  cbn [option_list app] in Hin.
  apply elem_of_app in Hin as [Hin | Hin]; [left; now apply H4 |].
  right.
  assert (Hmem : m ∈ map fst (resolvedOf p (Grouping.keyOf m))).
  { destruct Hcase as [[Ho Hp] | (m0 & Ho & Heq)].
    - unfold failedOf in Hin. rewrite Ho, Hp in Hin. inversion Hin.
    - rewrite Heq. unfold failedOf in Hin. now rewrite Ho in Hin. }
  apply list_elem_of_fmap in Hmem as ([m' o] & Hfst & Hmo). cbn in Hfst. subst m'.
  exists o. split; [exact Hmo |].
  assert (Ho : o = Retry.result (Retry.route cfg m (handler m))).
  { unfold resolvedOf in Hmo.
    destruct (resolved p !! Grouping.keyOf m) as [r |] eqn:Hr0; cbn in Hmo.
    - destruct (Hrt _ _ Hr0) as (_ & _ & _ & _ & _ & _ & Hall'). now apply Hall'.
    - inversion Hmo. }
  split; [exact Ho |]. rewrite Ho. apply routeFrom_original.
Qed.

(** While a KeyGroup handed to the failure router is not resolved, the
    router can take its next message. *)
Lemma router_progress (batch : list KafkaMessage) (p : pipeline) :
  reachablep batch p -> ~ allResolved p ->
  exists k, is_Some (advancec (Resolve k) p).
Proof.
  intros Hr Hnot.
  pose proof (reachable_routerOk batch p Hr) as Hrt.
  apply map_not_Forall in Hnot; [| apply _].
  destruct Hnot as (k & g & Hg & Hng). exists k.
  cbn [advance]. unfold resolveNext. rewrite Hg.
  unfold groupResolved in Hng.
  destruct (outcome g) as [[| m0] |] eqn:Ho; try (exfalso; now apply Hng).
  assert (Hlt : (length (resolvedOf p k) < length (halted g))%nat).
  { unfold resolvedOf. destruct (resolved p !! k) as [r |] eqn:Hr0; cbn.
    - destruct (Hrt _ _ Hr0) as (g' & m0' & Hg' & _ & Ht & Hle & _).
      rewrite Hg in Hg'. injection Hg' as <-.
      destruct (decide (length r = length (halted g))) as [Heq | Hne]; [| lia].
      exfalso. apply Hng. apply bool_decide_eq_true_2.
      unfold resolvedOf. rewrite Hr0. cbn. rewrite Ht, Heq.
      apply firstn_all.
    - unfold halted, failedOf. rewrite Ho. cbn. lia. }
  apply lookup_lt_is_Some_2 in Hlt as [m Hm]. rewrite Hm. eauto.
Qed.

Lemma runMoves_reachable (batch : list KafkaMessage) (mvs : list move) :
  forall p p0, reachablep batch p -> reachablep batch p0 ->
  reachablep batch (default p0 (runMoves limit cfg handler mvs p)).
Proof.
  induction mvs as [| mv mvs IH]; intros p p0 Hp Hp0; cbn [runMoves].
  - exact Hp.
  - destruct (advancec mv p) as [p1 |] eqn:Hs; [| exact Hp0].
    apply IH; [| exact Hp0].
    exact (reachable_advance limit cfg handler batch mv p p1 Hp Hs).
Qed.

(** C8, for the pipeline of the specification.  In every state of a batch
    on its way to the commit:
    - the offset commit can be issued exactly when none has been issued,
      every KeyGroup has its outcome, and the failure router has resolved
      every halted message of the KeyGroups handed to it; the dispatcher
      alone never issues it;
    - when it can be issued, and whenever the trace holds a commit, no
      message is in flight, no KeyGroup is being processed, every
      KeyGroup succeeded or has its failed message and the messages
      halted behind it resolved, and every message of the batch is done
      or was brought by the router to its terminal outcome, a success on
      retry or a dead letter that carries it;
    - the batch does not stall: once every KeyGroup has its outcome and
      no commit has been issued, the commit can be issued or the router
      can resolve one more message. *)
Theorem commit_after_terminal (batch : list KafkaMessage) (p : pipeline) :
  reachablep batch p ->
  (is_Some (advancec CommitBatch p) <->
   committed (dispatch p) = false /\ allTerminal (dispatch p) /\ allResolved p) /\
  advancec (Dispatch CommitOffsets) p = None /\
  (is_Some (advancec CommitBatch p) -> resolvedBatch cfg handler batch p) /\
  (Commit ∈ trace (dispatch p) -> resolvedBatch cfg handler batch p) /\
  (allTerminal (dispatch p) -> committed (dispatch p) = false ->
   is_Some (advancec CommitBatch p) \/
   exists k, is_Some (advancec (Resolve k) p)).
Proof.
  intros Hr.
  assert (Hiff : is_Some (advancec CommitBatch p) <->
            committed (dispatch p) = false /\ allTerminal (dispatch p) /\
            allResolved p).
  { split.
    - intros [p' Hp']. cbn [advance] in Hp'.
      apply commitBatch_inv in Hp' as (? & ? & ? & _). auto.
    - intros (Hc & Hall & Hres). cbn [advance].
      unfold commitBatch.
      rewrite bool_decide_eq_true_2 by exact Hres.
      cbn [Dispatcher.step]. unfold commitOffsets. rewrite Hc.
      rewrite bool_decide_eq_true_2 by exact Hall. cbn. eauto. }
  split; [exact Hiff |]. split; [reflexivity |].
  split; [| split].
  - intros Hs. apply Hiff in Hs as (_ & Hall & Hres).
    now apply terminal_resolved.
  - intros Hin. destruct (reachable_committed batch p Hr) as [H1 H2].
    destruct (H2 (H1 Hin)) as [Hall Hres]. now apply terminal_resolved.
  - intros Hall Hc.
    destruct (decide (allResolved p)) as [Hres | Hnot].
    + left. apply Hiff. auto.
    + right. now apply (router_progress batch).
Qed.

End PipelineProofs.

(** A handler that rejects the order of B as invalid: the router sends
    it to the dead-letter topic without retry. *)
Definition invalidOrder : Retry.error :=
  Retry.Error "ValidationError" "VALIDATION_ERROR".

Definition rejectsB (m : KafkaMessage) (attempt : nat) : option Retry.error :=
  if bool_decide (m = orderB1) then Some invalidOrder else None.

(** The batch of the scenario with two workers: the handler throws on the
    order of B, the orders of A are done, the router resolves B, the
    commit follows. *)
Definition scenarioResolved : Pipeline.pipeline :=
  default (Pipeline.init scenarioBatch)
    (Pipeline.runMoves (Some 2%nat) Retry.ordersDlq rejectsB
       [Pipeline.Dispatch (Dispatcher.Spawn "A");
        Pipeline.Dispatch (Dispatcher.Spawn "B");
        Pipeline.Dispatch (Dispatcher.Start "A");
        Pipeline.Dispatch (Dispatcher.Start "B");
        Pipeline.Dispatch (Dispatcher.Throw "B");
        Pipeline.Dispatch (Dispatcher.Return "A");
        Pipeline.Dispatch (Dispatcher.Start "A");
        Pipeline.Dispatch (Dispatcher.Return "A");
        Pipeline.Dispatch (Dispatcher.Finish "A");
        Pipeline.Resolve "B";
        Pipeline.CommitBatch]
       (Pipeline.init scenarioBatch)).

Lemma commit_after_terminal_witness :
  Pipeline.resolvedBatch Retry.ordersDlq rejectsB scenarioBatch scenarioResolved.
Proof.
  destruct (commit_after_terminal (Some 2%nat) Retry.ordersDlq rejectsB
              scenarioBatch scenarioResolved) as (_ & _ & _ & H & _).
  - apply runMoves_reachable; constructor.
  - apply H. vm_compute. constructor.
Defined.

(** A handler on which the first order of A times out at every attempt.
    The second order of A is halted behind it. *)
Definition timesOutOnA1 (m : KafkaMessage) (attempt : nat)
    : option Retry.error :=
  if bool_decide (m = orderA1) then Some timeoutError else None.

Definition scenarioHalted (router : list Pipeline.move) : Pipeline.pipeline :=
  default (Pipeline.init scenarioBatch)
    (Pipeline.runMoves None Retry.ordersDlq timesOutOnA1
       ([Pipeline.Dispatch (Dispatcher.Spawn "A");
         Pipeline.Dispatch (Dispatcher.Spawn "B");
         Pipeline.Dispatch (Dispatcher.Start "A");
         Pipeline.Dispatch (Dispatcher.Start "B");
         Pipeline.Dispatch (Dispatcher.Throw "A");
         Pipeline.Dispatch (Dispatcher.Return "B");
         Pipeline.Dispatch (Dispatcher.Finish "B")] ++ router)
       (Pipeline.init scenarioBatch)).

(** With the first order of A handed to the failure router and the second
    halted behind it, the commit waits: it is issued neither before the
    router has run nor when the router has dead-lettered the first order
    alone, but once the second is resolved too. *)
Lemma commit_waits_for_router :
  Pipeline.advance None Retry.ordersDlq timesOutOnA1 Pipeline.CommitBatch
    (scenarioHalted []) = None /\
  Pipeline.advance None Retry.ordersDlq timesOutOnA1 Pipeline.CommitBatch
    (scenarioHalted [Pipeline.Resolve "A"]) = None /\
  is_Some
    (Pipeline.advance None Retry.ordersDlq timesOutOnA1 Pipeline.CommitBatch
       (scenarioHalted [Pipeline.Resolve "A"; Pipeline.Resolve "A"])) /\
  map snd
    (Pipeline.resolvedOf
       (scenarioHalted [Pipeline.Resolve "A"; Pipeline.Resolve "A"]) "A") =
  [Retry.DeadLettered
     {| Retry.originalMessage := orderA1; Retry.failureReason := timeoutError;
        Retry.retryCount := 3; Retry.attemptCount := 4 |};
   Retry.Succeeded 1].
Proof.
  split; [vm_compute; reflexivity |].
  split; [vm_compute; reflexivity |].
  split; [vm_compute; eauto | vm_compute; reflexivity].
Qed.
(** * Further properties of the documented code *)

(** ** The retry policy of the pages: delays and predicates *)

Section RetryPolicyFacts.
Import Retry.

Lemma pow2_le (a b : nat) : (a <= b)%nat -> 2 ^ Z.of_nat a <= 2 ^ Z.of_nat b.
Proof. intros H. apply Z.pow_le_mono_r; lia. Qed.

(** X1. The retryDelay of the pages lies between one and thirty seconds, never
    decreases from one attempt to the next, doubles from 1000 up to
    attempt 4 (16000) and is 30000 from attempt 5 on. *)
Theorem retryDelay_shape (a b : nat) :
  1000 <= retryDelay a <= 30000 /\
  ((a <= b)%nat -> retryDelay a <= retryDelay b) /\
  ((a <= 4)%nat -> retryDelay a = 1000 * 2 ^ Z.of_nat a) /\
  ((5 <= a)%nat -> retryDelay a = 30000).
Proof.
  unfold retryDelay.
  assert (H0 : forall n : nat, 1 <= 2 ^ Z.of_nat n).
  { intros n. change 1 with (2 ^ Z.of_nat 0). apply pow2_le. lia. }
  split; [| split; [| split]].
  - specialize (H0 a). lia.
  - intros Hab. pose proof (pow2_le a b Hab). lia.
  - intros Ha. pose proof (pow2_le a 4 Ha) as H.
    change (2 ^ Z.of_nat 4) with 16 in H. lia.
  - intros Ha. pose proof (pow2_le 5 a Ha) as H.
    change (2 ^ Z.of_nat 5) with 32 in H. lia.
Qed.

(** X2. The shouldRetry of best-practices.md retries an error exactly when its
    name is TransientError: a BusinessLogicError is never retried, whatever
    the attempt, so the test attempt >= 3 of its second line decides
    nothing. *)
Theorem shouldRetryByName_transient_only (e : error) (m : KafkaMessage)
    (attempt : nat) :
  shouldRetryByName e m attempt = String.eqb (name e) "TransientError".
Proof.
  unfold shouldRetryByName.
  destruct (String.eqb (name e) "ValidationError") eqn:Hv.
  - apply String.eqb_eq in Hv. rewrite Hv. reflexivity.
  - destruct (String.eqb (name e) "BusinessLogicError") eqn:Hb; cbn [andb].
    + apply String.eqb_eq in Hb. rewrite Hb.
      destruct (3 <=? attempt)%nat; reflexivity.
    + reflexivity.
Qed.

End RetryPolicyFacts.

(** ** Backpressure controller: the counter *)

Section BackpressureFacts.
Import Backpressure.
Variable maxConcurrency : Z.
Variable threshold : Number.number.

Local Abbreviation stepc := (step maxConcurrency threshold).
Local Abbreviation runc := (run maxConcurrency threshold).

(** Calls of beforeBatchProcessing less calls of afterBatchProcessing. *)
Definition netCalls (ks : list call) : Z :=
  Z.of_nat (length (List.filter (fun k => match k with Before => true | After => false end) ks)) -
  Z.of_nat (length (List.filter (fun k => match k with Before => false | After => true end) ks)).

Lemma step_activeBatches (k : call) (c : controller) :
  activeBatches (fst (stepc k c)) =
  activeBatches c + match k with Before => 1 | After => -1 end.
Proof.
  destruct k; cbn [step]; unfold beforeBatchProcessing, afterBatchProcessing;
    match goal with |- context [if ?b then _ else _] => destruct b end;
    cbn [fst activeBatches]; lia.
Qed.

(** X3. activeBatches counts the calls of beforeBatchProcessing less the
    calls of afterBatchProcessing, whatever the thresholds: nothing
    keeps it from going below zero when afterBatchProcessing is called
    more often. *)
Theorem activeBatches_counts_calls (ks : list call) (c : controller) :
  activeBatches (fst (runc ks c)) = activeBatches c + netCalls ks.
Proof.
  revert c; induction ks as [| k ks IH]; intros c; cbn [run].
  - unfold netCalls; cbn. lia.
  - specialize (IH (fst (stepc k c))).
    pose proof (step_activeBatches k c) as Hk.
    destruct (stepc k c) as [c1 es1]; cbn [fst] in *.
    destruct (runc ks c1) as [c2 es2]; cbn [fst] in *.
    rewrite IH, Hk. unfold netCalls.
    destruct k; cbn [List.filter length]; lia.
Qed.

End BackpressureFacts.

(** ** Circuit breaker: what the state between calls says *)

Section CircuitBreakerFacts.
Import CircuitBreaker.
Variable failureThreshold : Z.
Variable resetTimeout : Z.

Local Abbreviation sendc := (send failureThreshold resetTimeout).
Local Abbreviation reachablec := (reachable failureThreshold resetTimeout).

Lemma reachable_count (b : breaker) :
  1 <= failureThreshold -> reachablec b ->
  0 <= failureCount b /\
  (circuitState b = CLOSED -> failureCount b < failureThreshold).
Proof.
  intros Ht. induction 1 as [| now f b Hr [Hc Hl]].
  - cbn. split; [lia | intros _; lia].
  - pose proof (reachable_inv _ _ b Hr) as [Hh Ho].
    unfold send, checkCircuit.
    destruct (circuitState b) eqn:Hs; try congruence.
    + specialize (Hl eq_refl).
      destruct f as [| t]; cbn [fst onSuccess onFailure circuitState failureCount];
        rewrite ?Hs; cbn [circuit_eqb].
      * split; [lia | intros _; lia].
      * destruct (failureThreshold <=? failureCount b + 1) eqn:Hle.
        -- split; [lia | discriminate].
        -- split; [lia | intros _; lia].
    + destruct (now - lastFailureTime b <? resetTimeout); cbn [fst].
      * rewrite Hs. split; [lia | discriminate].
      * destruct f as [| t];
          cbn [fst onSuccess onFailure circuitState failureCount circuit_eqb].
        -- split; [lia | intros _; lia].
        -- destruct (failureThreshold <=? failureCount b + 1) eqn:Hle.
           ++ split; [lia | discriminate].
           ++ split; [lia | discriminate].
Qed.

Lemma interleaved_count (s : system) :
  interleaved failureThreshold resetTimeout s -> 0 <= failureCount (ctl s).
Proof.
  induction 1 as [| mv s s' Hr IH Hstep]; [cbn; lia |].
  assert (Hc : forall now b1, checkCircuit resetTimeout now (ctl s) = Some b1 ->
                 failureCount b1 = failureCount (ctl s)).
  { intros now b1. unfold checkCircuit.
    destruct (circuitState (ctl s)); try (now intros [= <-]).
    destruct (now - lastFailureTime (ctl s) <? resetTimeout);
      [discriminate | now intros [= <-]]. }
  destruct mv as [now stringify | f]; cbn [moveStep] in Hstep.
  - destruct (checkCircuit resetTimeout now (ctl s)) as [b1 |] eqn:Hb.
    + specialize (Hc now b1 Hb).
      destruct stringify; injection Hstep as <-;
        cbn [ctl onFailure failureCount]; lia.
    + injection Hstep as <-. exact IH.
  - destruct (awaiting s); [discriminate |]. injection Hstep as <-.
    destruct f; cbn [ctl onSuccess onFailure failureCount]; lia.
Qed.

(** X5. With a failure threshold of at least 1 and sends that do not
    overlap, between two sends the circuit is closed exactly when fewer
    than failureThreshold failures have been counted since the last
    success, and open exactly when at least failureThreshold have; the
    circuit is never left half open.  Whether sends overlap or not, the
    count is never negative. *)
Theorem circuit_state_tracks_count (b : breaker) :
  1 <= failureThreshold -> reachablec b ->
  0 <= failureCount b /\
  (circuitState b = CLOSED <-> failureCount b < failureThreshold) /\
  (circuitState b = OPEN <-> failureThreshold <= failureCount b) /\
  circuitState b <> HALF_OPEN /\
  (forall s, interleaved failureThreshold resetTimeout s ->
     0 <= failureCount (ctl s)).
Proof.
  intros Ht Hr.
  destruct (reachable_count b Ht Hr) as [Hc Hl].
  destruct (reachable_inv _ _ b Hr) as [Hh Ho].
  split; [exact Hc |].
  assert (Hi := interleaved_count).
  destruct (circuitState b) eqn:Hs; try congruence.
  - specialize (Hl eq_refl).
    split; [| split; [| split]]; [tauto | | discriminate | exact Hi].
    split; [discriminate | lia].
  - specialize (Ho eq_refl).
    split; [| split; [| split]]; [| tauto | discriminate | exact Hi].
    split; [discriminate | lia].
Qed.

(** When a call of send is rejected. *)
Lemma send_rejected_iff (now : Z) (f : fate) (b : breaker) :
  snd (sendc now f b) = Rejected <->
  circuitState b = OPEN /\ now - lastFailureTime b < resetTimeout.
Proof.
  unfold send, checkCircuit.
  destruct (circuitState b) eqn:Hs.
  - destruct f; cbn [snd]; split; [discriminate | intros [? _]; discriminate
                                  | discriminate | intros [? _]; discriminate].
  - destruct (now - lastFailureTime b <? resetTimeout) eqn:Hlt.
    + cbn [snd]. split; [intros _; split; [reflexivity | lia] | reflexivity].
    + destruct f; cbn [snd]; split; try discriminate; intros [_ ?]; lia.
  - destruct f; cbn [snd]; split; [discriminate | intros [? _]; discriminate
                                  | discriminate | intros [? _]; discriminate].
Qed.

Lemma send_rejected_same (now : Z) (f : fate) (b : breaker) :
  circuitState b = OPEN -> now - lastFailureTime b < resetTimeout ->
  sendc now f b = (b, Rejected).
Proof.
  intros Hs Hlt. unfold send, checkCircuit. rewrite Hs.
  destruct (now - lastFailureTime b <? resetTimeout) eqn:H; [reflexivity | lia].
Qed.

Lemma sendAll_reachable (calls : list (Z * fate)) (b : breaker) :
  reachablec b ->
  reachablec (fst (sendAll failureThreshold resetTimeout calls b)).
Proof.
  revert b; induction calls as [| [now f] rest IH]; intros b Hb; cbn [sendAll].
  - exact Hb.
  - specialize (IH (fst (sendc now f b)) (reachable_send _ _ now f b Hb)).
    destruct (sendc now f b) as [b1 r]; cbn [fst] in *.
    destruct (sendAll failureThreshold resetTimeout rest b1) as [b2 rs]; cbn [fst] in *.
    exact IH.
Qed.

End CircuitBreakerFacts.

(** Threshold 5: after five failed calls the circuit is open. *)
Lemma circuit_state_tracks_count_witness :
  CircuitBreaker.circuitState
    (fst (CircuitBreaker.sendAll 5 60000
            (CircuitBreaker.failures [(1, 2); (3, 4); (5, 6); (7, 8); (9, 10)])
            CircuitBreaker.init)) = CircuitBreaker.OPEN.
Proof.
  apply (circuit_state_tracks_count 5 60000);
    [lia | apply sendAll_reachable; constructor | vm_compute; discriminate].
Defined.

(** ** sendWithRetry over the circuit breaker
       (docs/kafka/best-practices.md, 1155-1179) *)

Module RetryingProducer.
Import CircuitBreaker.

(** const maxAttempts = 3; const baseDelay = 100 *)
Definition maxAttempts : nat := 3.
Definition baseDelay : Z := 100.

(** What sendWithRetry does besides calling send, in the order it does
    it. *)
Inductive effect : Type :=
| Sleep (ms : Z)                (* await this.sleep(delay) *)
| RecordRetry (attempt : nat)   (* this.metrics.recordRetry(attempt) *)
| PermanentFailure.             (* await this.handlePermanentFailure(message, error) *)

(** How sendWithRetry ends. *)
Inductive ending : Type :=
| Returned      (* return await this.circuitBreakerProducer.send(...) *)
| Rethrown      (* throw error, after handlePermanentFailure *)
| LoopExit.     (* the while condition fails: the function returns undefined *)

Record report : Type := Report {
  breakerAfter : breaker;
  sends : list result;       (* the calls of circuitBreakerProducer.send *)
  effects : list effect;
  ended : ending
}.

Section Loop.
Variable failureThreshold : Z.
Variable resetTimeout : Z.
(** For the n-th call of send (from 0): the Date.now() its check reads
    and the fate of its producer.send. *)
Variable world : nat -> Z * fate.

(** The while loop, [attempt] being the local variable; one unit of
    [fuel] per iteration.  sleep and handlePermanentFailure are taken to
    resolve. *)
Fixpoint retryLoop (fuel attempt : nat) (b : breaker) : report :=
  match fuel with
  | O => {| breakerAfter := b; sends := []; effects := []; ended := LoopExit |}
  | S fuel' =>
      if (attempt <? maxAttempts)%nat then
        let '(b1, r) :=
          send failureThreshold resetTimeout
            (fst (world attempt)) (snd (world attempt)) b in
        match r with
        | Sent =>
            {| breakerAfter := b1; sends := [r]; effects := [];
               ended := Returned |}
        | Rejected | SendFailed =>
            let attempt1 := S attempt in
            if (maxAttempts <=? attempt1)%nat then
              {| breakerAfter := b1; sends := [r];
                 effects := [PermanentFailure]; ended := Rethrown |}
            else
              let rest := retryLoop fuel' attempt1 b1 in
              {| breakerAfter := breakerAfter rest;
                 sends := r :: sends rest;
                 effects :=
                   Sleep (baseDelay * 2 ^ (Z.of_nat attempt1 - 1)) ::
                   RecordRetry attempt1 :: effects rest;
                 ended := ended rest |}
        end
      else {| breakerAfter := b; sends := []; effects := []; ended := LoopExit |}
  end.

(** let attempt = 0; while (attempt < maxAttempts) ...: an iteration that
    does not leave the function increments attempt, so maxAttempts
    iterations are all there can be. *)
Definition sendWithRetry (b : breaker) : report :=
  retryLoop maxAttempts 0 b.

End Loop.

(** The effects of a call that failed for good. *)
Definition exhausted : list effect :=
  [Sleep 100; RecordRetry 1; Sleep 200; RecordRetry 2; PermanentFailure].

End RetryingProducer.

Section RetryingProducerProofs.
Import CircuitBreaker RetryingProducer.
Variable failureThreshold : Z.
Variable resetTimeout : Z.
Variable world : nat -> Z * fate.

Local Abbreviation sendWithRetryc :=
  (sendWithRetry failureThreshold resetTimeout world).

(** More fuel than maxAttempts changes nothing: the loop has ended. *)
Lemma retryLoop_fuel (extra : nat) (b : breaker) :
  retryLoop failureThreshold resetTimeout world (maxAttempts + extra) 0 b =
  sendWithRetryc b.
Proof.
  unfold sendWithRetry, maxAttempts. cbn [Nat.add retryLoop].
  cbn [Nat.ltb Nat.leb maxAttempts].
  destruct (send _ _ (fst (world 0%nat)) _ b) as [b1 [| |]]; try reflexivity;
  destruct (send _ _ (fst (world 1%nat)) _ b1) as [b2 [| |]]; try reflexivity;
  destruct (send _ _ (fst (world 2%nat)) _ b2) as [b3 [| |]]; reflexivity.
Qed.

(** X6. sendWithRetry calls send at least once and at most three times and
    returns at the first call that succeeds; it never leaves the loop by
    its while condition.  When it returns, it has slept 100 ms and 200 ms
    after the failures before, one recordRetry each.  When it rethrows,
    all three calls have failed, it has slept 100 ms and 200 ms and
    reported the permanent failure once: the 400 ms of the comment are
    never slept. *)
Theorem sendWithRetry_behaviour (b : breaker) :
  let r := sendWithRetryc b in
  ended r <> LoopExit /\
  (1 <= length (sends r) <= 3)%nat /\
  (forall i : nat, sends r !! i = Some Sent ->
     S i = length (sends r) /\ ended r = Returned) /\
  (ended r = Returned ->
   last (sends r) = Some Sent /\
   effects r = take (2 * (length (sends r) - 1)) exhausted) /\
  (ended r = Rethrown ->
   length (sends r) = 3%nat /\ Forall (fun x => x <> Sent) (sends r) /\
   effects r = exhausted) /\
  (forall ms, Sleep ms ∈ effects r -> ms = 100 \/ ms = 200).
Proof.
  cbv zeta. unfold sendWithRetry, maxAttempts, exhausted. cbn [retryLoop].
  cbn [Nat.ltb Nat.leb maxAttempts].
  change (baseDelay * 2 ^ (Z.of_nat 1 - 1)) with 100.
  change (baseDelay * 2 ^ (Z.of_nat 2 - 1)) with 200.
  assert (Hsl : forall ms,
            Sleep ms ∈ [Sleep 100; RecordRetry 1; Sleep 200; RecordRetry 2;
                        PermanentFailure] ->
            ms = 100 \/ ms = 200).
  { intros ms H. rewrite !elem_of_cons, elem_of_nil in H.
    destruct H as [H | [H | [H | [H | [H | H]]]]];
      try discriminate; try (injection H as ->; auto).
    contradiction. }
  destruct (send _ _ (fst (world 0%nat)) _ b) as [b1 r1];
    destruct r1;
    [ destruct (send _ _ (fst (world 1%nat)) _ b1) as [b2 r2];
      destruct r2;
      [ destruct (send _ _ (fst (world 2%nat)) _ b2) as [b3 r3]; destruct r3 | |
        destruct (send _ _ (fst (world 2%nat)) _ b2) as [b3 r3]; destruct r3 ]
    | | destruct (send _ _ (fst (world 1%nat)) _ b1) as [b2 r2];
      destruct r2;
      [ destruct (send _ _ (fst (world 2%nat)) _ b2) as [b3 r3]; destruct r3 | |
        destruct (send _ _ (fst (world 2%nat)) _ b2) as [b3 r3]; destruct r3 ] ];
    cbn [breakerAfter sends effects ended length last].
  all: split; [discriminate |].
  all: split; [lia |].
  all: split;
    [ intros [| [| [| i]]] H; cbn in H; try discriminate; auto |].
  all: split; [first [discriminate | intros _; split; reflexivity] |].
  all: split;
    [ first [ discriminate
            | intros _; split; [reflexivity |]; split; [| reflexivity];
              repeat constructor; discriminate ] |].
  all: intros ms H; apply Hsl.
  all: rewrite !elem_of_cons in *; rewrite ?elem_of_nil in *; tauto.
Qed.

(** X7. sendWithRetry is a run of calls of send on the breaker, one after the
    other: the breaker it leaves and the results it saw are those of
    sendAll over as many calls, so what holds between calls of send
    holds after sendWithRetry. *)
Theorem sendWithRetry_is_sendAll (b : breaker) :
  let r := sendWithRetryc b in
  sendAll failureThreshold resetTimeout
    (map world (seq 0 (length (sends r)))) b = (breakerAfter r, sends r) /\
  (reachable failureThreshold resetTimeout b ->
   reachable failureThreshold resetTimeout (breakerAfter r)).
Proof.
  cbv zeta.
  assert (H : sendAll failureThreshold resetTimeout
                (map world (seq 0 (length (sends (sendWithRetryc b))))) b =
              (breakerAfter (sendWithRetryc b), sends (sendWithRetryc b))).
  { unfold sendWithRetry, maxAttempts. cbn [retryLoop].
    cbn [Nat.ltb Nat.leb maxAttempts].
    destruct (send _ _ (fst (world 0%nat)) _ b) as [b1 r1] eqn:H1;
      destruct r1;
      [ destruct (send _ _ (fst (world 1%nat)) _ b1) as [b2 r2] eqn:H2;
        destruct r2;
        [ destruct (send _ _ (fst (world 2%nat)) _ b2) as [b3 r3] eqn:H3;
          destruct r3 | |
          destruct (send _ _ (fst (world 2%nat)) _ b2) as [b3 r3] eqn:H3;
          destruct r3 ]
      | | destruct (send _ _ (fst (world 1%nat)) _ b1) as [b2 r2] eqn:H2;
        destruct r2;
        [ destruct (send _ _ (fst (world 2%nat)) _ b2) as [b3 r3] eqn:H3;
          destruct r3 | |
          destruct (send _ _ (fst (world 2%nat)) _ b2) as [b3 r3] eqn:H3;
          destruct r3 ] ];
      cbn [breakerAfter sends length seq map sendAll];
      repeat match goal with
             | |- context [world ?n] =>
                 destruct (world n) as [? ?]; cbn [fst snd] in *
             end;
      rewrite ?H1, ?H2, ?H3; reflexivity. }
  split; [exact H |].
  intros Hb.
  replace (breakerAfter (sendWithRetryc b)) with
    (fst (sendAll failureThreshold resetTimeout
            (map world (seq 0 (length (sends (sendWithRetryc b))))) b))
    by now rewrite H.
  now apply sendAll_reachable.
Qed.

(** X8. On an open circuit, with every check falling within resetTimeout of
    the last failure, sendWithRetry makes no call of producer.send and
    leaves the breaker as it was, yet goes through all three attempts:
    it sleeps 100 ms and 200 ms, records two retries and reports a
    permanent failure. *)
Theorem sendWithRetry_open_circuit (b : breaker) :
  circuitState b = OPEN ->
  (forall n, (n < 3)%nat -> fst (world n) - lastFailureTime b < resetTimeout) ->
  sendWithRetryc b =
  {| breakerAfter := b; sends := [Rejected; Rejected; Rejected];
     effects := exhausted; ended := Rethrown |}.
Proof.
  intros Hs Hw.
  unfold sendWithRetry, maxAttempts. cbn [retryLoop].
  cbn [Nat.ltb Nat.leb maxAttempts].
  rewrite !(send_rejected_same _ _ _ _ b Hs) by (apply Hw; lia).
  reflexivity.
Qed.

End RetryingProducerProofs.

(** A breaker that opened at time 1000, tried again at 2000. *)
Lemma sendWithRetry_open_circuit_witness :
  RetryingProducer.sends
    (RetryingProducer.sendWithRetry 5 60000
       (fun _ => (2000, CircuitBreaker.Resolves))
       (CircuitBreaker.Breaker 5 CircuitBreaker.OPEN 1000)) =
  [CircuitBreaker.Rejected; CircuitBreaker.Rejected; CircuitBreaker.Rejected].
Proof.
  rewrite (sendWithRetry_open_circuit 5 60000
             (fun _ => (2000, CircuitBreaker.Resolves))
             (CircuitBreaker.Breaker 5 CircuitBreaker.OPEN 1000));
    [reflexivity | reflexivity | intros n _; reflexivity].
Defined.

(** ** Adaptive controller: the window of processing times
       (docs/kafka/best-practices.md, 946-967) *)

Module AdaptiveWindow.
Import Adaptive.

(** private readonly windowSize = 100 *)
Definition windowSize : nat := 100.

(** The mutable fields of [AdaptiveBackpressureController]. *)
Record controller : Type := Controller {
  processingTimeHistory : list Q;
  tune : tuning
}.

Section Config.
Variable maxConcurrency : Z.
(** this.config.targetLatency, [None] when it is not set. *)
Variable targetLatency : option Q.
(** this.calculateAverage(), which the page does not show, as a function
    of the history it reads. *)
Variable calculateAverage : list Q -> Q.

(** this.config.targetLatency || 1000: 0 is falsy, as undefined is. *)
Definition targetProcessingTime : Q :=
  match targetLatency with
  | Some t => if Qeq_bool t 0 then 1000%Q else t
  | None => 1000%Q
  end.

(** push(duration), then shift() when the history is longer than
    windowSize. *)
Definition recordDuration (duration : Q) (history : list Q) : list Q :=
  let h1 := history ++ [duration] in
  if (windowSize <? length h1)%nat then tail h1 else h1.

Definition afterBatchProcessing (c : controller) (duration : Q) : controller :=
  let h := recordDuration duration (processingTimeHistory c) in
  let avgProcessingTime := calculateAverage h in
  {| processingTimeHistory := h;
     tune :=
       if negb (Qle_bool avgProcessingTime (targetProcessingTime * (3 # 2)))
       then adjustConcurrency maxConcurrency Decrease (tune c)
       else if negb (Qle_bool (targetProcessingTime * (1 # 2)) avgProcessingTime)
       then adjustConcurrency maxConcurrency Increase (tune c)
       else tune c |}.

(** The calls of afterBatchProcessing for a run of batches, oldest
    first. *)
Definition run (durations : list Q) (c : controller) : controller :=
  fold_left afterBatchProcessing durations c.

End Config.

End AdaptiveWindow.

Section AdaptiveWindowProofs.
Import Adaptive AdaptiveWindow.
Variable maxConcurrency : Z.
Variable targetLatency : option Q.
Variable calculateAverage : list Q -> Q.

Local Abbreviation runc := (run maxConcurrency targetLatency calculateAverage).
Local Abbreviation afterc :=
  (afterBatchProcessing maxConcurrency targetLatency calculateAverage).

Lemma recordDuration_window (d : Q) (h : list Q) :
  (length h <= windowSize)%nat ->
  recordDuration d h = drop (length (h ++ [d]) - windowSize) (h ++ [d]) /\
  (length (recordDuration d h) <= windowSize)%nat.
Proof.
  intros Hl. unfold recordDuration. cbv zeta.
  rewrite length_app; cbn [length].
  destruct (windowSize <? length h + 1)%nat eqn:Hw.
  - apply Nat.ltb_lt in Hw.
    replace (length h + 1 - windowSize)%nat with 1%nat by lia.
    split; [destruct (h ++ [d]); reflexivity |].
    destruct (h ++ [d]) eqn:He; cbn [tail length].
    + lia.
    + apply (f_equal (@length _)) in He. rewrite length_app in He.
      cbn [length] in He. lia.
  - apply Nat.ltb_ge in Hw.
    replace (length h + 1 - windowSize)%nat with 0%nat by lia.
    split; [reflexivity |]. rewrite length_app; cbn [length]. lia.
Qed.

Lemma run_window (durations : list Q) :
  forall c : controller,
  (length (processingTimeHistory c) <= windowSize)%nat ->
  processingTimeHistory (runc durations c) =
    drop (length (processingTimeHistory c ++ durations) - windowSize)
         (processingTimeHistory c ++ durations) /\
  (length (processingTimeHistory (runc durations c)) <= windowSize)%nat.
Proof.
  induction durations as [| d ds IH]; intros c Hc.
  - cbn [run fold_left]. rewrite app_nil_r.
    replace (length (processingTimeHistory c) - windowSize)%nat with 0%nat by lia.
    split; [reflexivity | exact Hc].
  - change (runc (d :: ds) c) with (runc ds (afterc c d)).
    destruct (recordDuration_window d (processingTimeHistory c) Hc) as [Hr Hl].
    destruct (IH (afterc c d)) as [H1 H2]; [exact Hl |].
    split; [| exact H2].
    rewrite H1. cbn [afterBatchProcessing processingTimeHistory].
    rewrite Hr, !length_app, length_drop, !length_app. cbn [length].
    set (h := processingTimeHistory c) in *.
    replace (h ++ d :: ds) with ((h ++ [d]) ++ ds)
      by (rewrite <- app_assoc; reflexivity).
    destruct (Nat.le_gt_cases (length h + 1) windowSize) as [Hle | Hgt].
    + replace (length h + 1 - windowSize)%nat with 0%nat by lia.
      rewrite drop_0. f_equal. lia.
    + replace (length h + 1 - windowSize)%nat with 1%nat by lia.
      assert (Hlen : (1 <= length (h ++ [d]))%nat)
        by (rewrite length_app; cbn [length]; lia).
      rewrite <- (drop_app_le (h ++ [d]) ds 1) by exact Hlen.
      rewrite drop_drop. f_equal. lia.
Qed.

(** X9. From an empty history, processingTimeHistory holds the durations of
    the last 100 batches, oldest first, and all of them while fewer than
    100 have completed: it never grows beyond windowSize. *)
Theorem history_is_last_window (tuning0 : tuning) (durations : list Q) :
  let c := runc durations {| processingTimeHistory := []; tune := tuning0 |} in
  processingTimeHistory c = drop (length durations - windowSize) durations /\
  (length (processingTimeHistory c) <= windowSize)%nat /\
  ((length durations <= windowSize)%nat -> processingTimeHistory c = durations).
Proof.
  cbv zeta.
  destruct (run_window durations
              {| processingTimeHistory := []; tune := tuning0 |})
    as [H1 H2]; [cbn; unfold windowSize; lia |].
  cbn [processingTimeHistory app] in H1.
  split; [exact H1 |]. split; [exact H2 |].
  intros Hl. rewrite H1.
  replace (length durations - windowSize)%nat with 0%nat by lia.
  apply drop_0.
Qed.

Lemma after_in_range (c : controller) (d : Q) :
  1 <= maxConcurrency ->
  1 <= currentConcurrency (tune c) <= maxConcurrency /\
  50 <= threshold (tune c) <= 90 ->
  1 <= currentConcurrency (tune (afterc c d)) <= maxConcurrency /\
  50 <= threshold (tune (afterc c d)) <= 90.
Proof.
  intros Hm [Hc Ht]. cbn [afterBatchProcessing tune].
  destruct (negb _); [| destruct (negb _)];
    cbn [adjustConcurrency currentConcurrency threshold]; lia.
Qed.

(** X10. Whatever calculateAverage returns and whatever the target latency,
    a controller that starts with its limit within [1, maxConcurrency]
    and its threshold within [50, 90] keeps both there over every run of
    batches, and each batch moves the limit by at most one and the
    threshold by at most ten. *)
Theorem adaptive_run_in_range (durations : list Q) (c : controller) :
  1 <= maxConcurrency ->
  1 <= currentConcurrency (tune c) <= maxConcurrency ->
  50 <= threshold (tune c) <= 90 ->
  1 <= currentConcurrency (tune (runc durations c)) <= maxConcurrency /\
  50 <= threshold (tune (runc durations c)) <= 90 /\
  (forall d,
     Z.abs (currentConcurrency (tune (afterc (runc durations c) d)) -
            currentConcurrency (tune (runc durations c))) <= 1 /\
     Z.abs (threshold (tune (afterc (runc durations c) d)) -
            threshold (tune (runc durations c))) <= 10).
Proof.
  intros Hm Hc Ht.
  assert (H : 1 <= currentConcurrency (tune (runc durations c)) <= maxConcurrency /\
              50 <= threshold (tune (runc durations c)) <= 90).
  { revert c Hc Ht. induction durations as [| d ds IH]; intros c Hc Ht.
    - cbn. auto.
    - change (runc (d :: ds) c) with (runc ds (afterc c d)).
      destruct (after_in_range c d Hm (conj Hc Ht)) as [H1 H2].
      now apply IH. }
  destruct H as [H1 H2]. split; [exact H1 |]. split; [exact H2 |].
  intros d. cbn [afterBatchProcessing tune].
  destruct (negb _); [| destruct (negb _)];
    cbn [adjustConcurrency currentConcurrency threshold]; lia.
Qed.

End AdaptiveWindowProofs.

(** A limit of 2 out of 5 at threshold 80, three slow batches. *)
Lemma adaptive_run_in_range_witness :
  50 <= Adaptive.threshold
          (AdaptiveWindow.tune
             (AdaptiveWindow.run 5 None (fun _ => 2000%Q) [2000%Q; 2000%Q; 2000%Q]
                (AdaptiveWindow.Controller [] (Adaptive.Tuning 2 80)))) <= 90.
Proof.
  apply (adaptive_run_in_range 5 None (fun _ => 2000%Q) [2000%Q; 2000%Q; 2000%Q]
           (AdaptiveWindow.Controller [] (Adaptive.Tuning 2 80)));
    [lia | cbn; lia | cbn; lia].
Defined.

(** ** Key grouping: what the grouped record holds *)

Section GroupingFacts.
Import Grouping.
Context {A : Type}.
Variable item : KafkaMessage -> A.

(** What the record of the reducer holds, when no message makes it
    throw. *)
Lemma groupBy_record (messages : list KafkaMessage) :
  (forall k l, groupBy item messages !! k = Some l ->
     l <> [] /\ l = map item (ofKey k messages)) /\
  (forall k, is_Some (groupBy item messages !! k) <->
     exists m, m ∈ messages /\ keyOf m = k) /\
  (forall m, m ∈ messages ->
     exists l, groupBy item messages !! keyOf m = Some l /\ item m ∈ l) /\
  (messages = [] <-> groupBy item messages = ∅).
Proof.
  split; [| split; [| split]].
  - intros k l. rewrite groupBy_lookup.
    destruct (ofKey k messages) as [| x xs]; [discriminate |].
    intros [= <-]. split; [discriminate | reflexivity].
  - intros k. rewrite groupBy_lookup. unfold ofKey.
    destruct (filter _ messages) as [| x xs] eqn:Hf.
    + split; [intros [? ?]; discriminate |].
      intros (m & Hm & Hk).
      assert (Hin : m ∈ filter (fun m => keyOf m = k) messages)
        by now rewrite list_elem_of_filter.
      rewrite Hf in Hin. inversion Hin.
    + split; [intros _ | eauto].
      assert (Hin : x ∈ filter (fun m => keyOf m = k) messages)
        by (rewrite Hf; constructor).
      rewrite list_elem_of_filter in Hin. exists x. tauto.
  - intros m Hm. rewrite groupBy_lookup.
    assert (Hin : m ∈ ofKey (keyOf m) messages)
      by (unfold ofKey; now rewrite list_elem_of_filter).
    destruct (ofKey (keyOf m) messages) as [| x xs] eqn:Hf; [inversion Hin |].
    eexists; split; [reflexivity |]. now apply list_elem_of_fmap_2.
  - split; [intros ->; reflexivity |].
    intros He. destruct messages as [| m ms]; [reflexivity | exfalso].
    assert (Hl : groupBy item (m :: ms) !! keyOf m = None)
      by (rewrite He; apply lookup_empty).
    rewrite groupBy_lookup in Hl. unfold ofKey in Hl.
    rewrite filter_cons_True in Hl by reflexivity. discriminate.
Qed.

(** X12. msg.key?.toString() of a message without key is undefined, and the
    property it names is "undefined": the messages without key share one
    array with the messages whose key is the string "undefined", in
    arrival order. *)
Theorem keyless_grouped_under_undefined (messages : list KafkaMessage) :
  groupBy item messages !! "undefined" =
  match filter (fun m => key m = None \/ key m = Some "undefined") messages with
  | [] => None
  | l => Some (map item l)
  end.
Proof.
  rewrite groupBy_lookup. unfold ofKey.
  rewrite (list_filter_iff (fun m => keyOf m = "undefined")
             (fun m => key m = None \/ key m = Some "undefined")).
  - destruct (filter _ messages); reflexivity.
  - intros m. unfold keyOf. destruct (key m) as [k |].
    + split; [intros ->; auto | intros [? | [= ->]]; [discriminate | reflexivity]].
    + split; auto.
Qed.

End GroupingFacts.

(** ** groupByCustomer: when it throws and what it returns *)

Section GroupByCustomerFacts.
Import Grouping Parsing.
Context {A : Type}.
Variable parse : string -> option A.

(** X11. When groupByCustomer returns, it has lost and invented nothing:
    every property of the record is a non-empty array, the parsed values
    of the messages of that key in arrival order; the properties are the
    keys that occur in the batch; every message has its parsed value in
    the array of its key; the record is empty for the empty batch
    only. *)
Theorem groupByCustomer_complete (messages : list KafkaMessage)
    (rec : gmap string (list A)) :
  groupByCustomer parse messages = inr rec ->
  (forall k l, rec !! k = Some l ->
     l <> [] /\
     map Some l = map (fun m => parse (value m)) (ofKey k messages)) /\
  (forall k, is_Some (rec !! k) <->
     exists m, m ∈ messages /\ keyOf m = k) /\
  (forall m, m ∈ messages ->
     exists l v, rec !! keyOf m = Some l /\ parse (value m) = Some v /\ v ∈ l) /\
  (messages = [] <-> rec = ∅).
Proof.
  intros Hrec.
  pose proof (fun k => groupByCustomer_lookup parse messages rec k Hrec) as Hl.
  assert (Hof : forall k, ofKey k messages <> [] <->
                  exists m, m ∈ messages /\ keyOf m = k).
  { intros k. unfold ofKey. split.
    - intros Hne. destruct (filter _ messages) as [| x xs] eqn:Hf; [congruence |].
      assert (Hin : x ∈ filter (fun m => keyOf m = k) messages)
        by (rewrite Hf; constructor).
      rewrite list_elem_of_filter in Hin. exists x. tauto.
    - intros (m & Hm & Hk) Hf.
      assert (Hin : m ∈ filter (fun m => keyOf m = k) messages)
        by now rewrite list_elem_of_filter.
      rewrite Hf in Hin. inversion Hin. }
  split; [| split; [| split]].
  - intros k l Hk. specialize (Hl k). now rewrite Hk in Hl.
  - intros k. rewrite <- Hof. specialize (Hl k).
    destruct (rec !! k) as [l |].
    + destruct Hl as [Hne Hmap]. split; [intros _ Hf | eauto].
      rewrite Hf in Hmap. destruct l; [congruence | discriminate].
    + split; [intros [? ?]; discriminate | intros Hne; contradiction].
  - intros m Hm.
    assert (Hin : m ∈ ofKey (keyOf m) messages)
      by (unfold ofKey; now rewrite list_elem_of_filter).
    specialize (Hl (keyOf m)).
    destruct (rec !! keyOf m) as [l |]; [| rewrite Hl in Hin; inversion Hin].
    destruct Hl as [_ Hmap].
    assert (Hp : parse (value m) ∈ map Some l).
    { rewrite Hmap. now apply (list_elem_of_fmap_2 (fun m => parse (value m))). }
    apply list_elem_of_fmap in Hp as (v & Hv & Hvl).
    exists l, v. auto.
  - split.
    + intros ->. cbn in Hrec. now injection Hrec as <-.
    + intros ->. destruct messages as [| m ms]; [reflexivity | exfalso].
      specialize (Hl (keyOf m)). rewrite lookup_empty in Hl.
      unfold ofKey in Hl. rewrite filter_cons_True in Hl by reflexivity.
      discriminate.
Qed.

(** X13. groupByCustomer returns exactly when the value of every message
    parses and no key is a name that the record inherits from
    Object.prototype, such as constructor or toString.  Otherwise it
    throws, and returns no record at all, not even for the customers
    whose orders all parse: what it throws is decided by the first
    message it does not take, SyntaxError when its value does not parse,
    TypeError when it parses and its key is an inherited name.  When it
    returns, and item gives the parsed value of each message, the
    record is the grouping of these values by key. *)
Theorem groupByCustomer_all_or_nothing (messages : list KafkaMessage) :
  ((exists rec, groupByCustomer parse messages = inr rec) <->
   forall m, m ∈ messages -> accepted parse m) /\
  (forall e, groupByCustomer parse messages = inl e ->
     exists l1 m l2,
       messages = l1 ++ m :: l2 /\
       (forall x, x ∈ l1 -> accepted parse x) /\
       match e with
       | SyntaxError => parse (value m) = None
       | TypeError => is_Some (parse (value m)) /\ keyOf m ∈ inheritedNames
       end) /\
  (forall item : KafkaMessage -> A,
     (forall m, m ∈ messages ->
        parse (value m) = Some (item m) /\ keyOf m ∉ inheritedNames) ->
     groupByCustomer parse messages = inr (groupBy item messages)).
Proof.
  split; [apply fold_pushParsed_returns |].
  split; [intros e; apply fold_pushParsed_throws |].
  intros item Hall. now apply fold_pushParsed_item.
Qed.

End GroupByCustomerFacts.

(** The batch of the scenario, whose values are the numerals 101, 102
    and 103. *)
Lemma groupByCustomer_complete_witness :
  exists l v,
    ({["A" := [101; 102]; "B" := [103]]} : gmap string (list Z))
      !! Grouping.keyOf orderA1 = Some l /\
    Json.parseNumeral (value orderA1) = Some v /\ v ∈ l.
Proof.
  destruct (groupByCustomer_complete Json.parseNumeral scenarioBatch
              {["A" := [101; 102]; "B" := [103]]})
    as (_ & _ & H & _); [vm_compute; reflexivity |].
  apply H. unfold scenarioBatch. constructor.
Defined.

(** ** Dispatch of a batch: what becomes of the messages of a key *)

Section DispatcherFacts.
Import Dispatcher.
Variable limit : option nat.

Local Abbreviation reachablec := (reachable limit).

(** X14. In every state of the dispatch the messages of a key are, in arrival
    order, those the handler is done with, the one it is running on or
    failed on, and those still to come.  A KeyGroup that succeeded has
    had every message of its key processed; in one that was handed to
    the failure router the messages behind the failed one were left
    unprocessed. *)
Theorem keygroup_progress (batch : list KafkaMessage) (d : dispatcher)
    (k : string) (g : KeyGroup) :
  reachablec batch d ->
  groups d !! k = Some g ->
  completed g `prefix_of` Grouping.ofKey k batch /\
  (outcome g = Some GroupSucceeded -> completed g = Grouping.ofKey k batch) /\
  (forall m, outcome g = Some (GroupHandedOff m) ->
     Grouping.ofKey k batch = completed g ++ m :: pending g) /\
  (forall m, inflight g = Some m ->
     Grouping.ofKey k batch = completed g ++ m :: pending g) /\
  (outcome g = None -> inflight g = None ->
     Grouping.ofKey k batch = completed g ++ pending g).
Proof.
  intros Hr Hg.
  destruct (reachable_groups limit batch d Hr k g Hg) as (H1 & H2 & H3 & _ & H5).
  unfold messagesOf, failedOf in H1.
  split; [eexists; symmetry; exact H1 |].
  split; [| split; [| split]].
  - intros Ho. rewrite Ho in H1, H5. destruct H5 as (_ & Hi & Hp).
    rewrite Hi, Hp in H1. cbn in H1. now rewrite app_nil_r in H1.
  - intros m Ho. rewrite Ho in H1, H5. destruct H5 as (_ & Hi).
    rewrite Hi in H1. cbn in H1. now symmetry.
  - intros m Hi. rewrite (H3 (H2 ltac:(rewrite Hi; eauto))), Hi in H1.
    cbn in H1. now symmetry.
  - intros Ho Hi. rewrite Ho, Hi in H1. cbn in H1. now symmetry.
Qed.

Lemma begin_fresh (batch : list KafkaMessage) (d : dispatcher) (k : string)
    (done rest : list KafkaMessage) (m : KafkaMessage) :
  NoDup batch -> reachablec batch d ->
  groups d !! k = Some (MkGroup done None (m :: rest) None) ->
  Begin m ∉ trace d.
Proof.
  intros Hnd Hr Hg Hb.
  destruct (reachable_events limit batch d Hr) as [Eb _].
  destruct (Eb m Hb) as (g' & Hg' & Hcase).
  assert (Hk : Grouping.keyOf m = k).
  { apply (group_member_key limit batch d k _ m Hr Hg).
    unfold messagesOf, failedOf; cbn. set_solver. }
  rewrite Hk, Hg in Hg'. injection Hg' as <-.
  destruct (reachable_groups limit batch d Hr _ _ Hg) as (H1 & _).
  unfold messagesOf, failedOf in H1; cbn in H1.
  pose proof (ofKey_NoDup batch k Hnd) as Hnd2. rewrite <- H1 in Hnd2.
  apply NoDup_app in Hnd2 as (_ & Hdis & _).
  destruct Hcase as [Hc | [Hc | Hc]]; cbn in Hc; try discriminate.
  apply (Hdis m Hc). constructor.
Qed.

(** X15. In a batch without repeated message no message is handed to the
    handler twice, and the handler is started on messages of the batch
    only. *)
Theorem handler_started_once (batch : list KafkaMessage) (d : dispatcher) :
  NoDup batch ->
  reachablec batch d ->
  (forall post pre m, trace d = post ++ Begin m :: pre -> Begin m ∉ pre) /\
  (forall m, Begin m ∈ trace d -> m ∈ batch).
Proof.
  intros Hnd Hr. split.
  - induction Hr as [| a d d' Hr IH Hstep].
    + intros [| ? ?] ? ? H; discriminate.
    + assert (Hcons : forall e,
                (forall m, e = Begin m -> Begin m ∉ trace d) ->
                forall post pre m,
                  e :: trace d = post ++ Begin m :: pre -> Begin m ∉ pre).
      { intros e He [| x post] pre m Heq; cbn [app] in Heq.
        - injection Heq as -> <-. now apply He.
        - injection Heq as _ Heq. now apply (IH post). }
      pose proof (begin_fresh batch d) as Hfresh.
      apply step_inv in Hstep.
      destruct a as [k | k | k | k | k |];
        [ destruct Hstep as (g & Hg & Hnr & Ho & Hsz & ->)
        | destruct Hstep as (done & m & rest & Hg & Hrun & ->)
        | destruct Hstep as (done & m & rest & Hg & Hrun & ->)
        | destruct Hstep as (done & m & rest & Hg & Hrun & ->)
        | destruct Hstep as (done & Hg & Hrun & ->)
        | destruct Hstep as (Hc & Hall & ->) ];
        cbn [trace]; [exact IH | | | | |];
        apply Hcons; intros x [= <-].
      eapply Hfresh; eauto.
  - intros m Hb.
    destruct (reachable_events limit batch d Hr) as [Eb _].
    destruct (Eb m Hb) as (g & Hg & Hcase).
    destruct (reachable_groups limit batch d Hr _ _ Hg) as (H1 & _ & _ & _ & H5).
    assert (Hin : m ∈ Grouping.ofKey (Grouping.keyOf m) batch).
    { rewrite <- H1. unfold messagesOf, failedOf.
      destruct Hcase as [Hc | [Hc | Hc]]; rewrite ?Hc; cbn; set_solver. }
    unfold Grouping.ofKey in Hin. rewrite list_elem_of_filter in Hin. tauto.
Qed.

End DispatcherFacts.

(** The KeyGroup of A in the committed scenario: both orders done. *)
Lemma keygroup_progress_witness :
  [orderA1; orderA2] `prefix_of` Grouping.ofKey "A" scenarioBatch.
Proof.
  apply (keygroup_progress (Some 2%nat) scenarioBatch scenarioCommitted "A"
           (Dispatcher.MkGroup [orderA1; orderA2] None []
              (Some Dispatcher.GroupSucceeded)));
    [apply run_reachable; constructor | vm_compute; reflexivity].
Defined.

(** The parallel scenario: the first order of A was started, once. *)
Lemma handler_started_once_witness :
  orderA1 ∈ scenarioBatch.
Proof.
  destruct (handler_started_once None scenarioBatch scenarioParallel
              scenarioBatch_NoDup) as [_ H];
    [apply run_reachable; constructor |].
  apply H. vm_compute. repeat constructor.
Defined.

(** ** Processing a batch in chunks
       (docs/kafka/best-practices.md, 177-192) *)

Module Chunking.

(** const chunkSize = 50 *)
Definition chunkSize : nat := 50.

(** How handleBatch ends. *)
Inductive ending : Type :=
| Completed    (* the loop condition fails: every chunk was processed *)
| Threw        (* processChunk rejected: the loop is left there *)
| OutOfFuel.   (* the iterations allowed to the model are used up *)

(** One iteration: the chunk handed to processChunk and whether
    global.gc?.() was reached after it. *)
Record iteration : Type := Iteration {
  chunk : list KafkaMessage;
  gcAfter : bool
}.

Record report : Type := Report {
  iterations : list iteration;
  ended : ending
}.

Section Loop.
Variable messages : list KafkaMessage.
(** The awaited processChunk on the chunk that starts at index i:
    [true] when it resolves, [false] when it rejects. *)
Variable processChunk : nat -> list KafkaMessage -> bool.

(** for (let i = ...; i < messages.length; i += chunkSize) { ... },
    one unit of [fuel] per iteration; messages.slice(i, i + chunkSize)
    is take chunkSize (drop i messages). *)
Fixpoint chunkLoop (fuel i : nat) : report :=
  match fuel with
  | O => {| iterations := []; ended := OutOfFuel |}
  | S fuel' =>
      if (i <? length messages)%nat then
        let c := take chunkSize (drop i messages) in
        if processChunk i c then
          let rest := chunkLoop fuel' (i + chunkSize) in
          {| iterations :=
               {| chunk := c; gcAfter := (i mod 500 =? 0)%nat |} :: iterations rest;
             ended := ended rest |}
        else {| iterations := [{| chunk := c; gcAfter := false |}];
                ended := Threw |}
      else {| iterations := []; ended := Completed |}
  end.

(** handleBatch: the loop from i = 0.  Every iteration moves i by
    chunkSize, so messages.length + 1 iterations are more than it can
    make. *)
Definition handleBatch : report := chunkLoop (S (length messages)) 0.

End Loop.

End Chunking.

Section ChunkingProofs.
Import Chunking.
Variable messages : list KafkaMessage.
Variable processChunk : nat -> list KafkaMessage -> bool.

Local Abbreviation loop := (chunkLoop messages processChunk).

Lemma chunkLoop_spec (fuel : nat) :
  forall i : nat,
  (length messages - i < fuel)%nat ->
  let r := loop fuel i in
  ended r <> OutOfFuel /\
  (forall j it, iterations r !! j = Some it ->
     chunk it = take chunkSize (drop (i + chunkSize * j) messages) /\
     (i + chunkSize * j < length messages)%nat /\
     (ended r = Completed ->
      gcAfter it = ((i + chunkSize * j) mod 500 =? 0)%nat) /\
     (forall j', (j' < j)%nat ->
        processChunk (i + chunkSize * j')
          (take chunkSize (drop (i + chunkSize * j') messages)) = true)) /\
  (exists rest, drop i messages = concat (map chunk (iterations r)) ++ rest /\
     (ended r = Completed -> rest = [])) /\
  (ended r = Threw ->
   exists it, last (iterations r) = Some it /\
     processChunk (i + chunkSize * (length (iterations r) - 1)) (chunk it) = false) /\
  (ended r = Completed ->
   forall j, (i + chunkSize * j < length messages)%nat ->
     is_Some (iterations r !! j)).
Proof.
  induction fuel as [| fuel IH]; intros i Hf; [lia |].
  cbn [chunkLoop]. cbv zeta.
  destruct (i <? length messages)%nat eqn:Hi.
  - apply Nat.ltb_lt in Hi.
    destruct (processChunk i (take chunkSize (drop i messages))) eqn:Hp.
    + assert (Hf' : (length messages - (i + chunkSize) < fuel)%nat)
        by (unfold chunkSize; lia).
      specialize (IH (i + chunkSize)%nat Hf'). cbv zeta in IH.
      destruct IH as (H1 & H2 & (rest & H3 & H3') & H4 & H5).
      cbn [iterations ended].
      split; [exact H1 |].
      split; [| split; [| split]].
      * intros [| j] it Hit; cbn in Hit.
        -- injection Hit as <-. cbn [chunk gcAfter].
           rewrite Nat.mul_0_r, Nat.add_0_r.
           split; [reflexivity |]. split; [exact Hi |].
           split; [reflexivity |]. intros j' Hj'. lia.
        -- destruct (H2 j it Hit) as (Ha & Hb & Hc & Hd).
           replace (i + chunkSize * S j)%nat with (i + chunkSize + chunkSize * j)%nat
             by lia.
           split; [exact Ha |]. split; [exact Hb |]. split; [exact Hc |].
           intros [| j'] Hj'.
           ++ rewrite Nat.mul_0_r, Nat.add_0_r. exact Hp.
           ++ replace (i + chunkSize * S j')%nat
                with (i + chunkSize + chunkSize * j')%nat by lia.
              apply Hd. lia.
      * exists rest. split; [| exact H3'].
        cbn [map concat chunk]. rewrite <- app_assoc, <- H3.
        rewrite <- (drop_drop messages chunkSize i).
        now rewrite take_drop.
      * intros He. destruct (H4 He) as (it & Hl & Hq).
        destruct (iterations (loop fuel (i + chunkSize)%nat)) as [| x xs] eqn:Hx;
          [discriminate |].
        exists it. split.
        -- rewrite last_cons, Hl. reflexivity.
        -- cbn [length] in *.
           replace (i + chunkSize * (S (S (length xs)) - 1))%nat
             with (i + chunkSize + chunkSize * (S (length xs) - 1))%nat by lia.
           exact Hq.
      * intros He [| j] Hj; cbn; [eauto |].
        apply (H5 He). lia.
    + cbn [iterations ended]. split; [discriminate |].
      split; [| split; [| split]].
      * intros [| j] it Hit; cbn in Hit; [| discriminate].
        injection Hit as <-. cbn [chunk gcAfter].
        rewrite Nat.mul_0_r, Nat.add_0_r.
        split; [reflexivity |]. split; [exact Hi |].
        split; [discriminate |]. intros j' Hj'. lia.
      * exists (drop (i + chunkSize) messages). split; [| discriminate].
        cbn [map concat chunk]. rewrite app_nil_r.
        rewrite <- (drop_drop messages chunkSize i).
        now rewrite take_drop.
      * intros _. eexists. split; [reflexivity |].
        cbn [length chunk]. rewrite Nat.mul_0_r, Nat.add_0_r. exact Hp.
      * discriminate.
  - apply Nat.ltb_ge in Hi. cbn [iterations ended].
    split; [discriminate |].
    split; [| split; [| split]].
    + intros j it Hit. discriminate.
    + exists []. split; [| reflexivity].
      cbn. now apply drop_ge.
    + discriminate.
    + intros _ j Hj. lia.
Qed.

Lemma gc_every_tenth (j : nat) :
  ((chunkSize * j) mod 500 =? 0)%nat = (j mod 10 =? 0)%nat.
Proof.
  unfold chunkSize. change 500%nat with (50 * 10)%nat.
  rewrite Nat.Div0.mul_mod_distr_l.
  destruct (j mod 10)%nat as [| n] eqn:H.
  - reflexivity.
  - transitivity false; [apply Nat.eqb_neq; lia | symmetry; now apply Nat.eqb_neq].
Qed.

(** X16. handleBatch ends, whatever the size of the batch.  The j-th call of
    processChunk gets the messages 50 j to 50 j + 49 of the batch, never
    an empty chunk and never more than 50 messages, and is made only
    when every chunk before it was processed.  A batch that is processed
    to its end has had every message in exactly one chunk, in arrival
    order, in ceil(n / 50) chunks, and the garbage collector was asked
    for after the chunks 0, 10, 20, ...; when processChunk rejects, the loop
    stops at that chunk and the messages behind it are not processed. *)
Theorem handleBatch_chunks :
  let r := handleBatch messages processChunk in
  ended r <> OutOfFuel /\
  (forall j it, iterations r !! j = Some it ->
     chunk it = take chunkSize (drop (chunkSize * j) messages) /\
     (0 < length (chunk it) <= chunkSize)%nat /\
     (gcAfter it = true -> (j mod 10 = 0)%nat) /\
     (forall j', (j' < j)%nat ->
        processChunk (chunkSize * j')
          (take chunkSize (drop (chunkSize * j') messages)) = true)) /\
  (ended r = Completed ->
   concat (map chunk (iterations r)) = messages /\
   (length messages <= chunkSize * length (iterations r)
                    < length messages + chunkSize)%nat /\
   (forall j it, iterations r !! j = Some it ->
      gcAfter it = (j mod 10 =? 0)%nat)) /\
  (ended r = Threw ->
   exists it rest,
     last (iterations r) = Some it /\
     processChunk (chunkSize * (length (iterations r) - 1)) (chunk it) = false /\
     messages = concat (map chunk (iterations r)) ++ rest).
Proof.
  cbv zeta. unfold handleBatch.
  destruct (chunkLoop_spec (S (length messages)) 0%nat ltac:(lia))
    as (H1 & H2 & (rest & H3 & H3') & H4 & H5).
  cbn [Nat.add] in *. rewrite drop_0 in H3.
  set (r := loop (S (length messages)) 0%nat) in *.
  split; [exact H1 |].
  assert (Hlen : forall j it, iterations r !! j = Some it ->
            (0 < length (chunk it) <= chunkSize)%nat).
  { intros j it Hit. destruct (H2 j it Hit) as (Ha & Hb & _).
    rewrite Ha, length_take, length_drop. unfold chunkSize in *. lia. }
  split; [| split].
  - intros j it Hit. destruct (H2 j it Hit) as (Ha & Hb & Hc & Hd).
    split; [exact Ha |]. split; [now apply (Hlen j) |]. split; [| exact Hd].
    intros Hg.
    destruct (ended r) eqn:He; [| | contradiction].
    + rewrite (Hc eq_refl), gc_every_tenth in Hg. now apply Nat.eqb_eq.
    + (* the loop was left at a later chunk, or at this one without gc *)
      clear H5 H3'. revert Hg Hit.
      subst r. generalize (S (length messages)).
      assert (G : forall fuel i j it,
                iterations (loop fuel i) !! j = Some it ->
                gcAfter it = true -> ((i + chunkSize * j) mod 500 = 0)%nat).
      { clear. induction fuel as [| fuel IH]; intros i j it; cbn [chunkLoop].
        - discriminate.
        - destruct (i <? length messages)%nat; [| discriminate].
          destruct (processChunk i _).
          + cbn [iterations]. intros Hit Hg.
            destruct j as [| j]; simpl in Hit.
            * injection Hit as <-. cbn [gcAfter] in Hg.
              apply Nat.eqb_eq in Hg. rewrite Nat.mul_0_r, Nat.add_0_r. exact Hg.
            * replace (i + chunkSize * S j)%nat
                with (i + chunkSize + chunkSize * j)%nat by lia.
              now apply (IH _ _ it).
          + cbn [iterations]. intros Hit Hg.
            destruct j as [| j]; simpl in Hit; [| discriminate].
            injection Hit as <-. discriminate. }
      intros fuel Hg Hit. pose proof (G fuel 0%nat j it Hit Hg) as Hm.
      cbn [Nat.add] in Hm.
      apply Nat.eqb_eq in Hm. rewrite gc_every_tenth in Hm.
      now apply Nat.eqb_eq.
  - intros He. specialize (H3' He). subst rest. rewrite app_nil_r in H3.
    split; [now symmetry |]. split.
    + split.
      * destruct (Nat.le_gt_cases (length messages)
                    (chunkSize * length (iterations r))) as [Hle | Hgt];
          [exact Hle |].
        destruct (H5 He (length (iterations r)) Hgt) as [it Hit].
        apply lookup_lt_Some in Hit. lia.
      * destruct (iterations r) as [| x xs] eqn:Hx using rev_ind.
        -- cbn [length]. unfold chunkSize. lia.
        -- rewrite length_app; cbn [length].
           destruct (H2 (length xs) x) as (_ & Hb & _).
           { rewrite lookup_app_r by lia. now rewrite Nat.sub_diag. }
           unfold chunkSize in *. lia.
    + intros j it Hit. destruct (H2 j it Hit) as (_ & _ & Hc & _).
      rewrite (Hc He). apply gc_every_tenth.
  - intros He. destruct (H4 He) as (it & Hl & Hq).
    exists it, rest. split; [exact Hl |]. split; [exact Hq | exact H3].
Qed.

End ChunkingProofs.

(** ** The transactions of one account
       (docs/kafka/best-practices.md, 1393-1417) *)

Module Ledger.

(** txData, as far as handleBatch reads it; amounts and balances are
    integers here. *)
Record txData : Type := TxData {
  amount : Z;
  isDebit : bool     (* txData.type === 'DEBIT' *)
}.

(** How the promise of one account settles. *)
Inductive settlement : Type :=
| Fulfilled (transactionsProcessed : nat)
| InsufficientFunds    (* throw new InsufficientFundsError(accountId) *)
| ParseError.          (* JSON.parse threw *)

(** The calls of applyTransaction, each with the balance it was given,
    the balance the loop was left with, and the settlement. *)
Record report : Type := Report {
  applied : list (Z * txData);
  finalBalance : Z;
  settled : settlement
}.

Section Account.
(** JSON.parse(tx.value.toString()): [None] when it throws. *)
Variable parse : string -> option txData.
(** ledgerService.applyTransaction(accountId, balance, txData), taken to
    resolve: the balance it returns. *)
Variable applyTransaction : Z -> txData -> Z.

(** for (const tx of transactions) { ... } from the balance so far;
    [count] is transactions.length. *)
Fixpoint processFrom (count : nat) (balance : Z) (txs : list KafkaMessage)
    : report :=
  match txs with
  | [] => {| applied := []; finalBalance := balance; settled := Fulfilled count |}
  | tx :: rest =>
      match parse (value tx) with
      | None =>
          {| applied := []; finalBalance := balance; settled := ParseError |}
      | Some d =>
          if (balance <? amount d) && isDebit d then
            {| applied := []; finalBalance := balance;
               settled := InsufficientFunds |}
          else
            let r := processFrom count (applyTransaction balance d) rest in
            {| applied := (balance, d) :: applied r;
               finalBalance := finalBalance r;
               settled := settled r |}
      end
  end.

(** The body of the callback for one account, from the balance that
    getBalance returned. *)
Definition processAccount (balance : Z) (transactions : list KafkaMessage)
    : report :=
  processFrom (length transactions) balance transactions.

(** The balance after a run of calls of applyTransaction. *)
Definition balanceAfter (balance : Z) (calls : list (Z * txData)) : Z :=
  fold_left (fun b c => applyTransaction b (snd c)) calls balance.

End Account.

End Ledger.

Section LedgerProofs.
Import Ledger.
Variable parse : string -> option txData.
Variable applyTransaction : Z -> txData -> Z.

Local Abbreviation processFromc := (processFrom parse applyTransaction).
Local Abbreviation balanceAfterc := (balanceAfter applyTransaction).

Lemma processFrom_spec (count : nat) (txs : list KafkaMessage) :
  forall balance : Z,
  let r := processFromc count balance txs in
  (forall b d, (b, d) ∈ applied r -> isDebit d = true -> amount d <= b) /\
  (exists rest,
     txs = take (length (applied r)) txs ++ rest /\
     map (fun tx => parse (value tx)) (take (length (applied r)) txs) =
       map (fun c => Some (snd c)) (applied r) /\
     match settled r with
     | Fulfilled n => n = count /\ rest = []
     | InsufficientFunds =>
         exists tx d rest', rest = tx :: rest' /\ parse (value tx) = Some d /\
           isDebit d = true /\ finalBalance r < amount d
     | ParseError =>
         exists tx rest', rest = tx :: rest' /\ parse (value tx) = None
     end) /\
  finalBalance r = balanceAfterc balance (applied r) /\
  (forall l1 b d l2, applied r = l1 ++ (b, d) :: l2 ->
     b = balanceAfterc balance l1).
Proof.
  induction txs as [| tx rest IH]; intros balance; cbv zeta; cbn [processFrom].
  - cbn [applied settled finalBalance length take].
    split; [intros b d H; inversion H |].
    split; [exists []; auto |].
    split; [reflexivity |].
    intros [| ? ?] ? ? ? H; discriminate.
  - destruct (parse (value tx)) as [d |] eqn:Hp.
    + destruct ((balance <? amount d) && isDebit d) eqn:Hg.
      * cbn [applied settled finalBalance length take].
        apply andb_true_iff in Hg as [Hlt Hd]. apply Z.ltb_lt in Hlt.
        split; [intros b d' H; inversion H |].
        split; [exists (tx :: rest); split; [reflexivity |];
                split; [reflexivity |]; eauto 10 |].
        split; [reflexivity |].
        intros [| ? ?] ? ? ? H; discriminate.
      * specialize (IH (applyTransaction balance d)). cbv zeta in IH.
        destruct IH as (H1 & (rest' & H2 & H2' & H2'') & H3 & H4).
        cbn [applied settled finalBalance length take].
        split; [| split; [| split]].
        -- intros b d' Hin Hd. apply elem_of_cons in Hin as [[= -> ->] | Hin].
           ++ rewrite Hd, andb_true_r in Hg. apply Z.ltb_ge in Hg. exact Hg.
           ++ eauto.
        -- exists rest'. split; [cbn [app]; now rewrite <- H2 |].
           split; [cbn [map snd]; now rewrite Hp, H2' | exact H2''].
        -- rewrite H3. reflexivity.
        -- intros [| c l1] b d' l2 Heq; cbn [app] in Heq.
           ++ injection Heq as <- <- <-. reflexivity.
           ++ injection Heq as <- Heq. cbn [balanceAfter fold_left snd].
              now apply (H4 l1 b d' l2).
    + cbn [applied settled finalBalance length take].
      split; [intros b d' H; inversion H |].
      split; [exists (tx :: rest); split; [reflexivity |];
              split; [reflexivity |]; eauto |].
      split; [reflexivity |].
      intros [| ? ?] ? ? ? H; discriminate.
Qed.

(** X17. In the loop over the transactions of an account a debit is applied
    only when the balance at that point covers it; the transactions are
    applied in arrival order, each on the balance the one before left;
    the loop stops at the first debit above the balance, or the first
    value that does not parse, and the transactions applied before it
    stay applied; it fulfils, with transactions.length, exactly when
    all were applied. *)
Theorem debit_within_balance (balance : Z) (transactions : list KafkaMessage) :
  let r := processAccount parse applyTransaction balance transactions in
  (forall b d, (b, d) ∈ applied r -> isDebit d = true -> amount d <= b) /\
  (forall l1 b d l2, applied r = l1 ++ (b, d) :: l2 ->
     b = balanceAfterc balance l1) /\
  finalBalance r = balanceAfterc balance (applied r) /\
  map (fun tx => parse (value tx)) (take (length (applied r)) transactions) =
    map (fun c => Some (snd c)) (applied r) /\
  (forall n, settled r = Fulfilled n <->
     n = length transactions /\ length (applied r) = length transactions) /\
  (settled r = InsufficientFunds ->
   exists tx d, transactions !! length (applied r) = Some tx /\
     parse (value tx) = Some d /\ isDebit d = true /\ finalBalance r < amount d).
Proof.
  cbv zeta. unfold processAccount.
  destruct (processFrom_spec (length transactions) transactions balance)
    as (H1 & (rest & H2 & H2' & H2'') & H3 & H4).
  set (r := processFromc (length transactions) balance transactions) in *.
  assert (Hlen : length (applied r) = length (take (length (applied r)) transactions)).
  { apply (f_equal (@length _)) in H2'. rewrite !length_map in H2'. auto. }
  split; [exact H1 |]. split; [exact H4 |]. split; [exact H3 |].
  split; [exact H2' |]. split.
  - intros n. destruct (settled r) as [n' | |].
    + destruct H2'' as [-> ->]. rewrite app_nil_r in H2.
      split.
      * intros [= <-]. split; [reflexivity |]. rewrite Hlen, <- H2. reflexivity.
      * intros [-> _]. reflexivity.
    + destruct H2'' as (tx & d & rest' & -> & _).
      split; [discriminate |]. intros [_ He].
      apply (f_equal (@length _)) in H2. rewrite length_app in H2.
      cbn [length] in H2. lia.
    + destruct H2'' as (tx & rest' & -> & _).
      split; [discriminate |]. intros [_ He].
      apply (f_equal (@length _)) in H2. rewrite length_app in H2.
      cbn [length] in H2. lia.
  - intros Hs. rewrite Hs in H2''.
    destruct H2'' as (tx & d & rest' & -> & Hp & Hd & Hlt).
    exists tx, d. split; [| auto].
    rewrite H2 at 1. rewrite lookup_app_r by lia.
    rewrite <- Hlen, Nat.sub_diag. reflexivity.
Qed.

End LedgerProofs.

(** ** Skipping messages during shutdown
       (docs/kafka/advanced-features.md, 369-385) *)

Module Graceful.

(** What reaches GracefulOrderConsumer. *)
Inductive event : Type :=
| Deliver (m : KafkaMessage)   (* handleMessage(m) *)
| ShutdownStart.               (* the 'kafka.shutdown.start' event *)

(** The flag, and the calls of processOrder, oldest first. *)
Record consumer : Type := Consumer {
  isShuttingDown : bool;
  processed : list KafkaMessage
}.

(** private isShuttingDown = false *)
Definition init : consumer := {| isShuttingDown := false; processed := [] |}.

Definition handleMessage (m : KafkaMessage) (c : consumer) : consumer :=
  if isShuttingDown c then c
  else {| isShuttingDown := isShuttingDown c; processed := processed c ++ [m] |}.

Definition onShutdownStart (c : consumer) : consumer :=
  {| isShuttingDown := true; processed := processed c |}.

Definition step (c : consumer) (ev : event) : consumer :=
  match ev with
  | Deliver m => handleMessage m c
  | ShutdownStart => onShutdownStart c
  end.

Definition run (evs : list event) (c : consumer) : consumer :=
  fold_left step evs c.

(** The messages delivered before the first shutdown event. *)
Fixpoint beforeShutdown (evs : list event) : list KafkaMessage :=
  match evs with
  | [] => []
  | Deliver m :: rest => m :: beforeShutdown rest
  | ShutdownStart :: _ => []
  end.

End Graceful.

Section GracefulProofs.
Import Graceful.

Lemma run_shutting_down (evs : list event) (c : consumer) :
  isShuttingDown c = true ->
  run evs c = {| isShuttingDown := true; processed := processed c |}.
Proof.
  revert c; induction evs as [| ev evs IH]; intros [f p] Hc; cbn in Hc; subst f.
  - reflexivity.
  - destruct ev; cbn; rewrite IH; reflexivity.
Qed.

Lemma run_processed (evs : list event) (c : consumer) :
  isShuttingDown c = false ->
  processed (run evs c) = processed c ++ beforeShutdown evs /\
  (isShuttingDown (run evs c) = true <-> ShutdownStart ∈ evs).
Proof.
  revert c; induction evs as [| ev evs IH]; intros [f p] Hc; cbn in Hc; subst f.
  - cbn. rewrite app_nil_r. split; [reflexivity |].
    split; [discriminate | intros H; inversion H].
  - destruct ev as [m |].
    + change (run (Deliver m :: evs) (Consumer false p))
        with (run evs (Consumer false (p ++ [m]))).
      destruct (IH (Consumer false (p ++ [m])) eq_refl) as [H1 H2].
      rewrite H1, H2. cbn [processed beforeShutdown].
      rewrite <- app_assoc. split; [reflexivity |].
      rewrite elem_of_cons. split; [auto | intros [? | ?]; [discriminate | auto]].
    + change (run (ShutdownStart :: evs) (Consumer false p))
        with (run evs (Consumer true p)).
      rewrite run_shutting_down by reflexivity.
      cbn [processed isShuttingDown beforeShutdown]. rewrite app_nil_r.
      split; [reflexivity |]. split; [intros _; constructor | reflexivity].
Qed.

(** X18. GracefulOrderConsumer calls processOrder on the messages delivered
    before the first 'kafka.shutdown.start' event, in order, and on no
    message delivered after it: the flag is never cleared, and
    handleMessage returns without processing, and without an error,
    once it is set. *)
Theorem shutdown_skips_messages (evs : list event) :
  processed (run evs init) = beforeShutdown evs /\
  (isShuttingDown (run evs init) = true <-> ShutdownStart ∈ evs) /\
  (forall before after,
     evs = before ++ ShutdownStart :: after ->
     run evs init = run (before ++ [ShutdownStart]) init).
Proof.
  destruct (run_processed evs init eq_refl) as [H1 H2].
  split; [exact H1 |]. split; [exact H2 |].
  intros before after ->.
  unfold run. rewrite !fold_left_app. cbn [fold_left step].
  apply run_shutting_down. reflexivity.
Qed.

End GracefulProofs.

(** ** Waiting for the messages in flight
       (docs/kafka/best-practices.md, 486-492) *)

Module Shutdown.

Section Wait.
(** timeout = 30000 unless the caller passes one. *)
Variable timeout : Z.
(** The n-th reading of Date.now() (from 0) and the n-th call of
    hasInFlightMessages(). *)
Variable clock : nat -> Z.
Variable hasInFlightMessages : nat -> bool.

(** while (this.hasInFlightMessages() && Date.now() - start < timeout)
      await new Promise(resolve => setTimeout(resolve, 100));
    [n] iterations have been made; the result is the number of sleeps,
    [None] when [fuel] iterations were not enough. *)
Fixpoint waitLoop (fuel n : nat) (start : Z) : option nat :=
  match fuel with
  | O => None
  | S fuel' =>
      if hasInFlightMessages n && (clock (S n) - start <? timeout)
      then waitLoop fuel' (S n) start
      else Some n
  end.

(** const start = Date.now(); while ... *)
Definition waitForInFlightMessages (fuel : nat) : option nat :=
  waitLoop fuel 0 (clock 0).

End Wait.

End Shutdown.

Section ShutdownProofs.
Import Shutdown.
Variable timeout : Z.
Variable clock : nat -> Z.
Variable hasInFlightMessages : nat -> bool.

Local Abbreviation waitLoopc := (waitLoop timeout clock hasInFlightMessages).

Lemma waitLoop_result (fuel : nat) :
  forall n start k,
  waitLoopc fuel n start = Some k ->
  (n <= k)%nat /\
  (forall j, (n <= j < k)%nat ->
     hasInFlightMessages j = true /\ clock (S j) - start < timeout) /\
  (hasInFlightMessages k = false \/ timeout <= clock (S k) - start).
Proof.
  induction fuel as [| fuel IH]; intros n start k; cbn [waitLoop];
    [discriminate |].
  destruct (hasInFlightMessages n) eqn:Hh; cbn [andb].
  - destruct (clock (S n) - start <? timeout) eqn:Hc.
    + intros H. destruct (IH _ _ _ H) as (H1 & H2 & H3).
      split; [lia |]. split; [| exact H3].
      intros j Hj. destruct (decide (j = n)) as [-> | Hne].
      * split; [exact Hh | now apply Z.ltb_lt].
      * apply H2. lia.
    + intros [= <-]. split; [lia |]. split; [intros j Hj; lia |].
      right. now apply Z.ltb_ge.
  - intros [= <-]. split; [lia |]. split; [intros j Hj; lia |]. now left.
Qed.

Lemma waitLoop_returns (fuel : nat) :
  forall n start,
  (forall j, clock 0%nat + 100 * Z.of_nat j <= clock (S j)) ->
  start = clock 0%nat ->
  timeout <= 100 * Z.of_nat (n + fuel) - 100 ->
  (0 < fuel)%nat ->
  exists k, waitLoopc fuel n start = Some k.
Proof.
  induction fuel as [| fuel IH]; intros n start Hclock -> Hf Hpos; [lia |].
  cbn [waitLoop].
  destruct (hasInFlightMessages n && (clock (S n) - clock 0%nat <? timeout))
    eqn:Hg; [| eauto].
  apply andb_true_iff in Hg as [_ Hc]. apply Z.ltb_lt in Hc.
  pose proof (Hclock n) as Hn.
  destruct fuel as [| fuel'].
  - exfalso. lia.
  - apply IH; auto; lia.
Qed.

(** X19. With sleeps of at least 100 ms each, waitForInFlightMessages
    returns: after at most ceil(timeout / 100) sleeps, 300 for the
    timeout of 30000.  It has slept while messages were in flight and
    the timeout had not passed, and it returns as soon as no message is
    in flight or the timeout has passed, in which case messages may
    still be in flight when the client disconnects. *)
Theorem waitForInFlightMessages_returns (fuel : nat) :
  (forall j, clock 0%nat + 100 * Z.of_nat j <= clock (S j)) ->
  timeout <= 100 * Z.of_nat fuel - 100 ->
  (0 < fuel)%nat ->
  exists sleeps,
    waitForInFlightMessages timeout clock hasInFlightMessages fuel = Some sleeps /\
    (sleeps = 0%nat \/ 100 * (Z.of_nat sleeps - 1) < timeout) /\
    (forall j, (j < sleeps)%nat ->
       hasInFlightMessages j = true /\ clock (S j) - clock 0%nat < timeout) /\
    (hasInFlightMessages sleeps = false \/
     timeout <= clock (S sleeps) - clock 0%nat).
Proof.
  intros Hclock Hf Hpos. unfold waitForInFlightMessages.
  destruct (waitLoop_returns fuel 0%nat (clock 0%nat) Hclock eq_refl Hf Hpos)
    as [k Hk].
  exists k. split; [exact Hk |].
  destruct (waitLoop_result _ _ _ _ Hk) as (_ & H2 & H3).
  split; [| split; [| exact H3]].
  - destruct k as [| k]; [now left | right].
    destruct (H2 k ltac:(lia)) as [_ Hc].
    pose proof (Hclock k). lia.
  - intros j Hj. apply H2. lia.
Qed.

End ShutdownProofs.

(** A clock that advances by 100 ms per reading, messages in flight
    throughout, a timeout of 250 ms: two sleeps. *)
Lemma waitForInFlightMessages_returns_witness :
  exists sleeps,
    Shutdown.waitForInFlightMessages 250 (fun n => 100 * Z.of_nat n)
      (fun _ => true) 4 = Some sleeps /\
    (sleeps = 0%nat \/ 100 * (Z.of_nat sleeps - 1) < 250).
Proof.
  destruct (waitForInFlightMessages_returns 250 (fun n => 100 * Z.of_nat n)
              (fun _ => true) 4) as (k & H1 & H2 & _);
    [intros j; lia | lia | lia |].
  exists k. split; [exact H1 | exact H2].
Defined.

(** ** RobustProducerService.sendWithRetry (troubleshooting page) *)

Module RobustProducer.

(** How sendWithRetry ends. *)
Inductive ending : Type :=
| Returned     (* return, after a send that resolved *)
| Rethrown     (* throw error, at attempt === maxRetries *)
| LoopExit     (* attempt <= maxRetries fails: the function returns undefined *)
| OutOfFuel.   (* the iterations allowed to the model are used up *)

Record report : Type := Report {
  calls : nat;          (* calls of kafkaClient.send *)
  sleeps : list Z;      (* the delays slept, oldest first *)
  ended : ending
}.

(** Math.min(1000 * Math.pow(2, attempt), 10000) *)
Definition delay (attempt : Z) : Z := Z.min (1000 * 2 ^ attempt) 10000.

Section Loop.
(** maxRetries = 3 unless the caller passes one; an integer here. *)
Variable maxRetries : Z.
(** Whether the send made at [attempt] resolves. *)
Variable sendResolves : Z -> bool.

(** for (let attempt = ...; attempt <= maxRetries; attempt++) { ... },
    one unit of [fuel] per iteration. *)
Fixpoint attemptLoop (fuel : nat) (attempt : Z) : report :=
  match fuel with
  | O => {| calls := 0; sleeps := []; ended := OutOfFuel |}
  | S fuel' =>
      if attempt <=? maxRetries then
        if sendResolves attempt then
          {| calls := 1; sleeps := []; ended := Returned |}
        else if attempt =? maxRetries then
          {| calls := 1; sleeps := []; ended := Rethrown |}
        else
          let r := attemptLoop fuel' (attempt + 1) in
          {| calls := S (calls r); sleeps := delay attempt :: sleeps r;
             ended := ended r |}
      else {| calls := 0; sleeps := []; ended := LoopExit |}
  end.

(** The loop from attempt = 1; it makes at most maxRetries iterations. *)
Definition sendWithRetry : report :=
  attemptLoop (S (Z.to_nat maxRetries)) 1.

End Loop.

End RobustProducer.

Section RobustProducerProofs.
Import RobustProducer.
Variable maxRetries : Z.
Variable sendResolves : Z -> bool.

Local Abbreviation loop := (attemptLoop maxRetries sendResolves).

Lemma delay_range (attempt : Z) : 1 <= attempt -> 2000 <= delay attempt <= 10000.
Proof.
  intros Ha. unfold delay.
  assert (2 ^ 1 <= 2 ^ attempt) by (apply Z.pow_le_mono_r; lia).
  change (2 ^ 1) with 2 in *. lia.
Qed.

Lemma attemptLoop_spec (fuel : nat) :
  forall attempt : Z,
  Z.max 0 (maxRetries - attempt + 1) < Z.of_nat fuel ->
  let r := loop fuel attempt in
  ended r <> OutOfFuel /\
  (ended r = LoopExit <-> maxRetries < attempt) /\
  Z.of_nat (calls r) <= Z.max 0 (maxRetries - attempt + 1) /\
  (attempt <= maxRetries -> (1 <= calls r)%nat) /\
  (forall a, attempt <= a < attempt + Z.of_nat (calls r) - 1 ->
     sendResolves a = false) /\
  (ended r = Returned ->
   sendResolves (attempt + Z.of_nat (calls r) - 1) = true) /\
  (ended r = Rethrown <->
   attempt <= maxRetries /\
   forall a, attempt <= a <= maxRetries -> sendResolves a = false) /\
  sleeps r = map delay (seqZ attempt (Z.of_nat (calls r) - 1)).
Proof.
  induction fuel as [| fuel IH]; intros attempt Hf; [lia |].
  cbv zeta. cbn [attemptLoop].
  destruct (attempt <=? maxRetries) eqn:Hle.
  - apply Z.leb_le in Hle.
    destruct (sendResolves attempt) eqn:Hs.
    + cbn [calls sleeps ended].
      split; [discriminate |]. split; [split; [discriminate | lia] |].
      split; [lia |]. split; [lia |]. split; [intros a Ha; lia |].
      split; [intros _; now replace (attempt + Z.of_nat 1 - 1) with attempt by lia |].
      split; [| reflexivity].
      split; [discriminate |]. intros [_ Hall].
      rewrite (Hall attempt) in Hs by lia. discriminate.
    + destruct (attempt =? maxRetries) eqn:He.
      * apply Z.eqb_eq in He. cbn [calls sleeps ended].
        split; [discriminate |]. split; [split; [discriminate | lia] |].
        split; [lia |]. split; [lia |]. split; [intros a Ha; lia |].
        split; [discriminate |].
        split; [| reflexivity].
        split; [intros _ | reflexivity].
        split; [lia |]. intros a Ha. now replace a with attempt by lia.
      * apply Z.eqb_neq in He.
        assert (Hf' : Z.max 0 (maxRetries - (attempt + 1) + 1) < Z.of_nat fuel)
          by lia.
        specialize (IH (attempt + 1) Hf'). cbv zeta in IH.
        destruct IH as (H1 & H2 & H3 & H4 & H5 & H6 & H7 & H8).
        specialize (H4 ltac:(lia)).
        cbn [calls sleeps ended].
        split; [exact H1 |].
        split; [rewrite H2; lia |].
        split; [lia |]. split; [lia |].
        split; [| split; [| split]].
        -- intros a Ha. destruct (decide (a = attempt)) as [-> | Hne];
             [exact Hs | apply H5; lia].
        -- intros Hr.
           replace (attempt + Z.of_nat (S (calls (loop fuel (attempt + 1)))) - 1)
             with (attempt + 1 + Z.of_nat (calls (loop fuel (attempt + 1))) - 1)
             by lia.
           now apply H6.
        -- rewrite H7. split.
           ++ intros [_ Hall]. split; [lia |]. intros a Ha.
              destruct (decide (a = attempt)) as [-> | Hne];
                [exact Hs | apply Hall; lia].
           ++ intros [_ Hall]. split; [lia |]. intros a Ha. apply Hall. lia.
        -- rewrite H8.
           rewrite (seqZ_cons attempt (Z.of_nat (S _) - 1)) by lia.
           cbn [map]. do 3 f_equal; lia.
  - apply Z.leb_gt in Hle. cbn [calls sleeps ended].
    split; [discriminate |]. split; [tauto |].
    split; [lia |]. split; [lia |]. split; [intros a Ha; lia |].
    split; [discriminate |].
    split; [| reflexivity].
    split; [discriminate | lia].
Qed.

(** X20. sendWithRetry ends after at most maxRetries calls of send, the first
    call that resolves being the last.  It rethrows exactly when
    maxRetries is at least 1 and every one of the maxRetries calls
    fails.  With maxRetries below 1 it makes no call at all and returns
    as if the message had been sent.  Between two calls it sleeps
    min(1000 * 2^attempt, 10000): 2000 ms after the first failure, never
    less than 2000 nor more than 10000. *)
Theorem robust_sendWithRetry_behaviour :
  let r := sendWithRetry maxRetries sendResolves in
  ended r <> OutOfFuel /\
  (ended r = LoopExit <-> maxRetries < 1) /\
  (ended r = LoopExit -> calls r = 0%nat) /\
  Z.of_nat (calls r) <= Z.max 0 maxRetries /\
  (forall a, 1 <= a < Z.of_nat (calls r) -> sendResolves a = false) /\
  (ended r = Returned -> sendResolves (Z.of_nat (calls r)) = true) /\
  (ended r = Rethrown <->
   1 <= maxRetries /\ forall a, 1 <= a <= maxRetries -> sendResolves a = false) /\
  sleeps r = map delay (seqZ 1 (Z.of_nat (calls r) - 1)) /\
  (forall ms, ms ∈ sleeps r -> 2000 <= ms <= 10000).
Proof.
  cbv zeta. unfold sendWithRetry.
  destruct (attemptLoop_spec (S (Z.to_nat maxRetries)) 1 ltac:(lia))
    as (H1 & H2 & H3 & H4 & H5 & H6 & H7 & H8).
  set (r := loop (S (Z.to_nat maxRetries)) 1) in *.
  split; [exact H1 |]. split; [exact H2 |].
  split; [intros He; apply H2 in He; lia |].
  split; [lia |].
  split; [intros a Ha; apply H5; lia |].
  split; [intros He; specialize (H6 He);
          now replace (1 + Z.of_nat (calls r) - 1) with (Z.of_nat (calls r)) in H6
            by lia |].
  split; [exact H7 |]. split; [exact H8 |].
  intros ms Hms. rewrite H8 in Hms.
  apply list_elem_of_fmap in Hms as (a & -> & Ha).
  apply elem_of_seqZ in Ha. apply delay_range. lia.
Qed.

End RobustProducerProofs.

